(** * Sudoku core (src/sudoku.ts): shallow embedding and verified properties

    The grid is the TypeScript [Cell[][]]: a list of rows, every cell either
    [null] (here [None]) or a number (here [Some n], with [n : Z]).  Row and
    column arguments are JavaScript numbers; they are integers here, negative
    ones included.  In-place updates of a grid become explicit state passing:
    every function that mutates its argument returns the new grid. *)

From stdpp Require Import base list numbers.
From Stdlib Require Import ZArith Lia Bool.

Local Open Scope Z_scope.

(** ** Data model *)

(** [Cell] and [Grid] abbreviate the list types, so that the list lemmas of
    the library apply to them as they are. *)
Abbreviation Cell := (option Z).
Abbreviation Grid := (list (list (option Z))).

Inductive Difficulty : Type := easy | medium | hard.

(** The three results an access [grid[row]?.[col]] can have. *)
Inductive jsval : Type :=
| JUndefined
| JNull
| JNum (n : Z).

Definition jsval_eqb (a b : jsval) : bool :=
  match a, b with
  | JUndefined, JUndefined => true
  | JNull, JNull => true
  | JNum x, JNum y => x =? y
  | _, _ => false
  end.

(** [array[i]] for a JavaScript number [i]: a negative index names no element. *)
Definition jsIndex {A : Type} (l : list A) (i : Z) : option A :=
  if i <? 0 then None else l !! Z.to_nat i.

(** [grid[row]?.[col]] *)
Definition cellAt (grid : Grid) (row col : Z) : jsval :=
  match jsIndex grid row with
  | None => JUndefined
  | Some rowArr =>
      match jsIndex rowArr col with
      | None => JUndefined
      | Some None => JNull
      | Some (Some n) => JNum n
      end
  end.

(** [const rowArr = grid[row]; if (rowArr) rowArr[col] = v].  Every store of
    the source is made at a cell that was just read as [null] or at a loop
    index of a 9x9 grid, so the column is an index of the row; at an index
    that is not one the list is left as it is. *)
Definition setCell (grid : Grid) (row col : Z) (v : Cell) : Grid :=
  match jsIndex grid row with
  | None => grid
  | Some rowArr =>
      if col <? 0 then grid
      else <[Z.to_nat row := <[Z.to_nat col := v]> rowArr]> grid
  end.

(** What a read finds after [v] was stored. *)
Definition cellOf (v : Cell) : jsval :=
  match v with Some n => JNum n | None => JNull end.

(** The loop [for (let i = 0; i < 9; i++)]. *)
Definition idx9 : list Z := [0; 1; 2; 3; 4; 5; 6; 7; 8].

(** The loop [for (let num = 1; num <= 9; num++)]. *)
Definition digits : list Z := [1; 2; 3; 4; 5; 6; 7; 8; 9].

(** The nested loops over [row] and [col], in the order they visit the cells. *)
Definition cells : list (Z * Z) :=
  r ← idx9; c ← idx9; [(r, c)].

Definition createEmptyGrid : Grid := replicate 9 (replicate 9 None).

Definition cloneGrid (grid : Grid) : Grid :=
  List.map (λ row : list Cell, List.map (λ cell, cell) row) grid.

(** ** Validator *)

(** [grid[r]?.[c] === num] *)
Definition holds (grid : Grid) (r c num : Z) : bool :=
  jsval_eqb (cellAt grid r c) (JNum num).

Definition isValidPlacement (grid : Grid) (row col num : Z) : bool :=
  if existsb (λ c, negb (c =? col) && holds grid row c num) idx9 then false
  else if existsb (λ r, negb (r =? row) && holds grid r col num) idx9 then false
  else
    let boxRow := row / 3 * 3 in
    let boxCol := col / 3 * 3 in
    if existsb (λ r,
         existsb (λ c, (negb (r =? row) || negb (c =? col)) && holds grid r c num)
                 [boxCol; boxCol + 1; boxCol + 2])
         [boxRow; boxRow + 1; boxRow + 2]
    then false
    else true.

Definition isSolved (grid : Grid) : bool :=
  forallb (λ row,
    forallb (λ col,
      match cellAt grid row col with
      | JNum cell => isValidPlacement grid row col cell
      | _ => false
      end) idx9) idx9.

(** The keys [`${row},${col}`] of the set are kept as pairs, in insertion order. *)
Definition getViolations (grid : Grid) : list (Z * Z) :=
  List.filter (λ '(row, col),
    match cellAt grid row col with
    | JNum num => negb (isValidPlacement grid row col num)
    | _ => false
    end) cells.

Definition getCandidates (grid : Grid) (row col : Z) : list Z :=
  match cellAt grid row col with
  | JNull => List.filter (λ num, isValidPlacement grid row col num) digits
  | _ => []
  end.

(** ** Well-formed grids *)

(** A grid of the data model: nine rows of nine cells. *)
Definition grid9 (g : Grid) : Prop :=
  length g = 9%nat ∧ Forall (λ row, length row = 9%nat) g.

Definition grid9b (g : Grid) : bool :=
  (length g =? 9)%nat && forallb (λ row : list Cell, (length row =? 9)%nat) g.

Definition inRange (i : Z) : Prop := 0 <= i < 9.

(** Two cells that see each other: same row, same column or same box. *)
Definition peer (row col r c : Z) : Prop :=
  (r, c) ≠ (row, col) ∧
  (r = row ∨ c = col ∨ (r / 3 = row / 3 ∧ c / 3 = col / 3)).


(** ** Solver

    Recursion that is not structural takes a bound on its depth as first
    argument and returns [None] when the bound is reached.  Every recursive
    call is made after one empty cell was filled, so one more than the
    number of empty cells is always enough (proved below). *)

Definition isNull (v : jsval) : bool :=
  match v with JNull => true | _ => false end.

(** The number of [null] cells the nested loops can find. *)
Definition countEmpty (grid : Grid) : nat :=
  length (List.filter (λ '(row, col), isNull (cellAt grid row col)) cells).

(** The cell at which the nested loops of the search stop. *)
Definition firstEmpty (grid : Grid) : option (Z * Z) :=
  List.find (λ '(row, col), isNull (cellAt grid row col)) cells.

Section DigitLoop.
(** The loop [for (let num = 1; num <= 9; num++)] of [solveInPlace] at the
    cell [(row, col)]; [recur] is the recursive call. *)
Variable recur : Grid → option (bool * Grid).
Variables row col : Z.

Fixpoint tryDigits (nums : list Z) (grid : Grid) : option (bool * Grid) :=
  match nums with
  | [] => Some (false, grid)
  | num :: nums' =>
      if isValidPlacement grid row col num then
        match recur (setCell grid row col (Some num)) with
        | None => None
        | Some (true, grid') => Some (true, grid')
        | Some (false, grid') => tryDigits nums' (setCell grid' row col None)
        end
      else tryDigits nums' grid
  end.
End DigitLoop.

(** [solveInPlace]: the result and the grid as the call leaves it. *)
Fixpoint solveInPlace (depth : nat) (grid : Grid) : option (bool * Grid) :=
  match depth with
  | O => None
  | S depth' =>
      match firstEmpty grid with
      | Some (row, col) => tryDigits (solveInPlace depth') row col digits grid
      | None => Some (true, grid)
      end
  end.

(** [solve]: the inner option is the result [Grid | null]. *)
Definition solve (grid : Grid) : option (option Grid) :=
  let workGrid := cloneGrid grid in
  '(solved, workGrid') ← solveInPlace (S (countEmpty workGrid)) workGrid;
  Some (if solved : bool then Some workGrid' else None).

Section CountLoop.
(** The digit loop of [backtrack]; the state is the pair of the captured
    variables [count] and [workGrid]. *)
Variable recur : Z * Grid → option (bool * (Z * Grid)).
Variables row col : Z.

Fixpoint tryDigitsCount (nums : list Z) (st : Z * Grid)
  : option (bool * (Z * Grid)) :=
  match nums with
  | [] => Some (false, st)
  | num :: nums' =>
      if isValidPlacement st.2 row col num then
        match recur (st.1, setCell st.2 row col (Some num)) with
        | None => None
        | Some (true, st') => Some (true, (st'.1, setCell st'.2 row col None))
        | Some (false, st') =>
            tryDigitsCount nums' (st'.1, setCell st'.2 row col None)
        end
      else tryDigitsCount nums' st
  end.
End CountLoop.

Fixpoint backtrack (maxCount : Z) (depth : nat) (st : Z * Grid)
  : option (bool * (Z * Grid)) :=
  match depth with
  | O => None
  | S depth' =>
      match firstEmpty st.2 with
      | Some (row, col) =>
          tryDigitsCount (backtrack maxCount depth') row col digits st
      | None =>
          let count := st.1 + 1 in
          Some (count >=? maxCount, (count, st.2))
      end
  end.

Definition countSolutions (grid : Grid) (maxCount : Z) : option Z :=
  let workGrid := cloneGrid grid in
  '(_, st) ← backtrack maxCount (S (countEmpty workGrid)) (0, workGrid);
  Some st.1.

(** ** Generator *)

(** The sequence of results of [Math.random()].  The [n]-th call is
    abstracted by a natural number [rnd n], and
    [Math.floor(Math.random() * (i + 1))] by [rnd n mod (i + 1)], which takes
    every value of [0..i] and no other. *)
Definition Random : Type := nat → nat.

(** [[array[i], array[j]] = [array[j]!, array[i]!]] *)
Definition swap {A : Type} (array : list A) (i j : nat) : list A :=
  match array !! i, array !! j with
  | Some x, Some y => <[j := x]> (<[i := y]> array)
  | _, _ => array
  end.

(** The loop of [shuffle] from index [i] down to 1; [n] counts the calls of
    [Math.random()] made so far. *)
Fixpoint shuffleFrom {A : Type} (rnd : Random) (i n : nat) (array : list A)
  : list A * nat :=
  match i with
  | O => (array, n)
  | S i' =>
      let j := (rnd n mod (i + 1))%nat in
      shuffleFrom rnd i' (S n) (swap array i j)
  end.

Definition shuffle {A : Type} (rnd : Random) (n : nat) (array : list A)
  : list A * nat :=
  shuffleFrom rnd (length array - 1) n array.

Definition idx3 : list Z := [0; 1; 2].

(** The two inner loops of [generateSolvedGrid] for one diagonal box;
    [nums[idx++] ?? null] is the lookup [nums !! idx] itself. *)
Definition fillBox (grid : Grid) (box : Z) (nums : list Z) : Grid :=
  let startRow := box * 3 in
  let startCol := box * 3 in
  fold_left (λ g '(r, c),
      setCell g (startRow + r) (startCol + c) (nums !! Z.to_nat (r * 3 + c)))
    (r ← idx3; c ← idx3; [(r, c)]) grid.

(** The loop over the three diagonal boxes. *)
Definition fillDiagonal (rnd : Random) (n : nat) : Grid * nat :=
  fold_left (λ '(g, n) box,
      let '(nums, n') := shuffle rnd n digits in
      (fillBox g box nums, n'))
    idx3 (createEmptyGrid, n).

Definition generateSolvedGrid (rnd : Random) (n : nat) : option (Grid * nat) :=
  let '(grid, n') := fillDiagonal rnd n in
  '(_, grid') ← solveInPlace (S (countEmpty grid)) grid;
  Some (grid', n').

(** ** Difficulty classifier *)

(** The body of the two loops of [applyNakedSingles] at one cell; the state
    is the pair of [changed] and the grid. *)
Definition nakedSingle (st : bool * Grid) (cell : Z * Z) : bool * Grid :=
  let '(changed, g) := st in
  let '(row, col) := cell in
  if isNull (cellAt g row col) then
    match getCandidates g row col with
    | [candidate] => (true, setCell g row col (Some candidate))
    | _ => (changed, g)
    end
  else (changed, g).

Definition applyNakedSingles (grid : Grid) : bool * Grid :=
  fold_left nakedSingle cells (false, grid).

(** One unit and one digit: the cells of [positions] and the store that
    follows when there is exactly one. *)
Definition hiddenSingle (unit : list (Z * Z)) (st : bool * Grid) (num : Z)
  : bool * Grid :=
  let positions :=
    List.filter (λ '(row, col),
      isNull (cellAt st.2 row col) && isValidPlacement st.2 row col num) unit in
  match positions with
  | [(row, col)] => (true, setCell st.2 row col (Some num))
  | _ => st
  end.

Definition rowUnits : list (list (Z * Z)) :=
  List.map (λ row, List.map (λ col, (row, col)) idx9) idx9.

Definition colUnits : list (list (Z * Z)) :=
  List.map (λ col, List.map (λ row, (row, col)) idx9) idx9.

Definition boxUnits : list (list (Z * Z)) :=
  boxRow ← idx3; boxCol ← idx3;
  [r ← idx3; c ← idx3; [(boxRow * 3 + r, boxCol * 3 + c)]].

(** The rows first, then the columns, then the boxes. *)
Definition units : list (list (Z * Z)) := rowUnits ++ colUnits ++ boxUnits.

Definition applyHiddenSingles (grid : Grid) : bool * Grid :=
  fold_left (λ st unit, fold_left (hiddenSingle unit) digits st)
    units (false, grid).

(** The loop [while (progress)] of [canSolveWithBasicDeduction]. *)
Fixpoint deduce (rounds : nat) (workGrid : Grid) : option Grid :=
  match rounds with
  | O => None
  | S rounds' =>
      let '(p1, g1) := applyNakedSingles workGrid in
      let '(p2, g2) := applyHiddenSingles g1 in
      if p1 || p2 then deduce rounds' g2 else Some g2
  end.

Definition canSolveWithBasicDeduction (grid : Grid) : option bool :=
  let workGrid := cloneGrid grid in
  workGrid' ← deduce (S (countEmpty workGrid)) workGrid;
  Some (isSolved workGrid').

(** The scan for an empty cell with no candidate. *)
Definition hasContradiction (testGrid : Grid) : bool :=
  existsb (λ '(r, c),
      isNull (cellAt testGrid r c) &&
      (length (getCandidates testGrid r c) =? 0)%nat) cells.

(** The loop [while (testProgress && !contradiction)]; the result is the
    final value of [contradiction]. *)
Fixpoint leadsToContradiction (rounds : nat) (testGrid : Grid) : option bool :=
  match rounds with
  | O => None
  | S rounds' =>
      let '(p1, g1) := applyNakedSingles testGrid in
      let '(testProgress, g2) :=
        if p1 then (true, g1) else applyHiddenSingles g1 in
      if hasContradiction g2 then Some true
      else if testProgress then leadsToContradiction rounds' g2
      else Some false
  end.

(** [const testGrid = cloneGrid(workGrid); testGrid[row][col] = candidate]
    followed by the test loop. *)
Definition contradicts (workGrid : Grid) (row col candidate : Z) : option bool :=
  let testGrid := setCell (cloneGrid workGrid) row col (Some candidate) in
  leadsToContradiction (S (countEmpty testGrid)) testGrid.

(** The loop [for (const candidate of candidates)] at one cell: the new
    working grid and whether a digit was forced.  [candidates.find] yields
    the other candidate; the candidates are distinct, so it is found. *)
Fixpoint tryCandidates (workGrid : Grid) (row col : Z)
    (candidates rest : list Z) : option (bool * Grid) :=
  match rest with
  | [] => Some (false, workGrid)
  | candidate :: rest' =>
      contradiction ← contradicts workGrid row col candidate;
      if contradiction : bool then
        let otherCandidate := List.find (λ c, negb (c =? candidate)) candidates in
        Some (true, setCell workGrid row col otherCandidate)
      else tryCandidates workGrid row col candidates rest'
  end.

(** The body of the two loops of the lookahead step at [(row, col)]. *)
Definition lookaheadCell (workGrid : Grid) (row col : Z) : option (bool * Grid) :=
  if isNull (cellAt workGrid row col) then
    let candidates := getCandidates workGrid row col in
    if (length candidates =? 2)%nat
    then tryCandidates workGrid row col candidates candidates
    else Some (false, workGrid)
  else Some (false, workGrid).

(** The lookahead step: the scan stops at the first cell that forces a digit. *)
Fixpoint lookaheadScan (workGrid : Grid) (todo : list (Z * Z))
  : option (bool * Grid) :=
  match todo with
  | [] => Some (false, workGrid)
  | (row, col) :: todo' =>
      '(progress, workGrid') ← lookaheadCell workGrid row col;
      if progress : bool then Some (true, workGrid')
      else lookaheadScan workGrid' todo'
  end.

(** The outer loop [while (progress)] of [requiresLookahead]. *)
Fixpoint lookaheadLoop (rounds : nat) (workGrid : Grid) : option Grid :=
  match rounds with
  | O => None
  | S rounds' =>
      let '(p1, g1) := applyNakedSingles workGrid in
      let '(p2, g2) := applyHiddenSingles g1 in
      if p1 || p2 then lookaheadLoop rounds' g2
      else
        '(progress, g3) ← lookaheadScan g2 cells;
        if progress : bool then lookaheadLoop rounds' g3 else Some g3
  end.

Definition requiresLookahead (grid : Grid) : option bool :=
  basic ← canSolveWithBasicDeduction grid;
  if basic : bool then Some false
  else
    let workGrid := cloneGrid grid in
    workGrid' ← lookaheadLoop (S (countEmpty workGrid)) workGrid;
    Some (isSolved workGrid').

(** ** Puzzle builder *)

Definition targetClues (difficulty : Difficulty) : Z :=
  match difficulty with easy => 45 | medium => 35 | hard => 28 end.

(** [backup ?? null] *)
Definition orNull (v : jsval) : Cell :=
  match v with JNum n => Some n | _ => None end.

(** The loop [for (const [row, col] of positions)]. *)
Fixpoint removeClues (difficulty : Difficulty) (positions : list (Z * Z))
    (clues : Z) (puzzle : Grid) : option Grid :=
  match positions with
  | [] => Some puzzle
  | (row, col) :: positions' =>
      if clues <=? targetClues difficulty then Some puzzle
      else
        let backup := cellAt puzzle row col in
        let cleared := setCell puzzle row col None in
        let restored := setCell cleared row col (orNull backup) in
        count ← countSolutions cleared 2;
        if negb (count =? 1) then removeClues difficulty positions' clues restored
        else
          match difficulty with
          | easy =>
              basic ← canSolveWithBasicDeduction cleared;
              if negb basic then removeClues difficulty positions' clues restored
              else removeClues difficulty positions' (clues - 1) cleared
          | medium =>
              basic ← canSolveWithBasicDeduction cleared;
              if negb basic then removeClues difficulty positions' clues restored
              else removeClues difficulty positions' (clues - 1) cleared
          | hard => removeClues difficulty positions' (clues - 1) cleared
          end
  end.

(** [generatePuzzle]: the pair [(puzzle, solution)]. *)
Definition generatePuzzle (difficulty : Difficulty) (rnd : Random)
  : option (Grid * Grid) :=
  '(solution, n) ← generateSolvedGrid rnd 0;
  let puzzle := cloneGrid solution in
  let '(positions, _) := shuffle rnd n cells in
  puzzle' ← removeClues difficulty positions 81 puzzle;
  Some (puzzle', solution).

(** The number of filled cells of a grid. *)
Definition clueCount (grid : Grid) : Z :=
  Z.of_nat (length (List.filter (λ '(row, col),
    match cellAt grid row col with JNum _ => true | _ => false end) cells)).


(** ** Notions used to state the properties *)

(** No filled cell of the grid conflicts with another one: what
    [getViolations] reports as the empty set. *)
Definition consistent (g : Grid) : Prop :=
  ∀ r c n, inRange r → inRange c →
    cellAt g r c = JNum n → isValidPlacement g r c n = true.

(** [s] is a solution of [g]: a solved 9x9 grid that keeps the filled cells
    of [g] and has a digit in every cell that is empty in [g]. *)
Definition completes (g s : Grid) : Prop :=
  grid9 s ∧ isSolved s = true ∧
  ∀ r c, inRange r → inRange c →
    match cellAt g r c with
    | JNum n => cellAt s r c = JNum n
    | _ => ∃ d, 1 <= d <= 9 ∧ cellAt s r c = JNum d
    end.

(** The filled states the backtracking search reaches, in the order it
    reaches them. *)
Fixpoint solutions (depth : nat) (g : Grid) : list Grid :=
  match depth with
  | O => []
  | S depth' =>
      match firstEmpty g with
      | Some (row, col) =>
          num ← digits;
          if isValidPlacement g row col num
          then solutions depth' (setCell g row col (Some num))
          else []
      | None => [g]
      end
  end.

(** What [backtrack] does to [count] over a list of filled states: one
    increment each, until the cap is reached. *)
Fixpoint tally {A : Type} (maxCount : Z) (sols : list A) (count : Z) : bool * Z :=
  match sols with
  | [] => (false, count)
  | _ :: sols' =>
      let count' := count + 1 in
      if count' >=? maxCount then (true, count') else tally maxCount sols' count'
  end.

(** The head of the list of filled states, as [solveInPlace] reports it. *)
Definition firstOf (g : Grid) (sols : list Grid) : bool * Grid :=
  match sols with
  | [] => (false, g)
  | s :: _ => (true, s)
  end.

(** [st'] comes from [st] by filling empty cells, and its flag is set only
    if the flag of [st] was or a cell was filled. *)
Definition fillsFrom (st st' : bool * Grid) : Prop :=
  (countEmpty st'.2 <= countEmpty st.2)%nat ∧
  (st'.1 = true → st.1 = true ∨ (countEmpty st'.2 < countEmpty st.2)%nat).

(** A 9x9 grid with a digit in every cell. *)
Definition digitGrid (s : Grid) : Prop :=
  grid9 s ∧
  ∀ r c, inRange r → inRange c → ∃ d, 1 <= d <= 9 ∧ cellAt s r c = JNum d.

(** [puzzle] is [solution] with some cells cleared. *)
Definition carvedFrom (solution puzzle : Grid) : Prop :=
  grid9 puzzle ∧
  ∀ r c, inRange r → inRange c →
    cellAt puzzle r c = JNull ∨ cellAt puzzle r c = cellAt solution r c.

(** What holds of the puzzle each time the removal loop is entered. *)
Definition carved (difficulty : Difficulty) (solution puzzle : Grid) : Prop :=
  carvedFrom solution puzzle ∧
  countSolutions puzzle 2 = Some 1 ∧
  (difficulty ≠ hard → canSolveWithBasicDeduction puzzle = Some true) ∧
  targetClues difficulty <= clueCount puzzle.


(** ** Grids used as concrete inputs *)

(** An otherwise empty grid with 5 at (0,0). *)
Definition fiveAtOrigin : Grid := setCell createEmptyGrid 0 0 (Some 5).

(** The pattern [grid[r][c] = ((r*3 + r/3 + c) % 9) + 1]: a solved grid. *)
Definition patternGrid : Grid :=
  List.map (λ r, List.map (λ c, Some ((r * 3 + r / 3 + c) mod 9 + 1)) idx9) idx9.

(** The pattern with the 1 of (0,0) repeated at (0,1): a filled grid with
    two equal digits in its first row. *)
Definition repeatedDigitGrid : Grid := setCell patternGrid 0 1 (Some 1).

(** The same grid with cell (8,8) cleared. *)
Definition repeatedDigitPuzzle : Grid := setCell repeatedDigitGrid 8 8 None.

(** Row 0 lacks 1 and 2, row 8 lacks 9 and column 8 holds a 9: cell (0,0)
    has the candidates 1 and 2, and cell (8,8) has none. *)
Definition deadEndGrid : Grid :=
  [ [None; None; Some 3; Some 4; Some 5; Some 6; Some 7; Some 8; Some 9];
    replicate 9 None; replicate 9 None; replicate 9 None; replicate 9 None;
    replicate 9 None; replicate 9 None; replicate 9 None;
    [Some 3; Some 4; Some 5; Some 6; Some 7; Some 8; Some 1; Some 2; None] ].


(** ** Completing three diagonal boxes

    The grid left by the loop over the diagonal boxes always has a solution.
    The argument works on sets of digits, kept as bit masks (bit [d] for the
    digit [d]).  In a solved grid the three boxes of a band hold, on each of
    its rows, three disjoint sets of three digits, and likewise the three
    boxes of a stack on each of its columns.  A strand [(k, z, z')] gives
    these three sets for one row of a band (or one column of a stack): [k]
    in the diagonal box, [z] in the box that follows it cyclically, [z'] in
    the one after.  Three strands make the link of a band or stack, and six
    links whose row sets meet the column sets in every box off the diagonal
    determine a solution. *)

Abbreviation Strand := (N * N * N)%type.

Definition fullMask : N := 1022%N.

Definition bit (d : Z) : N := N.shiftl 1 (Z.to_N d).

Definition mask3 (x y z : Z) : N := N.lor (N.lor (bit x) (bit y)) (bit z).

Definition disj (a b : N) : bool :=
  match N.land a b with N0 => true | _ => false end.

Definition meets (a b : N) : bool :=
  match N.land a b with N0 => false | _ => true end.

(** [forallb] and [existsb] that stop at the first decisive element. *)
Fixpoint allb {A : Type} (f : A → bool) (l : list A) : bool :=
  match l with
  | [] => true
  | x :: l' => if f x then allb f l' else false
  end.

Fixpoint anyb {A : Type} (f : A → bool) (l : list A) : bool :=
  match l with
  | [] => false
  | x :: l' => if f x then true else anyb f l'
  end.

(** The 84 sets of three digits. *)
Definition tri84 : list N :=
  x ← digits; y ← digits; z ← digits;
  if (x <? y) && (y <? z) then [mask3 x y z] else [].

(** The 280 ways to split the digits into three sets of three, each written
    in increasing order of the masks. *)
Definition allParts : list (N * N * N) :=
  a ← tri84; b ← tri84;
  if (a <? b)%N && disj a b then
    c ← tri84;
    if (b <? c)%N && disj a c && disj b c then [(a, b, c)] else []
  else [].

Definition sort3 (t : N * N * N) : N * N * N :=
  let '(a, b, c) := t in
  if (a <? b)%N then
    if (b <? c)%N then (a, b, c)
    else if (a <? c)%N then (a, c, b) else (c, a, b)
  else
    if (a <? c)%N then (b, a, c)
    else if (b <? c)%N then (b, c, a) else (c, b, a).

Definition key (s : Strand) : N := s.1.1.

(** The three sets of a strand are disjoint sets of digits. *)
Definition strandOk (s : Strand) : bool :=
  let '(k, z, z') := s in
  disj k z && disj k z' && disj z z' &&
  (N.lor z fullMask =? fullMask)%N && (N.lor z' fullMask =? fullMask)%N.

(** Two strands of a link are disjoint box by box. *)
Definition crossOk (s t : Strand) : bool :=
  let '(k1, z1, z1') := s in
  let '(k2, z2, z2') := t in
  disj k1 k2 && disj z1 z2 && disj z1' z2'.

Definition linkOk (w : list Strand) : bool :=
  match w with
  | [s0; s1; s2] =>
      strandOk s0 && strandOk s1 && strandOk s2 &&
      crossOk s0 s1 && crossOk s0 s2 && crossOk s1 s2
  | _ => false
  end.

Definition keysAre (L : N * N * N) (w : list Strand) : bool :=
  match w with
  | [s0; s1; s2] =>
      (key s0 =? L.1.1)%N && (key s1 =? L.1.2)%N && (key s2 =? L.2)%N
  | _ => false
  end.

Definition rest (l z : N) : N := N.lxor fullMask (N.lor l z).

(** The links whose keys are the three sets of [L]. *)
Definition linksOf (L : N * N * N) : list (list Strand) :=
  let '(l0, l1, l2) := L in
  List.filter (λ w, keysAre L w && linkOk w)
    (z0 ← List.filter (disj l0) tri84;
     z1 ← List.filter (λ z, disj l1 z && disj z0 z) tri84;
     z2 ← List.filter (λ z, disj l2 z && disj z0 z && disj z1 z) tri84;
     [[(l0, z0, rest l0 z0); (l1, z1, rest l1 z1); (l2, z2, rest l2 z2)]]).

Definition comp1 (w : list Strand) : list N := List.map (λ s : Strand, s.1.2) w.
Definition comp2 (w : list Strand) : list N := List.map (λ s : Strand, s.2) w.

Definition meetsAll (A B : list N) : bool :=
  allb (λ a, allb (λ b, meets a b) B) A.

(** Two links in a row, between the sets [x] and [y]: [x] meets the first
    box of [w1], the second box of [w1] meets the first box of [w2], and the
    second box of [w2] meets [y]. *)
Definition chain (L1 L2 : N * N * N) (xy : list N * list N) : bool :=
  existsb (λ w1,
      meetsAll xy.1 (comp1 w1) &&
      existsb (λ w2, meetsAll (comp2 w2) xy.2 && meetsAll (comp2 w1) (comp1 w2))
              (linksOf L2))
    (linksOf L1).

(** Thirteen pairs of a link of the first band and a link of the first
    stack, for the first diagonal box in standard position. *)
Definition linkPairs : list (list Strand * list Strand) := [
    ([(14, 304, 704); (112, 642, 268); (896, 76, 50)],
     [(146, 100, 776); (292, 522, 208); (584, 400, 38)]);
    ([(14, 608, 400); (112, 388, 522); (896, 26, 100)],
     [(146, 800, 76); (292, 88, 642); (584, 134, 304)]);
    ([(14, 208, 800); (112, 776, 134); (896, 38, 88)],
     [(146, 324, 552); (292, 648, 82); (584, 50, 388)]);
    ([(14, 336, 672); (112, 642, 268); (896, 44, 82)],
     [(146, 608, 268); (292, 26, 704); (584, 388, 50)]);
    ([(14, 176, 832); (112, 772, 138); (896, 74, 52)],
     [(146, 44, 832); (292, 592, 138); (584, 386, 52)]);
    ([(14, 704, 304); (112, 262, 648); (896, 56, 70)],
     [(146, 776, 100); (292, 194, 536); (584, 52, 386)]);
    ([(14, 672, 336); (112, 266, 644); (896, 84, 42)],
     [(146, 76, 800); (292, 530, 200); (584, 416, 22)]);
    ([(14, 448, 560); (112, 524, 386); (896, 50, 76)],
     [(146, 524, 352); (292, 208, 522); (584, 290, 148)]);
    ([(14, 784, 224); (112, 138, 772); (896, 100, 26)],
     [(146, 608, 268); (292, 138, 592); (584, 276, 162)]);
    ([(14, 800, 208); (112, 140, 770); (896, 82, 44)],
     [(146, 772, 104); (292, 74, 656); (584, 176, 262)]);
    ([(14, 352, 656); (112, 648, 262); (896, 22, 104)],
     [(146, 296, 580); (292, 704, 26); (584, 22, 416)]);
    ([(14, 592, 416); (112, 386, 524); (896, 44, 82)],
     [(146, 328, 548); (292, 530, 200); (584, 164, 274)]);
    ([(14, 400, 608); (112, 518, 392); (896, 104, 22)],
     [(146, 548, 328); (292, 200, 530); (584, 274, 164)]) ]%N.

Definition firstRows : N * N * N := (14, 112, 896)%N.
Definition firstCols : N * N * N := (146, 292, 584)%N.

(** What the chain through the third stack and the second band has to join,
    and what the chain through the third band and the second stack has to. *)
Definition ends1 (ad : list Strand * list Strand) : list N * list N :=
  (comp2 ad.1, comp1 ad.2).
Definition ends2 (ad : list Strand * list Strand) : list N * list N :=
  (comp2 ad.2, comp1 ad.1).

(** The check of all pairs of splits, with the links of each split
    computed once: at least seven of the thirteen pairs are joined. *)
Definition pre1 (ls : list (list Strand)) (x : list N) : list (list N) :=
  List.map comp2 (List.filter (λ w, meetsAll x (comp1 w)) ls).

Definition pre2 (ls : list (list Strand)) (y : list N) : list (list N) :=
  List.map comp1 (List.filter (λ w, meetsAll (comp2 w) y) ls).

Definition tabFor (links : list (list (list Strand)))
    (ends : list (list N * list N))
  : list (list (list (list N) * list (list N))) :=
  List.map (λ ls, List.map (λ xy, (pre1 ls xy.1, pre2 ls xy.2)) ends) links.

Definition joined (u v : list (list N)) : bool :=
  anyb (λ a, anyb (λ b, meetsAll a b) v) u.

(** At least [k] elements of [l] satisfy [f]. *)
Fixpoint atLeast {A : Type} (k : nat) (f : A → bool) (l : list A) : bool :=
  match k with
  | O => true
  | S k' =>
      match l with
      | [] => false
      | x :: l' => if f x then atLeast k' f l' else atLeast k f l'
      end
  end.

Definition checkTab (tab : list (list (list (list N) * list (list N)))) : bool :=
  allb (λ t1,
    allb (λ t2,
      atLeast 7
        (λ p : (list (list N) * list (list N)) * (list (list N) * list (list N)),
           joined p.1.1 p.2.2)
        (combine t1 t2)) tab) tab.

(** The check of one chain over all pairs of splits. *)
Definition checkAll (ends : list (list N * list N)) : bool :=
  checkTab (tabFor (List.map linksOf allParts) ends).

(** *** The grid of six links *)

Definition sel3 {A : Type} (a b c : A) (i : Z) : A :=
  if i =? 0 then a else if i =? 1 then b else c.

Definition comp (s : Strand) (k : Z) : N := sel3 s.1.1 s.1.2 s.2 k.

Definition digitOf (p : list Z) (i : Z) : Z := nth (Z.to_nat i) p 0.

Definition rowMask (p : list Z) (r : Z) : N :=
  mask3 (digitOf p (3 * r)) (digitOf p (3 * r + 1)) (digitOf p (3 * r + 2)).

Definition colMask (p : list Z) (c : Z) : N :=
  mask3 (digitOf p c) (digitOf p (c + 3)) (digitOf p (c + 6)).

Definition rowMasks (p : list Z) : N * N * N :=
  (rowMask p 0, rowMask p 1, rowMask p 2).

Definition colMasks (p : list Z) : N * N * N :=
  (colMask p 0, colMask p 1, colMask p 2).

Definition lookupKey (w : list Strand) (k : N) : Strand :=
  match List.find (λ s : Strand, (key s =? k)%N) w with
  | Some s => s
  | None => (0, 0, 0)%N
  end.

Definition gridOf (f : Z → Z → Z) : Grid :=
  List.map (λ row, List.map (λ col, Some (f row col)) idx9) idx9.

Section Layout.
(** [p i] is the content of the diagonal box [i], [bs i r] the strand of row
    [r] of band [i] and [ss j c] the strand of column [c] of stack [j];
    [relabel] renames the digits at the end. *)
Variable p : Z → list Z.
Variable bs ss : Z → Z → Strand.
Variable relabel : Z → Z.

Definition rowSet (i j r : Z) : N := comp (bs i r) ((j - i) mod 3).
Definition colSet (i j c : Z) : N := comp (ss j c) ((i - j) mod 3).

Definition digitAt (row col : Z) : Z :=
  let i := row / 3 in
  let j := col / 3 in
  let r := row mod 3 in
  let c := col mod 3 in
  if i =? j then digitOf (p i) (3 * r + c)
  else Z.of_N (N.log2 (N.land (rowSet i j r) (colSet i j c))).

Definition layoutGrid : Grid := gridOf (λ row col, relabel (digitAt row col)).
End Layout.

(** The grid after the loop over the three diagonal boxes. *)
Definition diagGrid (p0 p1 p2 : list Z) : Grid :=
  fillBox (fillBox (fillBox createEmptyGrid 0 p0) 1 p1) 2 p2.

(** The position of [d] in [l]. *)
Fixpoint indexOf (d : Z) (l : list Z) : nat :=
  match l with
  | [] => O
  | x :: l' => if x =? d then O else S (indexOf d l')
  end.

(** Nine different digits. *)
Definition perm9 (p : list Z) : Prop :=
  length p = 9%nat ∧ List.NoDup p ∧ ∀ x, In x p → 1 <= x <= 9.

(** The digit [d] is in the set [m]. *)
Definition inMask (d : Z) (m : N) : Prop := N.testbit m (Z.to_N d) = true.

(** [m] is one of the three sets of [L]. *)
Definition partOf (m : N) (L : N * N * N) : Prop :=
  m = L.1.1 ∨ m = L.1.2 ∨ m = L.2.

(** The link [w] has a strand for each of the three sets [m 0], [m 1] and
    [m 2]. *)
Definition fits (w : list Strand) (m : Z → N) : Prop :=
  (∀ r, 0 <= r < 3 →
     In (lookupKey w (m r)) w ∧ key (lookupKey w (m r)) = m r ∧
     strandOk (lookupKey w (m r)) = true) ∧
  (∀ r r', 0 <= r < 3 → 0 <= r' < 3 → r ≠ r' →
     crossOk (lookupKey w (m r)) (lookupKey w (m r')) = true).

(** Renaming the digits so that the box [p1] becomes the box [digits], and
    back. *)
Definition positionIn (p1 : list Z) (d : Z) : Z := Z.of_nat (indexOf d p1) + 1.
Definition relabelBy (p1 : list Z) (d : Z) : Z := digitOf p1 (d - 1).

(** The grid of the six links [a], [c], [e] (bands) and [d], [f], [b]
    (stacks) for the diagonal boxes [p1], [p2] and [p3]. *)
Definition linkGrid (p1 p2 p3 : list Z) (a b c d e f : list Strand) : Grid :=
  let p := sel3 digits (List.map (positionIn p1) p2) (List.map (positionIn p1) p3) in
  layoutGrid p
    (λ i r, lookupKey (sel3 a c e i) (rowMask (p i) r))
    (λ j c', lookupKey (sel3 d f b j) (colMask (p j) c'))
    (relabelBy p1).

(** ** Further notions used to state properties *)

(** [peer] as a test. *)
Definition peerb (row col r c : Z) : bool :=
  negb ((r =? row) && (c =? col)) &&
  ((r =? row) || (c =? col) || ((r / 3 =? row / 3) && (c / 3 =? col / 3))).

(** Every number of a grid replaced by its image under [f]. *)
Definition mapCells (f : Z → Z) (g : Grid) : Grid :=
  List.map (λ row : list Cell, List.map (λ cell : Cell, option_map f cell) row) g.

(** Every filled cell of the grid holds a digit of 1..9. *)
Definition digitClues (g : Grid) : Prop :=
  ∀ r c n, cellAt g r c = JNum n → 1 <= n <= 9.

(** [g'] comes from [g] by storing digits of 1..9 in empty cells. *)
Definition filledFrom (g g' : Grid) : Prop :=
  ∀ r c, inRange r → inRange c →
    match cellAt g r c with
    | JNull => cellAt g' r c = JNull ∨ ∃ d, 1 <= d <= 9 ∧ cellAt g' r c = JNum d
    | v => cellAt g' r c = v
    end.

(** The number a cell holds, 0 for a cell that holds none. *)
Definition numberAt (g : Grid) (cell : Z * Z) : Z :=
  match cellAt g cell.1 cell.2 with JNum n => n | _ => 0 end.

(** [s] keeps the filled cells of [g], with the same verdict of
    [isValidPlacement] on each of them, and holds in every cell that is empty
    in [g] a digit of 1..9 that passes [isValidPlacement] in [s]. *)
Definition searched (g s : Grid) : Prop :=
  grid9 s ∧
  ∀ r c, inRange r → inRange c →
    match cellAt g r c with
    | JNum n => cellAt s r c = JNum n ∧
                isValidPlacement s r c n = isValidPlacement g r c n
    | _ => ∃ d, 1 <= d <= 9 ∧ cellAt s r c = JNum d ∧
                isValidPlacement s r c d = true
    end.

(** What a deduction step does to the pair of the flag and the grid: it
    stores digits of 1..9 in empty cells only, it leaves the pair as it is
    when it leaves the flag unset, and it keeps every solution that
    satisfies [ok]. *)
Definition deduces (ok : Grid → Prop) (st st' : bool * Grid) : Prop :=
  filledFrom st.2 st'.2 ∧
  (st'.1 = false → st' = st) ∧
  (grid9 st.2 → grid9 st'.2) ∧
  ∀ s, ok s → grid9 st.2 → completes st.2 s → completes st'.2 s.

(** [digitGrid] and [digitClues] as tests. *)
Definition digitGridb (s : Grid) : bool :=
  grid9b s &&
  forallb (λ '(r, c),
    match cellAt s r c with
    | JNum d => (1 <=? d) && (d <=? 9)
    | _ => false
    end) cells.

Definition digitCluesb (g : Grid) : bool :=
  forallb (λ '(r, c),
    match cellAt g r c with
    | JNum d => (1 <=? d) && (d <=? 9)
    | _ => true
    end) cells.

(** The same for grids alone: [g'] comes from [g] by storing digits of 1..9
    in empty cells and has every solution of [g] that holds digits only. *)
Definition refines (g g' : Grid) : Prop :=
  filledFrom g g' ∧ (grid9 g → grid9 g') ∧
  ∀ s, digitGrid s → grid9 g → completes g s → completes g' s.

(** The grid has two different solutions. *)
Definition ambiguous (g : Grid) : Prop :=
  ∃ s1 s2, s1 ≠ s2 ∧ completes g s1 ∧ completes g s2.

(** * The game (src/main.tsx)

    The state of the component [App] is the record of the [useState]
    variables its handlers read and write on the way to the grid; every
    handler becomes a function from the state to the next state.
    [confirm(...)] is the answer the player gives, and [generatePuzzle] takes
    the sequence of random draws as in the core.  The settings toggles, the
    hint (it calls [findEasiestCell], which the core does not define) and the
    persistence effects are left out. *)

Module App.

Record State : Type := mkState {
  puzzle : Grid;
  solution : Grid;
  current : Grid;
  fixedCells : list (list bool);
  selectedCell : option (Z * Z);
  showSettings : bool;
  showCongrats : bool;
  difficulty : Difficulty
}.

(** [fixedCells[row]?.[col]] as a condition: a missing entry is falsy. *)
Definition isFixed (fixedCells : list (list bool)) (row col : Z) : bool :=
  match jsIndex fixedCells row with
  | None => false
  | Some rowArr =>
      match jsIndex rowArr col with
      | None => false
      | Some fixed => fixed
      end
  end.

Definition hasUserEntries (st : State) : bool :=
  existsb (λ '(r, c),
      negb (isFixed (fixedCells st) r c) &&
      negb (isNull (cellAt (current st) r c))) cells.

(** [newPuzzle.map(row => row.map(cell => cell !== null))] *)
Definition markFixed (newPuzzle : Grid) : list (list bool) :=
  List.map (λ row : list Cell,
    List.map (λ cell : Cell, match cell with Some _ => true | None => false end) row)
    newPuzzle.

Definition startNewGame (rnd : Random) (diff : Difficulty) (st : State)
  : option State :=
  '(newPuzzle, newSolution) ← generatePuzzle diff rnd;
  Some {| puzzle := newPuzzle;
          solution := newSolution;
          current := cloneGrid newPuzzle;
          fixedCells := markFixed newPuzzle;
          selectedCell := None;
          showSettings := false;
          showCongrats := false;
          difficulty := diff |}.

Definition resetGame (st : State) : State :=
  {| puzzle := puzzle st;
     solution := solution st;
     current := cloneGrid (puzzle st);
     fixedCells := fixedCells st;
     selectedCell := None;
     showSettings := showSettings st;
     showCongrats := showCongrats st;
     difficulty := difficulty st |}.

Definition handleCellClick (row col : Z) (st : State) : State :=
  if negb (isFixed (fixedCells st) row col) then
    {| puzzle := puzzle st;
       solution := solution st;
       current := current st;
       fixedCells := fixedCells st;
       selectedCell := Some (row, col);
       showSettings := showSettings st;
       showCongrats := showCongrats st;
       difficulty := difficulty st |}
  else st.

(** [num] is a digit of the number pad, [null] for the clear button, or the
    0 of the last button. *)
Definition handleNumberInput (num : Cell) (st : State) : State :=
  match selectedCell st with
  | Some (row, col) =>
      if negb (isFixed (fixedCells st) row col) then
        let newCurrent := cloneGrid (current st) in
        {| puzzle := puzzle st;
           solution := solution st;
           current := setCell newCurrent row col num;
           fixedCells := fixedCells st;
           selectedCell := selectedCell st;
           showSettings := showSettings st;
           showCongrats := showCongrats st;
           difficulty := difficulty st |}
      else st
  | None => st
  end.

Definition handleNewGame (confirmed : bool) (rnd : Random) (diff : Difficulty)
    (st : State) : option State :=
  if hasUserEntries st then
    if confirmed then startNewGame rnd diff st else Some st
  else startNewGame rnd diff st.

Definition handleReset (confirmed : bool) (st : State) : State :=
  if confirmed then resetGame st else st.

(** The effect that follows a change of [current]. *)
Definition checkCompletion (st : State) : State :=
  if (0 <? length (current st))%nat && isSolved (current st) then
    {| puzzle := puzzle st;
       solution := solution st;
       current := current st;
       fixedCells := fixedCells st;
       selectedCell := selectedCell st;
       showSettings := showSettings st;
       showCongrats := true;
       difficulty := difficulty st |}
  else st.

(** What the player can do: click a cell of the grid that is shown, press a
    button of the number pad, ask for a new game from the settings panel or
    from the congratulation, reset the game. *)
Inductive step : State → State → Prop :=
| step_click (st : State) (row col : Z) :
    cellAt (current st) row col ≠ JUndefined →
    step st (handleCellClick row col st)
| step_input (st : State) (num : Cell) :
    step st (checkCompletion (handleNumberInput num st))
| step_new (st st' : State) (confirmed : bool) (rnd : Random) (diff : Difficulty) :
    handleNewGame confirmed rnd diff st = Some st' →
    step st (checkCompletion st')
| step_again (st st' : State) (rnd : Random) (diff : Difficulty) :
    startNewGame rnd diff st = Some st' →
    step st (checkCompletion st')
| step_reset (st : State) (confirmed : bool) :
    step st (checkCompletion (handleReset confirmed st)).

(** Any number of steps. *)
Inductive steps : State → State → Prop :=
| steps_refl (st : State) : steps st st
| steps_step (st st' st'' : State) : steps st st' → step st' st'' → steps st st''.

(** What holds of every state of a game that was started: the puzzle is the
    solution with cells cleared and has one solution, the fixed cells are
    the clues, the clues are on the board, and the selected cell is a cell
    of the board that is not fixed. *)
Definition started (st : State) : Prop :=
  digitGrid (solution st) ∧ isSolved (solution st) = true ∧
  carvedFrom (solution st) (puzzle st) ∧
  countSolutions (puzzle st) 2 = Some 1 ∧
  fixedCells st = markFixed (puzzle st) ∧
  grid9 (current st) ∧
  (∀ r c n, cellAt (puzzle st) r c = JNum n → cellAt (current st) r c = JNum n) ∧
  (∀ row col, selectedCell st = Some (row, col) →
     cellAt (current st) row col ≠ JUndefined ∧
     isFixed (fixedCells st) row col = false).

End App.

(** ** Further grids used as concrete inputs *)

(** A grid with 48 clues on which naked and hidden singles get stuck and
    the lookahead step does not. *)
Definition lookaheadGrid : Grid :=
  [ [Some 6; Some 8; None; None; None; None; None; Some 3; None];
    [None; None; None; Some 2; Some 3; Some 7; Some 6; Some 8; Some 4];
    [None; Some 3; None; Some 6; Some 8; None; None; Some 9; Some 5];
    [Some 8; Some 4; None; Some 9; None; Some 2; Some 3; Some 7; Some 6];
    [Some 9; None; None; Some 3; Some 7; None; None; Some 4; Some 1];
    [Some 3; Some 7; None; None; Some 4; None; Some 9; Some 5; None];
    [Some 4; Some 1; None; None; Some 2; Some 3; None; Some 6; None];
    [None; None; Some 3; Some 7; Some 6; None; Some 4; Some 1; None];
    [Some 7; Some 6; Some 8; Some 4; None; None; Some 5; Some 2; Some 3] ].

(** The pattern grid with cell (4,4) cleared. *)
Definition patternPuzzle : Grid := setCell patternGrid 4 4 None.

(** The grid with the repeated digit and cell (0,0) cleared: row 0 holds a 1
    and column 0 a 2, and 2 is the only digit row 0 lacks, so that the
    first empty cell has no candidate. *)
Definition stuckGrid : Grid := setCell repeatedDigitGrid 0 0 None.

(** A game on the pattern puzzle with its one empty cell selected. *)
Definition lastCellState : App.State :=
  {| App.puzzle := patternPuzzle;
     App.solution := patternGrid;
     App.current := patternPuzzle;
     App.fixedCells := App.markFixed patternPuzzle;
     App.selectedCell := Some (4, 4);
     App.showSettings := false;
     App.showCongrats := false;
     App.difficulty := easy |}.

(** ** Reading and writing cells *)

Lemma jsIndex_Some {A : Type} (l : list A) (i : Z) (x : A) :
  jsIndex l i = Some x ↔ 0 <= i ∧ l !! Z.to_nat i = Some x.
Proof.
  unfold jsIndex. destruct (Z.ltb_spec i 0); split; intros H'.
  - discriminate.
  - lia.
  - split; [lia | exact H'].
  - tauto.
Qed.

Lemma jsIndex_None {A : Type} (l : list A) (i : Z) :
  jsIndex l i = None ↔ i < 0 ∨ (length l <= Z.to_nat i)%nat.
Proof.
  unfold jsIndex. destruct (Z.ltb_spec i 0).
  - split; [intros _; left; lia | reflexivity].
  - rewrite lookup_ge_None. split; [tauto | intros [?|?]; [lia | assumption]].
Qed.

Lemma jsIndex_in_range {A : Type} (l : list A) (i : Z) :
  0 <= i < Z.of_nat (length l) → ∃ x, jsIndex l i = Some x.
Proof.
  intros Hi. destruct (jsIndex l i) eqn:E; [eauto|].
  apply jsIndex_None in E. lia.
Qed.

Lemma grid9_row (g : Grid) (r : Z) :
  grid9 g → inRange r → ∃ rowArr, jsIndex g r = Some rowArr ∧ length rowArr = 9%nat.
Proof.
  intros [Hl Hrows] Hr. unfold inRange in Hr.
  destruct (jsIndex_in_range g r) as [rowArr E]; [lia|].
  exists rowArr. split; [exact E|].
  apply jsIndex_Some in E as [_ E].
  exact (Forall_lookup_1 _ _ _ _ Hrows E).
Qed.

Lemma cellAt_in_range (g : Grid) (r c : Z) :
  grid9 g → inRange r → inRange c → cellAt g r c ≠ JUndefined.
Proof.
  intros Hg Hr Hc. unfold cellAt.
  destruct (grid9_row g r Hg Hr) as (rowArr & -> & Hlen).
  destruct (jsIndex_in_range rowArr c) as [x ->]; [unfold inRange in Hc; lia|].
  destruct x; discriminate.
Qed.

Lemma cellAt_out_of_range (g : Grid) (r c : Z) :
  grid9 g → ¬ inRange r ∨ ¬ inRange c → cellAt g r c = JUndefined.
Proof.
  intros [Hl Hrows] Hout. unfold cellAt, inRange in *.
  destruct (jsIndex g r) as [rowArr|] eqn:Er; [|reflexivity].
  apply jsIndex_Some in Er as [Hr0 Er].
  assert (Hr9 : (Z.to_nat r < 9)%nat) by (rewrite <- Hl; eapply lookup_lt_Some, Er).
  assert (Hlen : length rowArr = 9%nat).
  { exact (Forall_lookup_1 _ _ _ _ Hrows Er). }
  destruct (jsIndex rowArr c) as [x|] eqn:Ec; [|reflexivity].
  apply jsIndex_Some in Ec as [Hc0 Ec]. apply lookup_lt_Some in Ec. lia.
Qed.

Lemma holds_true (g : Grid) (r c num : Z) :
  holds g r c num = true ↔ cellAt g r c = JNum num.
Proof.
  unfold holds. destruct (cellAt g r c) as [| |n]; simpl; try (split; discriminate).
  rewrite Z.eqb_eq. split; [intros ->; reflexivity | intros [= ->]; reflexivity].
Qed.

Lemma holds_false (g : Grid) (r c num : Z) :
  holds g r c num = false ↔ cellAt g r c ≠ JNum num.
Proof.
  rewrite <- holds_true. destruct (holds g r c num); split; congruence.
Qed.

Lemma idx9_spec (i : Z) : In i idx9 ↔ inRange i.
Proof. unfold idx9, inRange; simpl. lia. Qed.

Lemma digits_spec (d : Z) : In d digits ↔ 1 <= d <= 9.
Proof. unfold digits; simpl. lia. Qed.

Lemma box_spec (x i : Z) :
  In i [x / 3 * 3; x / 3 * 3 + 1; x / 3 * 3 + 2] ↔ i / 3 = x / 3.
Proof. simpl. Z.div_mod_to_equations. lia. Qed.

Lemma existsb_false {A : Type} (f : A → bool) (l : list A) :
  existsb f l = false ↔ ∀ x, In x l → f x = false.
Proof.
  split.
  - intros H x Hx. destruct (f x) eqn:E; [|reflexivity].
    rewrite <- H. symmetry. apply existsb_exists. eauto.
  - intros H. destruct (existsb f l) eqn:E; [|reflexivity].
    apply existsb_exists in E as (x & Hx & Hfx). rewrite H in Hfx; congruence.
Qed.

(** The three loops of [isValidPlacement], one condition each. *)
Lemma isValidPlacement_loops (g : Grid) (row col num : Z) :
  isValidPlacement g row col num = true ↔
    (∀ c, inRange c → c ≠ col → cellAt g row c ≠ JNum num) ∧
    (∀ r, inRange r → r ≠ row → cellAt g r col ≠ JNum num) ∧
    (∀ r c, r / 3 = row / 3 → c / 3 = col / 3 → r ≠ row ∨ c ≠ col →
            cellAt g r c ≠ JNum num).
Proof.
  unfold isValidPlacement.
  destruct (existsb (λ c, negb (c =? col) && _) idx9) eqn:E1.
  { split; [discriminate|]. intros (H1 & _ & _).
    apply existsb_exists in E1 as (c & Hc & Hh).
    apply andb_true_iff in Hh as [Hne Hh]. apply holds_true in Hh.
    apply negb_true_iff, Z.eqb_neq in Hne. apply idx9_spec in Hc.
    exfalso. exact (H1 c Hc Hne Hh). }
  destruct (existsb (λ r, negb (r =? row) && _) idx9) eqn:E2.
  { split; [discriminate|]. intros (_ & H2 & _).
    apply existsb_exists in E2 as (r & Hr & Hh).
    apply andb_true_iff in Hh as [Hne Hh]. apply holds_true in Hh.
    apply negb_true_iff, Z.eqb_neq in Hne. apply idx9_spec in Hr.
    exfalso. exact (H2 r Hr Hne Hh). }
  cbv zeta.
  destruct (existsb _ [row / 3 * 3; _; _]) eqn:E3.
  { split; [discriminate|]. intros (_ & _ & H3).
    apply existsb_exists in E3 as (r & Hr & Hh).
    apply existsb_exists in Hh as (c & Hc & Hh).
    apply andb_true_iff in Hh as [Hne Hh]. apply holds_true in Hh.
    apply box_spec in Hr. apply box_spec in Hc.
    exfalso. refine (H3 r c Hr Hc _ Hh).
    apply orb_true_iff in Hne as [Hne|Hne];
      apply negb_true_iff, Z.eqb_neq in Hne; tauto. }
  split; [intros _ | reflexivity].
  rewrite existsb_false in E1, E2, E3. split; [|split].
  - intros c Hc Hne. apply holds_false.
    specialize (E1 c (proj2 (idx9_spec c) Hc)).
    apply andb_false_iff in E1 as [E1|E1]; [|exact E1].
    apply negb_false_iff, Z.eqb_eq in E1. contradiction.
  - intros r Hr Hne. apply holds_false.
    specialize (E2 r (proj2 (idx9_spec r) Hr)).
    apply andb_false_iff in E2 as [E2|E2]; [|exact E2].
    apply negb_false_iff, Z.eqb_eq in E2. contradiction.
  - intros r c Hr Hc Hne. apply holds_false.
    specialize (E3 r (proj2 (box_spec row r) Hr)).
    rewrite existsb_false in E3.
    specialize (E3 c (proj2 (box_spec col c) Hc)).
    apply andb_false_iff in E3 as [E3|E3]; [|exact E3].
    apply orb_false_iff in E3 as [Ea Eb].
    apply negb_false_iff, Z.eqb_eq in Ea. apply negb_false_iff, Z.eqb_eq in Eb.
    lia.
Qed.

(** On a 9x9 grid the three loops cover exactly the peers of the cell. *)
Lemma isValidPlacement_peers (g : Grid) (row col num : Z) :
  grid9 g →
  (isValidPlacement g row col num = true ↔
   ∀ r c, peer row col r c → cellAt g r c ≠ JNum num).
Proof.
  intros Hg. rewrite isValidPlacement_loops. split.
  - intros (H1 & H2 & H3) r c [Hne Hp].
    destruct (decide (inRange r ∧ inRange c)) as [[Hr Hc]|Hout].
    + destruct Hp as [->|[->|[Hbr Hbc]]].
      * apply H1; [exact Hc | congruence].
      * apply H2; [exact Hr | congruence].
      * apply H3; [exact Hbr | exact Hbc |].
        destruct (decide (r = row)) as [->|]; [|tauto].
        right. congruence.
    + rewrite cellAt_out_of_range; [discriminate | exact Hg |].
      unfold inRange in *. lia.
  - intros H. split; [|split].
    + intros c _ Hne. apply H. split; [congruence | tauto].
    + intros r _ Hne. apply H. split; [congruence | tauto].
    + intros r c Hbr Hbc Hne. apply H. split; [|tauto].
      intros [= -> ->]. tauto.
Qed.

Lemma getCandidates_not_null (g : Grid) (row col : Z) :
  cellAt g row col ≠ JNull → getCandidates g row col = [].
Proof. unfold getCandidates. destruct (cellAt g row col); congruence. Qed.


(** ** Stores *)

Lemma cloneGrid_id (g : Grid) : cloneGrid g = g.
Proof.
  unfold cloneGrid. rewrite <- (map_id g) at 2.
  apply map_ext. intros row. apply map_id.
Qed.

Lemma cellAt_setCell_eq (g : Grid) (r c : Z) (v : Cell) :
  cellAt g r c ≠ JUndefined → cellAt (setCell g r c v) r c = cellOf v.
Proof.
  unfold cellAt, setCell. intros H.
  destruct (jsIndex g r) as [rowArr|] eqn:Er; [|congruence].
  destruct (jsIndex rowArr c) as [x|] eqn:Ec; [|congruence].
  apply jsIndex_Some in Er as [Hr Er]. apply jsIndex_Some in Ec as [Hc Ec].
  destruct (Z.ltb_spec c 0); [lia|].
  assert (E1 : jsIndex (<[Z.to_nat r := <[Z.to_nat c := v]> rowArr]> g) r
               = Some (<[Z.to_nat c := v]> rowArr)).
  { apply jsIndex_Some. split; [lia|].
    apply list_lookup_insert_eq. eapply lookup_lt_Some, Er. }
  rewrite E1.
  assert (E2 : jsIndex (<[Z.to_nat c := v]> rowArr) c = Some v).
  { apply jsIndex_Some. split; [lia|].
    apply list_lookup_insert_eq. eapply lookup_lt_Some, Ec. }
  rewrite E2. destruct v; reflexivity.
Qed.

Lemma jsIndex_insert_ne {A : Type} (l : list A) (i j : Z) (x : A) :
  j ≠ i → 0 <= i → jsIndex (<[Z.to_nat i := x]> l) j = jsIndex l j.
Proof.
  intros Hne Hi. unfold jsIndex. destruct (Z.ltb_spec j 0); [reflexivity|].
  apply list_lookup_insert_ne. intros E. apply Z2Nat.inj in E; lia.
Qed.

Lemma cellAt_setCell_ne (g : Grid) (r c r' c' : Z) (v : Cell) :
  (r', c') ≠ (r, c) → cellAt (setCell g r c v) r' c' = cellAt g r' c'.
Proof.
  intros Hne. unfold setCell.
  destruct (jsIndex g r) as [rowArr|] eqn:Er; [|reflexivity].
  destruct (Z.ltb_spec c 0); [reflexivity|].
  pose proof Er as Er'. apply jsIndex_Some in Er' as [Hr Er'].
  unfold cellAt.
  destruct (decide (r' = r)) as [->|Hrr].
  - assert (E1 : jsIndex (<[Z.to_nat r := <[Z.to_nat c := v]> rowArr]> g) r
                 = Some (<[Z.to_nat c := v]> rowArr)).
    { apply jsIndex_Some. split; [lia|].
      apply list_lookup_insert_eq. eapply lookup_lt_Some, Er'. }
    rewrite E1, Er. rewrite jsIndex_insert_ne; [reflexivity| |lia].
    congruence.
  - rewrite jsIndex_insert_ne; [reflexivity | exact Hrr | lia].
Qed.

Lemma grid9_setCell (g : Grid) (r c : Z) (v : Cell) :
  grid9 g → grid9 (setCell g r c v).
Proof.
  intros [Hl Hrows]. unfold setCell.
  destruct (jsIndex g r) as [rowArr|] eqn:Er; [|split; assumption].
  destruct (Z.ltb_spec c 0); [split; assumption|].
  apply jsIndex_Some in Er as [Hr Er].
  split; [rewrite length_insert; exact Hl|].
  apply Forall_insert; [exact Hrows|].
  rewrite length_insert. exact (Forall_lookup_1 _ _ _ _ Hrows Er).
Qed.

Lemma grid9_createEmptyGrid : grid9 createEmptyGrid.
Proof. split; [reflexivity|]. repeat constructor. Qed.

Lemma grid9b_spec (g : Grid) : grid9b g = true ↔ grid9 g.
Proof.
  unfold grid9b, grid9. rewrite andb_true_iff, Nat.eqb_eq, forallb_forall.
  rewrite Forall_forall. setoid_rewrite Nat.eqb_eq. reflexivity.
Qed.

(** A 9x9 grid is determined by its 81 cells. *)
Lemma row_ext (l l' : list Cell) :
  length l = length l' →
  (∀ i x, l !! i = Some x → l' !! i = Some x) → l = l'.
Proof.
  intros Hlen H. apply list_eq. intros i.
  destruct (l !! i) as [x|] eqn:E.
  - symmetry. apply H, E.
  - apply lookup_ge_None in E. symmetry. apply lookup_ge_None. lia.
Qed.

Lemma grid_ext (g g' : Grid) :
  grid9 g → grid9 g' →
  (∀ r c, inRange r → inRange c → cellAt g r c = cellAt g' r c) → g = g'.
Proof.
  intros Hg Hg' H. apply list_eq_same_length with 9%nat;
    [apply Hg' | apply Hg |].
  intros i rowArr rowArr' Hi E E'.
  assert (Hr : inRange (Z.of_nat i)) by (unfold inRange; lia).
  destruct Hg as [_ Hrows], Hg' as [_ Hrows'].
  pose proof (Forall_lookup_1 _ _ _ _ Hrows E) as Hlen.
  pose proof (Forall_lookup_1 _ _ _ _ Hrows' E') as Hlen'.
  apply list_eq_same_length with 9%nat; [exact Hlen' | exact Hlen |].
  intros j x x' Hj Ex Ex'.
  assert (Hc : inRange (Z.of_nat j)) by (unfold inRange; lia).
  specialize (H _ _ Hr Hc). unfold cellAt, jsIndex in H.
  destruct (Z.ltb_spec (Z.of_nat i) 0); [lia|].
  destruct (Z.ltb_spec (Z.of_nat j) 0); [lia|].
  rewrite !Nat2Z.id, E, E', Ex, Ex' in H.
  destruct x, x'; congruence.
Qed.

Lemma cellAt_cases (g : Grid) (r c : Z) :
  grid9 g → inRange r → inRange c →
  cellAt g r c = JNull ∨ ∃ n, cellAt g r c = JNum n.
Proof.
  intros Hg Hr Hc. pose proof (cellAt_in_range g r c Hg Hr Hc).
  destruct (cellAt g r c); [congruence | tauto | eauto].
Qed.

(** Writing back what a cell held restores the grid. *)
Lemma setCell_restore (g : Grid) (r c : Z) (v w : Cell) :
  grid9 g → inRange r → inRange c →
  cellAt g r c = cellOf w → setCell (setCell g r c v) r c w = g.
Proof.
  intros Hg Hr Hc Hw. apply grid_ext; [do 2 apply grid9_setCell| |]; try assumption.
  intros r' c' Hr' Hc'. destruct (decide ((r', c') = (r, c))) as [[= -> ->]|Hne].
  - rewrite cellAt_setCell_eq, Hw; [reflexivity|].
    apply cellAt_in_range; [apply grid9_setCell| |]; assumption.
  - rewrite !cellAt_setCell_ne by assumption. reflexivity.
Qed.

Lemma cells_spec (r c : Z) : In (r, c) cells ↔ inRange r ∧ inRange c.
Proof.
  unfold cells, inRange. split.
  - intros H. apply list_elem_of_In in H. vm_compute in H.
    repeat (apply elem_of_cons in H as [[= -> ->]|H]; [lia|]).
    apply elem_of_nil in H. destruct H.
  - intros [Hr Hc].
    assert (Hr' : In r idx9) by (apply idx9_spec; exact Hr).
    assert (Hc' : In c idx9) by (apply idx9_spec; exact Hc).
    apply list_elem_of_In, list_elem_of_bind. exists r.
    split; [|apply list_elem_of_In; exact Hr'].
    apply list_elem_of_bind. exists c.
    split; [apply list_elem_of_singleton; reflexivity | apply list_elem_of_In; exact Hc'].
Qed.

Lemma NoDup_cells : List.NoDup cells.
Proof. apply NoDup_ListNoDup. refine (bool_decide_unpack _ _). vm_compute. exact I. Qed.


(** ** The backtracking search *)

Lemma firstEmpty_Some (g : Grid) (row col : Z) :
  firstEmpty g = Some (row, col) →
  inRange row ∧ inRange col ∧ cellAt g row col = JNull.
Proof.
  intros H. apply find_some in H as [Hin Hnull].
  apply cells_spec in Hin as [Hr Hc]. split; [exact Hr | split; [exact Hc|]].
  cbv beta iota in Hnull. destruct (cellAt g row col); [discriminate | reflexivity | discriminate].
Qed.

Lemma firstEmpty_None (g : Grid) :
  firstEmpty g = None →
  ∀ r c, inRange r → inRange c → cellAt g r c ≠ JNull.
Proof.
  intros H r c Hr Hc E.
  pose proof (find_none _ _ H (r, c) (proj2 (cells_spec r c) (conj Hr Hc))) as Hn.
  cbv beta iota in Hn. rewrite E in Hn. discriminate.
Qed.

Lemma filter_length_flip {A : Type} `{EqDecision A} (p q : A → bool) (l : list A) (x : A) :
  List.NoDup l → In x l → p x = true → q x = false →
  (∀ y, y ≠ x → p y = q y) →
  length (List.filter p l) = S (length (List.filter q l)).
Proof.
  intros Hnd Hin Hp Hq Hpq. induction l as [|a l IH]; [destruct Hin|].
  inversion Hnd as [|? ? Hna Hnd']; subst.
  destruct (decide (a = x)) as [->|Hne].
  - simpl. rewrite Hp, Hq. simpl. f_equal. f_equal.
    apply filter_ext_in. intros y Hy. apply Hpq. intros ->. contradiction.
  - destruct Hin as [->|Hin]; [congruence|].
    simpl. rewrite (Hpq a Hne). destruct (q a); simpl; rewrite IH; auto.
Qed.

Lemma countEmpty_fill (g : Grid) (row col n : Z) :
  inRange row → inRange col → cellAt g row col = JNull →
  countEmpty g = S (countEmpty (setCell g row col (Some n))).
Proof.
  intros Hr Hc Hnull. unfold countEmpty.
  apply (filter_length_flip _ _ cells (row, col)).
  - exact NoDup_cells.
  - apply cells_spec. tauto.
  - cbv beta iota. rewrite Hnull. reflexivity.
  - cbv beta iota. rewrite cellAt_setCell_eq by congruence. reflexivity.
  - intros [r c] Hne. cbv beta iota. rewrite cellAt_setCell_ne by exact Hne.
    reflexivity.
Qed.

Lemma firstOf_app (g : Grid) (l1 l2 : list Grid) :
  firstOf g (l1 ++ l2) =
  match l1 with [] => firstOf g l2 | s :: _ => (true, s) end.
Proof. destruct l1; reflexivity. Qed.

Section DigitLoopSpec.
Variable recur : Grid → option (bool * Grid).
Variable sols : Grid → list Grid.
Variables (g : Grid) (row col : Z).
Hypothesis Hg : grid9 g.
Hypothesis Hrow : inRange row.
Hypothesis Hcol : inRange col.
Hypothesis Hnull : cellAt g row col = JNull.
Hypothesis Hrecur : ∀ num,
  let g' := setCell g row col (Some num) in
  recur g' = Some (firstOf g' (sols g')).

Lemma tryDigits_spec (nums : list Z) :
  tryDigits recur row col nums g =
  Some (firstOf g (num ← nums;
                   if isValidPlacement g row col num
                   then sols (setCell g row col (Some num)) else [])).
Proof.
  induction nums as [|num nums IH]; [reflexivity|].
  cbn [tryDigits]. change ((num :: nums) ≫= ?f) with (f num ++ (nums ≫= f)).
  rewrite firstOf_app.
  destruct (isValidPlacement g row col num); [|exact IH].
  rewrite Hrecur. cbv zeta.
  destruct (sols (setCell g row col (Some num))) as [|s ss]; cbn [firstOf].
  - rewrite setCell_restore by assumption. exact IH.
  - reflexivity.
Qed.
End DigitLoopSpec.

Lemma solveInPlace_spec (depth : nat) (g : Grid) :
  grid9 g → (countEmpty g < depth)%nat →
  solveInPlace depth g = Some (firstOf g (solutions depth g)).
Proof.
  revert g. induction depth as [|depth IH]; intros g Hg Hlt; [lia|].
  cbn [solveInPlace solutions].
  destruct (firstEmpty g) as [[row col]|] eqn:E; [|reflexivity].
  apply firstEmpty_Some in E as (Hr & Hc & Hnull).
  apply tryDigits_spec; try assumption.
  intros num g'. apply IH; [apply grid9_setCell, Hg|].
  subst g'. rewrite (countEmpty_fill g row col num) in Hlt by assumption. lia.
Qed.

Lemma tally_app {A : Type} (maxCount : Z) (l1 l2 : list A) (count : Z) :
  tally maxCount (l1 ++ l2) count =
  if (tally maxCount l1 count).1 then tally maxCount l1 count
  else tally maxCount l2 (tally maxCount l1 count).2.
Proof.
  revert count. induction l1 as [|x l1 IH]; intros count; [reflexivity|].
  cbn [tally app]. destruct (count + 1 >=? maxCount); [reflexivity|]. apply IH.
Qed.

Section CountLoopSpec.
Variable maxCount : Z.
Variable recur : Z * Grid → option (bool * (Z * Grid)).
Variable sols : Grid → list Grid.
Variables (g : Grid) (row col : Z).
Hypothesis Hg : grid9 g.
Hypothesis Hrow : inRange row.
Hypothesis Hcol : inRange col.
Hypothesis Hnull : cellAt g row col = JNull.
Hypothesis Hrecur : ∀ num count,
  let g' := setCell g row col (Some num) in
  recur (count, g') =
  Some ((tally maxCount (sols g') count).1, ((tally maxCount (sols g') count).2, g')).

Lemma tryDigitsCount_spec (nums : list Z) (count : Z) :
  let found := num ← nums;
               if isValidPlacement g row col num
               then sols (setCell g row col (Some num)) else [] in
  tryDigitsCount recur row col nums (count, g) =
  Some ((tally maxCount found count).1, ((tally maxCount found count).2, g)).
Proof.
  revert count. induction nums as [|num nums IH]; intros count; [reflexivity|].
  cbv zeta in *. cbn [tryDigitsCount fst snd].
  change ((num :: nums) ≫= ?f) with (f num ++ (nums ≫= f)).
  rewrite tally_app.
  destruct (isValidPlacement g row col num); [|apply IH].
  rewrite Hrecur. cbv zeta. cbn [fst snd].
  rewrite setCell_restore by assumption.
  destruct (tally maxCount (sols (setCell g row col (Some num))) count) as [b c].
  cbn [fst snd]. destruct b; [reflexivity | apply IH].
Qed.
End CountLoopSpec.

Lemma backtrack_spec (maxCount : Z) (depth : nat) (g : Grid) (count : Z) :
  grid9 g → (countEmpty g < depth)%nat →
  backtrack maxCount depth (count, g) =
  Some ((tally maxCount (solutions depth g) count).1,
        ((tally maxCount (solutions depth g) count).2, g)).
Proof.
  revert g count. induction depth as [|depth IH]; intros g count Hg Hlt; [lia|].
  cbn [backtrack solutions fst snd].
  destruct (firstEmpty g) as [[row col]|] eqn:E;
    [|cbn [tally]; destruct (count + 1 >=? maxCount); reflexivity].
  apply firstEmpty_Some in E as (Hr & Hc & Hnull).
  apply (tryDigitsCount_spec maxCount _ (solutions depth)); try assumption.
  intros num count' g'. apply IH; [apply grid9_setCell, Hg|].
  subst g'. rewrite (countEmpty_fill g row col num) in Hlt by assumption. lia.
Qed.

Lemma tally_two {A : Type} (sols : list A) :
  tally 2 sols 0 = (2 <=? Z.of_nat (length sols), Z.min 2 (Z.of_nat (length sols))).
Proof. destruct sols as [|a [|b sols]]; try reflexivity. cbn [tally length]. 
  change (0 + 1 >=? 2) with false. change (0 + 1 + 1 >=? 2) with true. cbv iota.
  f_equal; [symmetry; apply Z.leb_le; lia | lia].
Qed.

Lemma countSolutions_spec (g : Grid) :
  grid9 g →
  countSolutions g 2 =
  Some (Z.min 2 (Z.of_nat (length (solutions (S (countEmpty g)) g)))).
Proof.
  intros Hg. unfold countSolutions. rewrite cloneGrid_id.
  rewrite backtrack_spec by (auto; lia).
  unfold mbind, option_bind. cbv beta iota. cbn [fst snd].
  rewrite tally_two. reflexivity.
Qed.

Lemma solve_spec (g : Grid) :
  grid9 g →
  solve g = Some (head (solutions (S (countEmpty g)) g)).
Proof.
  intros Hg. unfold solve. rewrite cloneGrid_id.
  rewrite solveInPlace_spec by (auto; lia).
  unfold mbind, option_bind. cbv beta iota.
  destruct (solutions _ g); reflexivity.
Qed.


(** ** The filled states of the search are the solutions *)

Lemma peer_sym (row col r c : Z) : peer row col r c → peer r c row col.
Proof.
  unfold peer. intros [Hne H]. split; [congruence|].
  destruct H as [->|[->|[H1 H2]]]; auto.
Qed.

Lemma isSolved_spec (g : Grid) :
  isSolved g = true ↔
  ∀ r c, inRange r → inRange c →
    ∃ n, cellAt g r c = JNum n ∧ isValidPlacement g r c n = true.
Proof.
  unfold isSolved. rewrite forallb_forall. split.
  - intros H r c Hr Hc.
    specialize (H r (proj2 (idx9_spec r) Hr)). rewrite forallb_forall in H.
    specialize (H c (proj2 (idx9_spec c) Hc)).
    destruct (cellAt g r c) as [| |n]; try discriminate. eauto.
  - intros H r Hr. apply forallb_forall. intros c Hc.
    apply idx9_spec in Hr. apply idx9_spec in Hc.
    destruct (H r c Hr Hc) as (n & -> & Hv). exact Hv.
Qed.

Lemma consistent_fill (g : Grid) (row col num : Z) :
  grid9 g → consistent g → inRange row → inRange col →
  cellAt g row col = JNull → isValidPlacement g row col num = true →
  consistent (setCell g row col (Some num)).
Proof.
  intros Hg Hcons Hr Hc Hnull Hv r c n Hr' Hc' Hcell.
  pose proof (grid9_setCell g row col (Some num) Hg) as Hg'.
  rewrite isValidPlacement_peers in Hv by exact Hg.
  apply isValidPlacement_peers; [exact Hg'|].
  intros r' c' Hp.
  destruct (decide ((r, c) = (row, col))) as [[= -> ->]|Hne].
  - rewrite cellAt_setCell_eq in Hcell by congruence. injection Hcell as <-.
    rewrite cellAt_setCell_ne by apply Hp. apply Hv, Hp.
  - rewrite cellAt_setCell_ne in Hcell by exact Hne.
    pose proof (Hcons r c n Hr' Hc' Hcell) as Hvn.
    rewrite isValidPlacement_peers in Hvn by exact Hg.
    destruct (decide ((r', c') = (row, col))) as [[= -> ->]|Hne'].
    + rewrite cellAt_setCell_eq by congruence. cbn. intros [= ->].
      exact (Hv r c (peer_sym _ _ _ _ Hp) Hcell).
    + rewrite cellAt_setCell_ne by exact Hne'. apply Hvn, Hp.
Qed.

Lemma completes_step (g s : Grid) (row col : Z) :
  grid9 g → inRange row → inRange col → cellAt g row col = JNull →
  (completes g s ↔
   ∃ num, In num digits ∧ isValidPlacement g row col num = true ∧
          completes (setCell g row col (Some num)) s).
Proof.
  intros Hg Hr Hc Hnull. split.
  - intros (Hs & Hsolved & Hext).
    pose proof (Hext row col Hr Hc) as Hcell. rewrite Hnull in Hcell.
    destruct Hcell as (d & Hd & Hcell). exists d.
    split; [apply digits_spec, Hd|]. split.
    + apply isValidPlacement_peers; [exact Hg|]. intros r c Hp Hgc.
      destruct (decide (inRange r ∧ inRange c)) as [[Hr' Hc']|Hout].
      * pose proof (Hext r c Hr' Hc') as Hsc. rewrite Hgc in Hsc.
        rewrite isSolved_spec in Hsolved.
        destruct (Hsolved row col Hr Hc) as (n & Hn & Hv).
        rewrite Hcell in Hn. injection Hn as <-.
        rewrite isValidPlacement_peers in Hv by exact Hs.
        exact (Hv r c Hp Hsc).
      * rewrite cellAt_out_of_range in Hgc; [discriminate | exact Hg |].
        unfold inRange in *. lia.
    + split; [exact Hs|]. split; [exact Hsolved|].
      intros r c Hr' Hc'.
      destruct (decide ((r, c) = (row, col))) as [[= -> ->]|Hne].
      * rewrite cellAt_setCell_eq by congruence. exact Hcell.
      * rewrite cellAt_setCell_ne by exact Hne. apply Hext; assumption.
  - intros (num & Hnum & Hv & Hs & Hsolved & Hext).
    split; [exact Hs|]. split; [exact Hsolved|].
    intros r c Hr' Hc'. specialize (Hext r c Hr' Hc').
    destruct (decide ((r, c) = (row, col))) as [[= -> ->]|Hne].
    + rewrite cellAt_setCell_eq in Hext by congruence. rewrite Hnull.
      exists num. split; [apply digits_spec, Hnum | exact Hext].
    + rewrite cellAt_setCell_ne in Hext by exact Hne. exact Hext.
Qed.

Lemma completes_full (g s : Grid) :
  grid9 g → consistent g →
  (∀ r c, inRange r → inRange c → cellAt g r c ≠ JNull) →
  (completes g s ↔ s = g).
Proof.
  intros Hg Hcons Hfull.
  assert (Hnum : ∀ r c, inRange r → inRange c → ∃ n, cellAt g r c = JNum n).
  { intros r c Hr Hc.
    destruct (cellAt_cases g r c Hg Hr Hc) as [E|E]; [|exact E].
    destruct (Hfull r c Hr Hc E). }
  split.
  - intros (Hs & _ & Hext). apply grid_ext; [exact Hs | exact Hg |].
    intros r c Hr Hc. destruct (Hnum r c Hr Hc) as [n Hn].
    specialize (Hext r c Hr Hc). rewrite Hn in Hext. congruence.
  - intros ->. split; [exact Hg|]. split.
    + apply isSolved_spec. intros r c Hr Hc.
      destruct (Hnum r c Hr Hc) as [n Hn]. exists n. split; [exact Hn|].
      exact (Hcons r c n Hr Hc Hn).
    + intros r c Hr Hc. destruct (Hnum r c Hr Hc) as [n Hn].
      rewrite Hn. reflexivity.
Qed.

Lemma solutions_sound_complete (depth : nat) (g s : Grid) :
  grid9 g → consistent g → (countEmpty g < depth)%nat →
  (s ∈ solutions depth g ↔ completes g s).
Proof.
  revert g. induction depth as [|depth IH]; intros g Hg Hcons Hlt; [lia|].
  cbn [solutions]. destruct (firstEmpty g) as [[row col]|] eqn:E.
  - apply firstEmpty_Some in E as (Hr & Hc & Hnull).
    rewrite (completes_step g s row col) by assumption.
    rewrite list_elem_of_bind. split.
    + intros (num & Hin & Hnum). exists num.
      apply list_elem_of_In in Hnum. split; [exact Hnum|].
      destruct (isValidPlacement g row col num) eqn:Hv;
        [|apply elem_of_nil in Hin; destruct Hin].
      split; [reflexivity|].
      apply IH in Hin; [exact Hin | apply grid9_setCell, Hg | |].
      * apply consistent_fill; assumption.
      * rewrite (countEmpty_fill g row col num) in Hlt by assumption. lia.
    + intros (num & Hnum & Hv & Hcomp). exists num.
      split; [|apply list_elem_of_In, Hnum]. rewrite Hv.
      apply IH; [apply grid9_setCell, Hg | | | exact Hcomp].
      * apply consistent_fill; assumption.
      * rewrite (countEmpty_fill g row col num) in Hlt by assumption. lia.
  - rewrite list_elem_of_singleton.
    symmetry. apply completes_full; [exact Hg | exact Hcons |].
    apply firstEmpty_None, E.
Qed.

Lemma solutions_NoDup (depth : nat) (g : Grid) :
  grid9 g → consistent g → (countEmpty g < depth)%nat →
  NoDup (solutions depth g).
Proof.
  revert g. induction depth as [|depth IH]; intros g Hg Hcons Hlt; [lia|].
  cbn [solutions]. destruct (firstEmpty g) as [[row col]|] eqn:E;
    [|apply NoDup_singleton].
  apply firstEmpty_Some in E as (Hr & Hc & Hnull).
  assert (Hlt' : ∀ num, (countEmpty (setCell g row col (Some num)) < depth)%nat).
  { intros num. rewrite (countEmpty_fill g row col num) in Hlt by assumption. lia. }
  apply NoDup_bind.
  - intros n1 n2 s _ _ H1 H2.
    destruct (isValidPlacement g row col n1) eqn:Hv1;
      [|apply elem_of_nil in H1; destruct H1].
    destruct (isValidPlacement g row col n2) eqn:Hv2;
      [|apply elem_of_nil in H2; destruct H2].
    apply solutions_sound_complete in H1 as (_ & _ & H1);
      [|apply grid9_setCell, Hg | apply consistent_fill; assumption | apply Hlt'].
    apply solutions_sound_complete in H2 as (_ & _ & H2);
      [|apply grid9_setCell, Hg | apply consistent_fill; assumption | apply Hlt'].
    specialize (H1 row col Hr Hc). specialize (H2 row col Hr Hc).
    rewrite cellAt_setCell_eq in H1, H2 by congruence. cbn in H1, H2. congruence.
  - intros num _. destruct (isValidPlacement g row col num) eqn:Hv;
      [|apply NoDup_nil_2].
    apply IH; [apply grid9_setCell, Hg | apply consistent_fill; assumption | apply Hlt'].
  - apply NoDup_ListNoDup. repeat constructor; simpl; lia.
Qed.


(** ** Naked and hidden singles only fill empty cells *)

Lemma fillsFrom_refl (st : bool * Grid) : fillsFrom st st.
Proof. split; [lia | tauto]. Qed.

Lemma fillsFrom_trans (a b c : bool * Grid) :
  fillsFrom a b → fillsFrom b c → fillsFrom a c.
Proof. intros [H1 H2] [H3 H4]. split; [lia|]. intros H. destruct (H4 H); [destruct (H2 H0)|]; [tauto|right; lia|right; lia]. Qed.

Lemma fold_left_invariant {A B : Type} (R : A → A → Prop) (f : A → B → A)
    (l : list B) (a : A) :
  (∀ x, R x x) → (∀ x y z, R x y → R y z → R x z) →
  (∀ x b, In b l → R x (f x b)) → R a (fold_left f l a).
Proof.
  intros Hrefl Htrans. revert a. induction l as [|b l IH]; intros a Hstep; [apply Hrefl|].
  cbn [fold_left]. eapply Htrans; [apply Hstep; left; reflexivity|].
  apply IH. intros x b' Hb'. apply Hstep. right. exact Hb'.
Qed.

Lemma fillsFrom_store (changed : bool) (g : Grid) (row col n : Z) :
  inRange row → inRange col → cellAt g row col = JNull →
  fillsFrom (changed, g) (true, setCell g row col (Some n)).
Proof.
  intros Hr Hc Hnull. unfold fillsFrom. cbn [fst snd].
  rewrite (countEmpty_fill g row col n) by assumption. split; [lia | right; lia].
Qed.

Lemma nakedSingle_fills (st : bool * Grid) (cell : Z * Z) :
  In cell cells → fillsFrom st (nakedSingle st cell).
Proof.
  destruct st as [changed g], cell as [row col]. intros Hin.
  apply cells_spec in Hin as [Hr Hc]. unfold nakedSingle.
  destruct (cellAt g row col) eqn:E; cbn [isNull]; try apply fillsFrom_refl.
  destruct (getCandidates g row col) as [|cand [|? ?]]; try apply fillsFrom_refl.
  apply fillsFrom_store; assumption.
Qed.

Lemma applyNakedSingles_fills (g : Grid) :
  fillsFrom (false, g) (applyNakedSingles g).
Proof.
  unfold applyNakedSingles.
  apply fold_left_invariant;
    [apply fillsFrom_refl | apply fillsFrom_trans | intros; apply nakedSingle_fills; assumption].
Qed.

Lemma units_in_range (unit : list (Z * Z)) (row col : Z) :
  In unit units → In (row, col) unit → inRange row ∧ inRange col.
Proof.
  intros Hu Hc.
  assert (H : forallb (λ u, forallb (λ '(r, c),
                (0 <=? r) && (r <? 9) && (0 <=? c) && (c <? 9)) u) units = true)
    by (vm_compute; reflexivity).
  rewrite forallb_forall in H. specialize (H unit Hu).
  rewrite forallb_forall in H. specialize (H (row, col) Hc). cbv beta iota in H.
  unfold inRange. lia.
Qed.

Lemma hiddenSingle_fills (unit : list (Z * Z)) (st : bool * Grid) (num : Z) :
  In unit units → fillsFrom st (hiddenSingle unit st num).
Proof.
  intros Hu. unfold hiddenSingle.
  destruct (List.filter _ unit) as [|[row col] [|? ?]] eqn:E; try apply fillsFrom_refl.
  assert (Hin : In (row, col) (List.filter (λ '(row, col),
            isNull (cellAt st.2 row col) && isValidPlacement st.2 row col num) unit))
    by (rewrite E; left; reflexivity).
  apply filter_In in Hin as [Hin Hp]. cbv beta iota in Hp.
  apply andb_true_iff in Hp as [Hnull _].
  destruct (units_in_range unit row col Hu Hin) as [Hr Hc].
  destruct st as [changed g]. cbn [snd] in *.
  apply fillsFrom_store; try assumption.
  destruct (cellAt g row col); cbn in Hnull; congruence.
Qed.

Lemma applyHiddenSingles_fills (g : Grid) :
  fillsFrom (false, g) (applyHiddenSingles g).
Proof.
  unfold applyHiddenSingles.
  apply fold_left_invariant; [apply fillsFrom_refl | apply fillsFrom_trans |].
  intros st unit Hu.
  apply fold_left_invariant; [apply fillsFrom_refl | apply fillsFrom_trans |].
  intros st' num _. apply hiddenSingle_fills, Hu.
Qed.

(** One round of the two techniques. *)
Lemma round_fills (g g1 g2 : Grid) (p1 p2 : bool) :
  applyNakedSingles g = (p1, g1) → applyHiddenSingles g1 = (p2, g2) →
  (countEmpty g2 <= countEmpty g)%nat ∧
  (p1 || p2 = true → (countEmpty g2 < countEmpty g)%nat).
Proof.
  intros E1 E2.
  pose proof (applyNakedSingles_fills g) as [H1 H2].
  pose proof (applyHiddenSingles_fills g1) as [H3 H4].
  rewrite E1 in H1, H2. rewrite E2 in H3, H4. cbn [fst snd] in *.
  split; [lia|]. intros Hp. apply orb_true_iff in Hp as [->| ->].
  - destruct (H2 eq_refl); [discriminate | lia].
  - destruct (H4 eq_refl); [discriminate | lia].
Qed.

Lemma deduce_total (rounds : nat) (g : Grid) :
  (countEmpty g < rounds)%nat → ∃ g', deduce rounds g = Some g'.
Proof.
  revert g. induction rounds as [|rounds IH]; intros g Hlt; [lia|].
  cbn [deduce].
  destruct (applyNakedSingles g) as [p1 g1] eqn:E1.
  destruct (applyHiddenSingles g1) as [p2 g2] eqn:E2.
  destruct (round_fills g g1 g2 p1 p2 E1 E2) as [Hle Hp].
  destruct (p1 || p2); [|eauto]. apply IH. specialize (Hp eq_refl). lia.
Qed.

Lemma canSolveWithBasicDeduction_total (g : Grid) :
  ∃ b, canSolveWithBasicDeduction g = Some b.
Proof.
  unfold canSolveWithBasicDeduction.
  destruct (deduce_total (S (countEmpty (cloneGrid g))) (cloneGrid g)) as [g' ->]; [lia|].
  cbn. eauto.
Qed.

Lemma leadsToContradiction_total (rounds : nat) (g : Grid) :
  (countEmpty g < rounds)%nat → ∃ b, leadsToContradiction rounds g = Some b.
Proof.
  revert g. induction rounds as [|rounds IH]; intros g Hlt; [lia|].
  cbn [leadsToContradiction].
  destruct (applyNakedSingles g) as [p1 g1] eqn:E1.
  pose proof (applyNakedSingles_fills g) as [H1 H2]. rewrite E1 in H1, H2.
  cbn [fst snd] in *.
  destruct p1.
  - destruct (hasContradiction g1); [eauto|]. apply IH.
    destruct (H2 eq_refl); [discriminate | lia].
  - destruct (applyHiddenSingles g1) as [p2 g2] eqn:E2.
    pose proof (applyHiddenSingles_fills g1) as [H3 H4]. rewrite E2 in H3, H4.
    cbn [fst snd] in *.
    destruct (hasContradiction g2); [eauto|]. destruct p2; [|eauto].
    apply IH. destruct (H4 eq_refl); [discriminate | lia].
Qed.

Lemma contradicts_total (g : Grid) (row col candidate : Z) :
  ∃ b, contradicts g row col candidate = Some b.
Proof. unfold contradicts. apply leadsToContradiction_total. lia. Qed.


(** ** Violations *)

Lemma getViolations_nil (g : Grid) : getViolations g = [] ↔ consistent g.
Proof.
  unfold getViolations, consistent. split.
  - intros H r c n Hr Hc Hcell.
    destruct (isValidPlacement g r c n) eqn:Hv; [reflexivity|].
    assert (Hin : In (r, c) (List.filter (λ '(row, col),
              match cellAt g row col with
              | JNum num => negb (isValidPlacement g row col num)
              | _ => false
              end) cells)).
    { apply filter_In. split; [apply cells_spec; tauto|].
      cbv beta iota. rewrite Hcell, Hv. reflexivity. }
    rewrite H in Hin. destruct Hin.
  - intros H. destruct (List.filter _ cells) as [|[r c] l] eqn:E; [reflexivity|].
    assert (Hin : In (r, c) (List.filter (λ '(row, col),
              match cellAt g row col with
              | JNum num => negb (isValidPlacement g row col num)
              | _ => false
              end) cells)) by (rewrite E; left; reflexivity).
    apply filter_In in Hin as [Hin Hp]. apply cells_spec in Hin as [Hr Hc].
    cbv beta iota in Hp. destruct (cellAt g r c) as [| |n] eqn:Hcell; try discriminate.
    rewrite (H r c n Hr Hc Hcell) in Hp. discriminate.
Qed.

Lemma getCandidates_two (g : Grid) (row col a b : Z) :
  getCandidates g row col = [a; b] → cellAt g row col = JNull ∧ a ≠ b.
Proof.
  unfold getCandidates. intros H.
  destruct (cellAt g row col); try discriminate. split; [reflexivity|].
  assert (Hnd : List.NoDup (List.filter (λ num, isValidPlacement g row col num) digits)).
  { apply List.NoDup_filter. repeat constructor; simpl; lia. }
  rewrite H in Hnd. inversion Hnd as [|? ? Hna _]; subst.
  intros ->. apply Hna. left. reflexivity.
Qed.


(** ** Sets of digits as bit masks *)

Lemma allb_forallb {A : Type} (f : A → bool) (l : list A) :
  allb f l = forallb f l.
Proof. induction l as [|x l IH]; [reflexivity|]. cbn. rewrite IH. destruct (f x); reflexivity. Qed.

Lemma anyb_existsb {A : Type} (f : A → bool) (l : list A) :
  anyb f l = existsb f l.
Proof. induction l as [|x l IH]; [reflexivity|]. cbn. rewrite IH. destruct (f x); reflexivity. Qed.

Lemma disj_land (a b : N) : disj a b = true ↔ N.land a b = 0%N.
Proof. unfold disj. destruct (N.land a b); split; congruence. Qed.

Lemma meets_disj (a b : N) : meets a b = negb (disj a b).
Proof. unfold meets, disj. destruct (N.land a b); reflexivity. Qed.

Lemma disj_sym (a b : N) : disj a b = disj b a.
Proof. unfold disj. rewrite N.land_comm. reflexivity. Qed.

Lemma disj_testbit (a b n : N) :
  disj a b = true → N.testbit a n = true → N.testbit b n = true → False.
Proof.
  intros H Ha Hb. apply disj_land in H.
  assert (E : N.testbit (N.land a b) n = true) by (rewrite N.land_spec, Ha, Hb; reflexivity).
  rewrite H, N.bits_0 in E. discriminate.
Qed.

Lemma disj_inMask (a b : N) (d : Z) :
  disj a b = true → inMask d a → inMask d b → False.
Proof. unfold inMask. apply disj_testbit. Qed.

Lemma meets_pick (a b : N) :
  meets a b = true →
  N.testbit a (N.log2 (N.land a b)) = true ∧
  N.testbit b (N.log2 (N.land a b)) = true.
Proof.
  intros H. rewrite meets_disj in H. apply negb_true_iff in H.
  assert (Hne : N.land a b ≠ 0%N).
  { intros E. apply disj_land in E. congruence. }
  pose proof (N.bit_log2 _ Hne) as Hb. rewrite N.land_spec in Hb.
  apply andb_true_iff in Hb. exact Hb.
Qed.

Lemma fullMask_testbit (n : N) :
  N.testbit fullMask n = true → (1 <= n <= 9)%N.
Proof.
  intros H. destruct (N.lt_ge_cases n 10) as [Hlt|Hge].
  - destruct (N.eq_dec n 0) as [->|Hn0]; [discriminate|]. lia.
  - rewrite N.bits_above_log2 in H; [discriminate|].
    change (N.log2 fullMask) with 9%N. lia.
Qed.

Lemma subFull_testbit (z n : N) :
  (N.lor z fullMask =? fullMask)%N = true →
  N.testbit z n = true → (1 <= n <= 9)%N.
Proof.
  intros H Hz. apply N.eqb_eq in H. apply fullMask_testbit.
  rewrite <- H, N.lor_spec, Hz. reflexivity.
Qed.

Lemma testbit_bit (d : Z) (n : N) :
  N.testbit (bit d) n = true ↔ n = Z.to_N d.
Proof.
  unfold bit. rewrite N.shiftl_1_l. split.
  - intros H. destruct (N.eq_dec n (Z.to_N d)) as [E|E]; [exact E|].
    rewrite N.pow2_bits_false in H by congruence. discriminate.
  - intros ->. apply N.pow2_bits_true.
Qed.

Lemma testbit_mask3 (x y z : Z) (n : N) :
  N.testbit (mask3 x y z) n = true ↔
  n = Z.to_N x ∨ n = Z.to_N y ∨ n = Z.to_N z.
Proof.
  unfold mask3. rewrite !N.lor_spec, !orb_true_iff, !testbit_bit. tauto.
Qed.

Lemma inMask_mask3 (d x y z : Z) :
  0 <= d → 0 <= x → 0 <= y → 0 <= z →
  (inMask d (mask3 x y z) ↔ d = x ∨ d = y ∨ d = z).
Proof.
  intros Hd Hx Hy Hz. unfold inMask. rewrite testbit_mask3.
  split; intros [H|[H|H]]; try (apply Z2N.inj in H; [|lia|lia]); subst; tauto.
Qed.

Lemma disj_mask3 (x y z x' y' z' : Z) :
  0 <= x → 0 <= y → 0 <= z → 0 <= x' → 0 <= y' → 0 <= z' →
  x ≠ x' → x ≠ y' → x ≠ z' → y ≠ x' → y ≠ y' → y ≠ z' →
  z ≠ x' → z ≠ y' → z ≠ z' →
  disj (mask3 x y z) (mask3 x' y' z') = true.
Proof.
  intros. apply disj_land. apply N.bits_inj_0. intros n.
  rewrite N.land_spec. apply andb_false_iff.
  destruct (N.testbit (mask3 x y z) n) eqn:E1; [|left; reflexivity].
  destruct (N.testbit (mask3 x' y' z') n) eqn:E2; [|right; reflexivity].
  exfalso. apply testbit_mask3 in E1. apply testbit_mask3 in E2.
  destruct E1 as [-> | [-> | ->]], E2 as [E | [E | E]];
    apply Z2N.inj in E; lia.
Qed.


(** ** Six links that fit give a solved grid *)

Lemma cellAt_gridOf (f : Z → Z → Z) (row col : Z) :
  inRange row → inRange col → cellAt (gridOf f) row col = JNum (f row col).
Proof.
  unfold inRange. intros Hr Hc.
  assert (Er : row = 0 ∨ row = 1 ∨ row = 2 ∨ row = 3 ∨ row = 4 ∨ row = 5 ∨
               row = 6 ∨ row = 7 ∨ row = 8) by lia.
  assert (Ec : col = 0 ∨ col = 1 ∨ col = 2 ∨ col = 3 ∨ col = 4 ∨ col = 5 ∨
               col = 6 ∨ col = 7 ∨ col = 8) by lia.
  destruct Er as [-> | [-> | [-> | [-> | [-> | [-> | [-> | [-> | ->]]]]]]]];
  destruct Ec as [-> | [-> | [-> | [-> | [-> | [-> | [-> | [-> | ->]]]]]]]];
  reflexivity.
Qed.

Lemma grid9_gridOf (f : Z → Z → Z) : grid9 (gridOf f).
Proof. split; [reflexivity|]. repeat constructor. Qed.

(** A 9x9 grid of digits in which peers differ is solved. *)
Lemma isSolved_gridOf (f : Z → Z → Z) :
  (∀ row col r c, inRange row → inRange col → inRange r → inRange c →
     peer row col r c → f r c ≠ f row col) →
  isSolved (gridOf f) = true.
Proof.
  intros H. apply isSolved_spec. intros row col Hr Hc.
  exists (f row col). split; [apply cellAt_gridOf; assumption|].
  apply isValidPlacement_peers; [apply grid9_gridOf|].
  intros r c Hp.
  destruct (decide (inRange r ∧ inRange c)) as [[Hr' Hc']|Hout].
  - rewrite cellAt_gridOf by assumption. intros [= E].
    exact (H row col r c Hr Hc Hr' Hc' Hp E).
  - rewrite cellAt_out_of_range; [discriminate | apply grid9_gridOf |].
    unfold inRange in *. lia.
Qed.

Lemma strandOk_comp (s : Strand) (k k' : Z) :
  strandOk s = true → 0 <= k < 3 → 0 <= k' < 3 → k ≠ k' →
  disj (comp s k) (comp s k') = true.
Proof.
  destruct s as [[a z] z']. unfold strandOk, comp, sel3. cbn [fst snd].
  rewrite !andb_true_iff. intros ((((H1 & H2) & H3) & _) & _) Hk Hk' Hne.
  assert (Ek : k = 0 ∨ k = 1 ∨ k = 2) by lia.
  assert (Ek' : k' = 0 ∨ k' = 1 ∨ k' = 2) by lia.
  destruct Ek as [-> | [-> | ->]], Ek' as [-> | [-> | ->]];
    try contradiction; cbn; try assumption; rewrite disj_sym; assumption.
Qed.

Lemma strandOk_range (s : Strand) (k : Z) (n : N) :
  strandOk s = true → 1 <= k < 3 → N.testbit (comp s k) n = true →
  (1 <= n <= 9)%N.
Proof.
  destruct s as [[a z] z']. unfold strandOk, comp, sel3. cbn [fst snd].
  rewrite !andb_true_iff. intros ((_ & Hz) & Hz') Hk.
  assert (Ek : k = 1 ∨ k = 2) by lia.
  destruct Ek as [-> | ->]; cbn; apply subFull_testbit; assumption.
Qed.

Lemma crossOk_comp (s t : Strand) (k : Z) :
  crossOk s t = true → disj (comp s k) (comp t k) = true.
Proof.
  destruct s as [[a z] z'], t as [[b y] y']. unfold crossOk, comp, sel3.
  cbn [fst snd]. rewrite !andb_true_iff. intros ((H1 & H2) & H3).
  destruct (k =? 0); [assumption|]. destruct (k =? 1); assumption.
Qed.

Lemma perm9_digitOf (p : list Z) (k : Z) :
  perm9 p → 0 <= k < 9 → 1 <= digitOf p k <= 9.
Proof.
  intros (Hlen & _ & Hrange) Hk. apply Hrange. unfold digitOf.
  apply nth_In. lia.
Qed.

Lemma perm9_digitOf_inj (p : list Z) (k k' : Z) :
  perm9 p → 0 <= k < 9 → 0 <= k' < 9 →
  digitOf p k = digitOf p k' → k = k'.
Proof.
  intros (Hlen & Hnd & _) Hk Hk' E. unfold digitOf in E.
  apply (proj1 (List.NoDup_nth p 0) Hnd) in E; lia.
Qed.

Section LayoutSolved.
Variable p : Z → list Z.
Variable bs ss : Z → Z → Strand.
Variable relabel : Z → Z.

Hypothesis Hp : ∀ i, 0 <= i < 3 → perm9 (p i).
Hypothesis Hbkey : ∀ i r, 0 <= i < 3 → 0 <= r < 3 →
  key (bs i r) = rowMask (p i) r.
Hypothesis Hskey : ∀ j c, 0 <= j < 3 → 0 <= c < 3 →
  key (ss j c) = colMask (p j) c.
Hypothesis Hbok : ∀ i r, 0 <= i < 3 → 0 <= r < 3 → strandOk (bs i r) = true.
Hypothesis Hsok : ∀ j c, 0 <= j < 3 → 0 <= c < 3 → strandOk (ss j c) = true.
Hypothesis Hbcross : ∀ i r r', 0 <= i < 3 → 0 <= r < 3 → 0 <= r' < 3 →
  r ≠ r' → crossOk (bs i r) (bs i r') = true.
Hypothesis Hscross : ∀ j c c', 0 <= j < 3 → 0 <= c < 3 → 0 <= c' < 3 →
  c ≠ c' → crossOk (ss j c) (ss j c') = true.
Hypothesis Hmeet : ∀ i j r c,
  0 <= i < 3 → 0 <= j < 3 → 0 <= r < 3 → 0 <= c < 3 → i ≠ j →
  meets (rowSet bs i j r) (colSet ss i j c) = true.
Hypothesis Hinj : ∀ x y, 1 <= x <= 9 → 1 <= y <= 9 →
  relabel x = relabel y → x = y.

(** Every cell holds a digit of its row set and of its column set. *)
Lemma digitAt_in_sets (row col : Z) :
  inRange row → inRange col →
  1 <= digitAt p bs ss row col <= 9 ∧
  inMask (digitAt p bs ss row col) (rowSet bs (row / 3) (col / 3) (row mod 3)) ∧
  inMask (digitAt p bs ss row col) (colSet ss (row / 3) (col / 3) (col mod 3)).
Proof.
  unfold inRange. intros Hr Hc.
  assert (Hi : 0 <= row / 3 < 3) by (Z.div_mod_to_equations; lia).
  assert (Hj : 0 <= col / 3 < 3) by (Z.div_mod_to_equations; lia).
  assert (Hr3 : 0 <= row mod 3 < 3) by (Z.div_mod_to_equations; lia).
  assert (Hc3 : 0 <= col mod 3 < 3) by (Z.div_mod_to_equations; lia).
  unfold digitAt. cbv zeta.
  set (i := row / 3) in *. set (j := col / 3) in *.
  set (r := row mod 3) in *. set (c := col mod 3) in *.
  destruct (Z.eqb_spec i j) as [<-|Hij].
  - pose proof (Hp i Hi) as Hpi.
    assert (Hd : ∀ k, 0 <= k < 9 → 0 <= digitOf (p i) k)
      by (intros k Hk; pose proof (perm9_digitOf _ k Hpi Hk); lia).
    split; [apply perm9_digitOf; [exact Hpi | lia]|].
    unfold rowSet, colSet. replace ((i - i) mod 3) with 0 by (rewrite Z.sub_diag; reflexivity).
    change (comp ?s 0) with (key s).
    rewrite Hbkey, Hskey by assumption. unfold rowMask, colMask. split.
    + apply inMask_mask3; try (apply Hd; lia).
      assert (Ec : c = 0 ∨ c = 1 ∨ c = 2) by lia.
      destruct Ec as [-> | [-> | ->]]; [left | right; left | right; right];
        f_equal; lia.
    + apply inMask_mask3; try (apply Hd; lia).
      assert (Er : r = 0 ∨ r = 1 ∨ r = 2) by lia.
      destruct Er as [-> | [-> | ->]]; [left | right; left | right; right];
        f_equal; lia.
  - pose proof (Hmeet i j r c Hi Hj Hr3 Hc3 Hij) as Hm.
    apply meets_pick in Hm as [H1 H2].
    set (n := N.log2 (N.land (rowSet bs i j r) (colSet ss i j c))) in *.
    unfold inMask. rewrite N2Z.id. split; [|split; assumption].
    assert (Hn : (1 <= n <= 9)%N).
    { apply (strandOk_range (bs i r) ((j - i) mod 3) n);
        [apply Hbok; assumption | | exact H1].
      Z.div_mod_to_equations. lia. }
    lia.
Qed.

Lemma digitAt_peers_differ (row col row' col' : Z) :
  inRange row → inRange col → inRange row' → inRange col' →
  peer row col row' col' →
  digitAt p bs ss row' col' ≠ digitAt p bs ss row col.
Proof.
  intros Hr Hc Hr' Hc' [Hne Hpeer] E.
  destruct (digitAt_in_sets row col Hr Hc) as (_ & HR & HC).
  destruct (digitAt_in_sets row' col' Hr' Hc') as (_ & HR' & HC').
  rewrite E in HR', HC'. unfold inRange in *.
  set (d := digitAt p bs ss row col) in *.
  assert (Hi : 0 <= row / 3 < 3) by (Z.div_mod_to_equations; lia).
  assert (Hj : 0 <= col / 3 < 3) by (Z.div_mod_to_equations; lia).
  assert (Hr3 : 0 <= row mod 3 < 3) by (Z.div_mod_to_equations; lia).
  assert (Hc3 : 0 <= col mod 3 < 3) by (Z.div_mod_to_equations; lia).
  assert (Hi' : 0 <= row' / 3 < 3) by (Z.div_mod_to_equations; lia).
  assert (Hj' : 0 <= col' / 3 < 3) by (Z.div_mod_to_equations; lia).
  assert (Hr3' : 0 <= row' mod 3 < 3) by (Z.div_mod_to_equations; lia).
  assert (Hc3' : 0 <= col' mod 3 < 3) by (Z.div_mod_to_equations; lia).
  destruct (decide (row' / 3 = row / 3 ∧ col' / 3 = col / 3)) as [[Ei Ej]|Hbox].
  - (* the same box *)
    rewrite Ei, Ej in HR', HC'.
    destruct (decide (row' mod 3 = row mod 3)) as [Er|Er].
    + assert (Ec : col' mod 3 ≠ col mod 3).
      { intros Ec. apply Hne. f_equal; Z.div_mod_to_equations; lia. }
      refine (disj_inMask _ _ d _ HC' HC). unfold colSet.
      apply crossOk_comp, Hscross; assumption.
    + refine (disj_inMask _ _ d _ HR' HR). unfold rowSet.
      apply crossOk_comp, Hbcross; assumption.
  - destruct Hpeer as [-> | [-> | [Ei Ej]]]; [| |tauto].
    + (* the same row, another box *)
      assert (Ej : col' / 3 ≠ col / 3) by tauto.
      refine (disj_inMask _ _ d _ HR' HR). unfold rowSet.
      apply strandOk_comp; [apply Hbok; assumption | | |];
        Z.div_mod_to_equations; lia.
    + (* the same column, another box *)
      assert (Ei : row' / 3 ≠ row / 3) by tauto.
      refine (disj_inMask _ _ d _ HC' HC). unfold colSet.
      apply strandOk_comp; [apply Hsok; assumption | | |];
        Z.div_mod_to_equations; lia.
Qed.

Lemma layoutGrid_solved :
  grid9 (layoutGrid p bs ss relabel) ∧
  isSolved (layoutGrid p bs ss relabel) = true.
Proof.
  split; [apply grid9_gridOf|]. apply isSolved_gridOf.
  intros row col r c Hr Hc Hr' Hc' Hpeer E.
  apply Hinj in E;
    [| apply digitAt_in_sets; assumption | apply digitAt_in_sets; assumption].
  exact (digitAt_peers_differ row col r c Hr Hc Hr' Hc' Hpeer E).
Qed.
End LayoutSolved.


(** ** Links and their strands *)

Lemma crossOk_sym (s t : Strand) : crossOk s t = crossOk t s.
Proof.
  destruct s as [[a z] z'], t as [[b y] y']. unfold crossOk.
  rewrite (disj_sym a b), (disj_sym z y), (disj_sym z' y'). reflexivity.
Qed.

Lemma meets_sym (a b : N) : meets a b = meets b a.
Proof. unfold meets. rewrite N.land_comm. reflexivity. Qed.

Lemma disj_self (a : N) : disj a a = true → a = 0%N.
Proof. intros H. apply disj_land in H. rewrite N.land_diag in H. exact H. Qed.

Lemma meetsAll_In (A B : list N) (a b : N) :
  meetsAll A B = true → In a A → In b B → meets a b = true.
Proof.
  unfold meetsAll. rewrite allb_forallb, forallb_forall. intros H Ha Hb.
  specialize (H a Ha). rewrite allb_forallb, forallb_forall in H. exact (H b Hb).
Qed.

Lemma comp1_In (w : list Strand) (s : Strand) : In s w → In (comp s 1) (comp1 w).
Proof. intros H. unfold comp1. apply in_map_iff. exists s. split; [reflexivity | exact H]. Qed.

Lemma comp2_In (w : list Strand) (s : Strand) : In s w → In (comp s 2) (comp2 w).
Proof. intros H. unfold comp2. apply in_map_iff. exists s. split; [reflexivity | exact H]. Qed.

Lemma fits_intro (w : list Strand) (L : N * N * N) (m : Z → N) :
  keysAre L w = true → linkOk w = true →
  (∀ r, 0 <= r < 3 → m r ≠ 0%N ∧ partOf (m r) L) →
  (∀ r r', 0 <= r < 3 → 0 <= r' < 3 → r ≠ r' → m r ≠ m r') →
  fits w m.
Proof.
  intros Hkeys Hok Hm Hdiff.
  destruct w as [|s0 [|s1 [|s2 [|? ?]]]]; try discriminate.
  destruct L as [[l0 l1] l2]. unfold keysAre in Hkeys. cbn [fst snd] in Hkeys.
  rewrite !andb_true_iff, !N.eqb_eq in Hkeys. destruct Hkeys as ((K0 & K1) & K2).
  unfold linkOk in Hok. rewrite !andb_true_iff in Hok.
  destruct Hok as (((((O0 & O1) & O2) & C01) & C02) & C12).
  assert (D01 : disj (key s0) (key s1) = true) by (apply (crossOk_comp s0 s1 0), C01).
  assert (D02 : disj (key s0) (key s2) = true) by (apply (crossOk_comp s0 s2 0), C02).
  assert (D12 : disj (key s1) (key s2) = true) by (apply (crossOk_comp s1 s2 0), C12).
  assert (Hlook : ∀ x, x ≠ 0%N → partOf x (l0, l1, l2) →
            (x = l0 ∧ lookupKey [s0; s1; s2] x = s0) ∨
            (x = l1 ∧ lookupKey [s0; s1; s2] x = s1) ∨
            (x = l2 ∧ lookupKey [s0; s1; s2] x = s2)).
  { intros x Hx Hpart. unfold lookupKey. cbn [List.find].
    unfold partOf in Hpart. cbn [fst snd] in Hpart.
    destruct (N.eqb_spec (key s0) x) as [E0|E0]; [left; split; congruence|].
    destruct (N.eqb_spec (key s1) x) as [E1|E1]; [right; left; split; congruence|].
    destruct (N.eqb_spec (key s2) x) as [E2|E2]; [right; right; split; congruence|].
    exfalso. destruct Hpart as [-> | [-> | ->]]; congruence. }
  split.
  - intros r Hr. destruct (Hm r Hr) as [Hne Hpart].
    destruct (Hlook (m r) Hne Hpart) as [[E ->] | [[E ->] | [E ->]]];
      (split; [cbn; tauto | split; [congruence | assumption]]).
  - intros r r' Hr Hr' Hrr. specialize (Hdiff r r' Hr Hr' Hrr).
    destruct (Hm r Hr) as [Hne Hpart]. destruct (Hm r' Hr') as [Hne' Hpart'].
    destruct (Hlook (m r) Hne Hpart) as [[E ->] | [[E ->] | [E ->]]];
    destruct (Hlook (m r') Hne' Hpart') as [[E' ->] | [[E' ->] | [E' ->]]];
      try congruence; try assumption; rewrite crossOk_sym; assumption.
Qed.

Lemma linksOf_In (L : N * N * N) (w : list Strand) :
  In w (linksOf L) → keysAre L w = true ∧ linkOk w = true.
Proof.
  destruct L as [[l0 l1] l2]. unfold linksOf. intros H.
  apply filter_In in H as [_ H]. apply andb_true_iff in H. exact H.
Qed.

(** *** The splits of the digits *)

Lemma tri84_nonzero (m : N) : In m tri84 → m ≠ 0%N.
Proof.
  intros H.
  assert (E : forallb (λ x, negb (x =? 0)%N) tri84 = true) by (vm_compute; reflexivity).
  rewrite forallb_forall in E. specialize (E m H).
  apply negb_true_iff, N.eqb_neq in E. exact E.
Qed.

Lemma mask3_tri84 (x y z : Z) :
  1 <= x <= 9 → 1 <= y <= 9 → 1 <= z <= 9 → x ≠ y → x ≠ z → y ≠ z →
  In (mask3 x y z) tri84.
Proof.
  intros Hx Hy Hz Hxy Hxz Hyz.
  assert (E : forallb (λ x, forallb (λ y, forallb (λ z,
            (x =? y) || (x =? z) || (y =? z) ||
            existsb (N.eqb (mask3 x y z)) tri84) digits) digits) digits = true)
    by (vm_compute; reflexivity).
  rewrite forallb_forall in E. specialize (E x (proj2 (digits_spec x) Hx)).
  rewrite forallb_forall in E. specialize (E y (proj2 (digits_spec y) Hy)).
  rewrite forallb_forall in E. specialize (E z (proj2 (digits_spec z) Hz)).
  rewrite !orb_true_iff, !Z.eqb_eq in E.
  destruct E as [[[E|E]|E]|E]; try contradiction.
  apply existsb_exists in E as (m & Hm & Em). apply N.eqb_eq in Em. congruence.
Qed.

Lemma in_allParts (a b c : N) :
  In a tri84 → In b tri84 → In c tri84 → (a < b)%N → (b < c)%N →
  disj a b = true → disj a c = true → disj b c = true →
  In (a, b, c) allParts.
Proof.
  intros Ha Hb Hc Hab Hbc Dab Dac Dbc. unfold allParts.
  apply list_elem_of_In, list_elem_of_bind. exists a.
  split; [|apply list_elem_of_In, Ha].
  apply list_elem_of_bind. exists b. split; [|apply list_elem_of_In, Hb].
  rewrite (proj2 (N.ltb_lt a b) Hab), Dab. cbn [andb].
  apply list_elem_of_bind. exists c. split; [|apply list_elem_of_In, Hc].
  rewrite (proj2 (N.ltb_lt b c) Hbc), Dac, Dbc. cbn [andb].
  apply list_elem_of_singleton. reflexivity.
Qed.

Lemma sort3_allParts (a b c : N) :
  In a tri84 → In b tri84 → In c tri84 →
  disj a b = true → disj a c = true → disj b c = true →
  In (sort3 (a, b, c)) allParts.
Proof.
  intros Ha Hb Hc Dab Dac Dbc.
  assert (Nab : a ≠ b).
  { intros ->. apply disj_self in Dab. exact (tri84_nonzero _ Hb Dab). }
  assert (Nac : a ≠ c).
  { intros ->. apply disj_self in Dac. exact (tri84_nonzero _ Hc Dac). }
  assert (Nbc : b ≠ c).
  { intros ->. apply disj_self in Dbc. exact (tri84_nonzero _ Hc Dbc). }
  unfold sort3.
  destruct (N.ltb_spec a b); destruct (N.ltb_spec b c); destruct (N.ltb_spec a c);
    try lia;
    apply in_allParts; try assumption; try lia;
    rewrite disj_sym; assumption.
Qed.

Lemma sort3_partOf (t : N * N * N) (m : N) : partOf m t → partOf m (sort3 t).
Proof.
  destruct t as [[a b] c]. unfold partOf, sort3. cbn [fst snd].
  destruct (a <? b)%N, (b <? c)%N, (a <? c)%N; cbn [fst snd]; tauto.
Qed.

(** *** Counting *)

Lemma existsb_map {A B : Type} (f : B → bool) (g : A → B) (l : list A) :
  existsb f (List.map g l) = existsb (λ x, f (g x)) l.
Proof. induction l as [|x l IH]; [reflexivity|]. cbn. rewrite IH. reflexivity. Qed.

Lemma existsb_filter {A : Type} (f q : A → bool) (l : list A) :
  existsb f (List.filter q l) = existsb (λ x, q x && f x) l.
Proof.
  induction l as [|x l IH]; [reflexivity|]. cbn.
  destruct (q x); cbn; rewrite IH; reflexivity.
Qed.

Lemma existsb_ext {A : Type} (f g : A → bool) (l : list A) :
  (∀ x, f x = g x) → existsb f l = existsb g l.
Proof. intros H. induction l as [|x l IH]; [reflexivity|]. cbn. rewrite H, IH. reflexivity. Qed.

Lemma joined_chain (L1 L2 : N * N * N) (xy : list N * list N) :
  joined (pre1 (linksOf L1) xy.1) (pre2 (linksOf L2) xy.2) = chain L1 L2 xy.
Proof.
  unfold joined, pre1, pre2, chain. rewrite anyb_existsb.
  rewrite existsb_map, existsb_filter. apply existsb_ext. intros w1.
  f_equal. rewrite anyb_existsb, existsb_map, existsb_filter. reflexivity.
Qed.

Lemma filter_map_length {A B : Type} (f : B → bool) (g : A → B) (l : list A) :
  length (List.filter f (List.map g l)) = length (List.filter (λ x, f (g x)) l).
Proof.
  induction l as [|x l IH]; [reflexivity|]. cbn.
  destruct (f (g x)); cbn; rewrite IH; reflexivity.
Qed.

Lemma combine_map_same {A B C : Type} (f : A → B) (g : A → C) (l : list A) :
  combine (List.map f l) (List.map g l) = List.map (λ x, (f x, g x)) l.
Proof. induction l as [|x l IH]; [reflexivity|]. cbn. rewrite IH. reflexivity. Qed.

Lemma atLeast_filter {A : Type} (k : nat) (f : A → bool) (l : list A) :
  atLeast k f l = true → (k <= length (List.filter f l))%nat.
Proof.
  revert k. induction l as [|x l IH]; intros k H.
  - destruct k; [cbn; lia | discriminate].
  - destruct k as [|k]; [lia|]. cbn [atLeast] in H. cbn [List.filter].
    destruct (f x).
    + apply IH in H. cbn [length]. lia.
    + apply IH in H. exact H.
Qed.

Lemma checkTab_sound (parts : list (N * N * N)) (ends : list (list N * list N))
    (L1 L2 : N * N * N) :
  checkTab (tabFor (List.map linksOf parts) ends) = true →
  In L1 parts → In L2 parts →
  (7 <= length (List.filter (chain L1 L2) ends))%nat.
Proof.
  unfold checkTab. rewrite allb_forallb, forallb_forall. intros H H1 H2.
  set (row := λ L, List.map (λ xy : list N * list N,
                     (pre1 (linksOf L) xy.1, pre2 (linksOf L) xy.2)) ends).
  assert (Hrow : ∀ L, In L parts →
            In (row L) (tabFor (List.map linksOf parts) ends)).
  { intros L HL. unfold tabFor. rewrite map_map. apply in_map_iff.
    exists L. split; [reflexivity | exact HL]. }
  specialize (H (row L1) (Hrow L1 H1)).
  rewrite allb_forallb, forallb_forall in H.
  specialize (H (row L2) (Hrow L2 H2)).
  apply atLeast_filter in H. unfold row in H.
  rewrite combine_map_same, filter_map_length in H. cbn [fst snd] in H.
  erewrite filter_ext in H; [exact H|].
  intros xy. cbv beta. apply joined_chain.
Qed.

Lemma checkAll_sound (ends : list (list N * list N)) (L1 L2 : N * N * N) :
  checkAll ends = true → In L1 allParts → In L2 allParts →
  (7 <= length (List.filter (chain L1 L2) ends))%nat.
Proof. unfold checkAll. apply checkTab_sound. Qed.

Lemma filter_pigeonhole {A : Type} (f g : A → bool) (l : list A) :
  (length l < length (List.filter f l) + length (List.filter g l))%nat →
  ∃ x, In x l ∧ f x = true ∧ g x = true.
Proof.
  induction l as [|x l IH]; cbn; [lia|]. intros H.
  destruct (f x) eqn:Ef, (g x) eqn:Eg; cbn in H;
    try (exists x; split; [left; reflexivity | split; assumption]);
    (destruct IH as (y & Hy & Hfy & Hgy); [lia|]);
    exists y; (split; [right; exact Hy | split; assumption]).
Qed.


(** The two exhaustive checks over the 280 x 280 pairs of splits. *)
Lemma checkAll_ends1 : checkAll (List.map ends1 linkPairs) = true.
Proof. vm_compute. reflexivity. Qed.

Lemma checkAll_ends2 : checkAll (List.map ends2 linkPairs) = true.
Proof. vm_compute. reflexivity. Qed.


(** ** The row and column sets of a box *)

Lemma perm9_rowMask (q : list Z) (r : Z) :
  perm9 q → 0 <= r < 3 → In (rowMask q r) tri84.
Proof.
  intros Hq Hr. unfold rowMask.
  apply mask3_tri84; try (apply perm9_digitOf; [exact Hq | lia]);
    intros E; apply (perm9_digitOf_inj q) in E; try assumption; lia.
Qed.

Lemma perm9_colMask (q : list Z) (c : Z) :
  perm9 q → 0 <= c < 3 → In (colMask q c) tri84.
Proof.
  intros Hq Hc. unfold colMask.
  apply mask3_tri84; try (apply perm9_digitOf; [exact Hq | lia]);
    intros E; apply (perm9_digitOf_inj q) in E; try assumption; lia.
Qed.

Lemma perm9_rowMask_disj (q : list Z) (r r' : Z) :
  perm9 q → 0 <= r < 3 → 0 <= r' < 3 → r ≠ r' →
  disj (rowMask q r) (rowMask q r') = true.
Proof.
  intros Hq Hr Hr' Hne. unfold rowMask.
  apply disj_mask3;
    try (pose proof (perm9_digitOf q (3 * r) Hq); lia);
    try (pose proof (perm9_digitOf q (3 * r + 1) Hq); lia);
    try (pose proof (perm9_digitOf q (3 * r + 2) Hq); lia);
    try (pose proof (perm9_digitOf q (3 * r') Hq); lia);
    try (pose proof (perm9_digitOf q (3 * r' + 1) Hq); lia);
    try (pose proof (perm9_digitOf q (3 * r' + 2) Hq); lia);
    intros E; apply (perm9_digitOf_inj q) in E; try assumption; lia.
Qed.

Lemma perm9_colMask_disj (q : list Z) (c c' : Z) :
  perm9 q → 0 <= c < 3 → 0 <= c' < 3 → c ≠ c' →
  disj (colMask q c) (colMask q c') = true.
Proof.
  intros Hq Hc Hc' Hne. unfold colMask.
  apply disj_mask3;
    try (pose proof (perm9_digitOf q c Hq); lia);
    try (pose proof (perm9_digitOf q (c + 3) Hq); lia);
    try (pose proof (perm9_digitOf q (c + 6) Hq); lia);
    try (pose proof (perm9_digitOf q c' Hq); lia);
    try (pose proof (perm9_digitOf q (c' + 3) Hq); lia);
    try (pose proof (perm9_digitOf q (c' + 6) Hq); lia);
    intros E; apply (perm9_digitOf_inj q) in E; try assumption; lia.
Qed.

(** Three sets of [tri84], pairwise disjoint, are served by every link of
    their sorted triple. *)
Lemma fits_linksOf (m : Z → N) (w : list Strand) :
  (∀ r, 0 <= r < 3 → In (m r) tri84) →
  (∀ r r', 0 <= r < 3 → 0 <= r' < 3 → r ≠ r' → disj (m r) (m r') = true) →
  In (sort3 (m 0, m 1, m 2)) allParts ∧
  (In w (linksOf (sort3 (m 0, m 1, m 2))) → fits w m).
Proof.
  intros Hin Hdisj. split.
  - apply sort3_allParts; try (apply Hin; lia); apply Hdisj; lia.
  - intros Hw. apply linksOf_In in Hw as [Hkeys Hok].
    apply (fits_intro w (sort3 (m 0, m 1, m 2))); try assumption.
    + intros r Hr. split; [apply tri84_nonzero, Hin, Hr|].
      apply sort3_partOf. unfold partOf. cbn [fst snd].
      assert (E : r = 0 ∨ r = 1 ∨ r = 2) by lia.
      destruct E as [-> | [-> | ->]]; tauto.
    + intros r r' Hr Hr' Hne E. specialize (Hdisj r r' Hr Hr' Hne).
      rewrite E in Hdisj. apply disj_self in Hdisj.
      exact (tri84_nonzero _ (Hin r' Hr') Hdisj).
Qed.

Lemma perm9_digits : perm9 digits.
Proof.
  split; [reflexivity|]. split; [repeat constructor; simpl; lia|].
  intros x Hx. apply digits_spec, Hx.
Qed.

Lemma linkPairs_fit (a d : list Strand) :
  In (a, d) linkPairs → fits a (rowMask digits) ∧ fits d (colMask digits).
Proof.
  intros Hin.
  assert (E : forallb (λ ad : list Strand * list Strand,
            keysAre firstRows ad.1 && linkOk ad.1 &&
            keysAre firstCols ad.2 && linkOk ad.2) linkPairs = true)
    by (vm_compute; reflexivity).
  rewrite forallb_forall in E. specialize (E (a, d) Hin). cbn [fst snd] in E.
  rewrite !andb_true_iff in E. destruct E as (((Ka & Oa) & Kd) & Od).
  split.
  - apply (fits_intro a firstRows); try assumption.
    + intros r Hr. assert (E : r = 0 ∨ r = 1 ∨ r = 2) by lia.
      destruct E as [-> | [-> | ->]]; (split; [discriminate|]);
        [left | right; left | right; right]; reflexivity.
    + intros r r' Hr Hr' Hne.
      assert (E : r = 0 ∨ r = 1 ∨ r = 2) by lia.
      assert (E' : r' = 0 ∨ r' = 1 ∨ r' = 2) by lia.
      destruct E as [-> | [-> | ->]], E' as [-> | [-> | ->]];
        try contradiction; discriminate.
  - apply (fits_intro d firstCols); try assumption.
    + intros r Hr. assert (E : r = 0 ∨ r = 1 ∨ r = 2) by lia.
      destruct E as [-> | [-> | ->]]; (split; [discriminate|]);
        [left | right; left | right; right]; reflexivity.
    + intros r r' Hr Hr' Hne.
      assert (E : r = 0 ∨ r = 1 ∨ r = 2) by lia.
      assert (E' : r' = 0 ∨ r' = 1 ∨ r' = 2) by lia.
      destruct E as [-> | [-> | ->]], E' as [-> | [-> | ->]];
        try contradiction; discriminate.
Qed.

Lemma chain_links (L1 L2 : N * N * N) (x y : list N) :
  chain L1 L2 (x, y) = true →
  ∃ w1 w2, In w1 (linksOf L1) ∧ In w2 (linksOf L2) ∧
    meetsAll x (comp1 w1) = true ∧
    meetsAll (comp2 w1) (comp1 w2) = true ∧
    meetsAll (comp2 w2) y = true.
Proof.
  unfold chain. cbn [fst snd]. intros H.
  apply existsb_exists in H as (w1 & H1 & H).
  apply andb_true_iff in H as [Hx H].
  apply existsb_exists in H as (w2 & H2 & H).
  apply andb_true_iff in H as [Hy H12].
  exists w1, w2. tauto.
Qed.

(** For the first box in standard position and any two other diagonal
    boxes there are six links that fit the boxes and each other. *)
Lemma links_exist (q2 q3 : list Z) :
  perm9 q2 → perm9 q3 →
  ∃ a b c d e f : list Strand,
    fits a (rowMask digits) ∧ fits c (rowMask q2) ∧ fits e (rowMask q3) ∧
    fits d (colMask digits) ∧ fits f (colMask q2) ∧ fits b (colMask q3) ∧
    meetsAll (comp2 a) (comp1 b) = true ∧
    meetsAll (comp2 b) (comp1 c) = true ∧
    meetsAll (comp2 c) (comp1 d) = true ∧
    meetsAll (comp2 d) (comp1 e) = true ∧
    meetsAll (comp2 e) (comp1 f) = true ∧
    meetsAll (comp2 f) (comp1 a) = true.
Proof.
  intros H2 H3.
  destruct (fits_linksOf (colMask q3))
    with (w := @nil Strand) as [HU _];
    [intros; apply perm9_colMask; assumption
    |intros; apply perm9_colMask_disj; assumption|].
  destruct (fits_linksOf (rowMask q2))
    with (w := @nil Strand) as [HR _];
    [intros; apply perm9_rowMask; assumption
    |intros; apply perm9_rowMask_disj; assumption|].
  destruct (fits_linksOf (rowMask q3))
    with (w := @nil Strand) as [HT _];
    [intros; apply perm9_rowMask; assumption
    |intros; apply perm9_rowMask_disj; assumption|].
  destruct (fits_linksOf (colMask q2))
    with (w := @nil Strand) as [HS _];
    [intros; apply perm9_colMask; assumption
    |intros; apply perm9_colMask_disj; assumption|].
  pose proof (checkAll_sound _ _ _ checkAll_ends1 HU HR) as C1.
  pose proof (checkAll_sound _ _ _ checkAll_ends2 HT HS) as C2.
  rewrite filter_map_length in C1, C2.
  assert (Hlt : (length linkPairs <
      length (List.filter (λ x, chain (sort3 (colMask q3 0, colMask q3 1, colMask q3 2))
                                      (sort3 (rowMask q2 0, rowMask q2 1, rowMask q2 2))
                                      (ends1 x)) linkPairs) +
      length (List.filter (λ x, chain (sort3 (rowMask q3 0, rowMask q3 1, rowMask q3 2))
                                      (sort3 (colMask q2 0, colMask q2 1, colMask q2 2))
                                      (ends2 x)) linkPairs))%nat)
    by (change (length linkPairs) with 13%nat; lia).
  destruct (filter_pigeonhole _ _ linkPairs Hlt) as ([a d] & Hin & J1 & J2).
  unfold ends1 in J1. unfold ends2 in J2. cbn [fst snd] in J1, J2.
  apply chain_links in J1 as (b & c & Hb & Hc & Mab & Mbc & Mcd).
  apply chain_links in J2 as (e & f & He & Hf & Mde & Mef & Mfa).
  destruct (linkPairs_fit a d Hin) as [Fa Fd].
  exists a, b, c, d, e, f.
  repeat match goal with |- _ ∧ _ => split end; try assumption.
  - apply (fits_linksOf (rowMask q2)); try assumption;
      [intros; apply perm9_rowMask; assumption
      |intros; apply perm9_rowMask_disj; assumption].
  - apply (fits_linksOf (rowMask q3)); try assumption;
      [intros; apply perm9_rowMask; assumption
      |intros; apply perm9_rowMask_disj; assumption].
  - apply (fits_linksOf (colMask q2)); try assumption;
      [intros; apply perm9_colMask; assumption
      |intros; apply perm9_colMask_disj; assumption].
  - apply (fits_linksOf (colMask q3)); try assumption;
      [intros; apply perm9_colMask; assumption
      |intros; apply perm9_colMask_disj; assumption].
Qed.


(** ** Every choice of the three diagonal boxes has a solution *)

Lemma indexOf_spec (d : Z) (l : list Z) :
  In d l → (indexOf d l < length l)%nat ∧ nth (indexOf d l) l 0 = d.
Proof.
  induction l as [|x l IH]; [intros []|]. intros Hin. cbn [indexOf].
  destruct (Z.eqb_spec x d) as [->|Hne]; [cbn; split; [lia | reflexivity]|].
  destruct Hin as [->|Hin]; [contradiction|].
  destruct (IH Hin) as [Hlt Hnth]. cbn. split; [lia | exact Hnth].
Qed.

Lemma perm9_all (p : list Z) (d : Z) : perm9 p → 1 <= d <= 9 → In d p.
Proof.
  intros (Hlen & Hnd & Hrange) Hd.
  assert (Hincl : incl digits p).
  { apply NoDup_length_incl; [exact Hnd | rewrite Hlen; cbn; lia |].
    intros x Hx. apply digits_spec, Hrange, Hx. }
  apply Hincl, digits_spec, Hd.
Qed.

Lemma relabel_position (p1 : list Z) (d : Z) :
  perm9 p1 → 1 <= d <= 9 →
  1 <= positionIn p1 d <= 9 ∧ relabelBy p1 (positionIn p1 d) = d.
Proof.
  intros Hp Hd. pose proof (perm9_all p1 d Hp Hd) as Hin.
  destruct (indexOf_spec d p1 Hin) as [Hlt Hnth].
  destruct Hp as (Hlen & _). unfold positionIn, relabelBy, digitOf.
  split; [lia|].
  replace (Z.to_nat (Z.of_nat (indexOf d p1) + 1 - 1)) with (indexOf d p1) by lia.
  exact Hnth.
Qed.

Lemma NoDup_map_on {A B : Type} (f : A → B) (l : list A) :
  List.NoDup l → (∀ x y, In x l → In y l → f x = f y → x = y) →
  List.NoDup (List.map f l).
Proof.
  induction 1 as [|x l Hx Hnd IH]; intros Hinj; [constructor|].
  cbn. constructor.
  - intros Hin. apply in_map_iff in Hin as (y & E & Hy).
    apply Hx. rewrite (Hinj x y); [exact Hy | left; reflexivity | right; exact Hy | congruence].
  - apply IH. intros a b Ha Hb. apply Hinj; right; assumption.
Qed.

Lemma perm9_position (p1 q : list Z) :
  perm9 p1 → perm9 q → perm9 (List.map (positionIn p1) q).
Proof.
  intros Hp (Hlen & Hnd & Hrange). split; [rewrite length_map; exact Hlen|]. split.
  - apply NoDup_map_on; [exact Hnd|]. intros x y Hx Hy E.
    destruct (relabel_position p1 x Hp (Hrange x Hx)) as [_ Ex].
    destruct (relabel_position p1 y Hp (Hrange y Hy)) as [_ Ey].
    congruence.
  - intros x Hx. apply in_map_iff in Hx as (y & <- & Hy).
    apply (relabel_position p1 y Hp (Hrange y Hy)).
Qed.

Lemma digitOf_map (f : Z → Z) (q : list Z) (k : Z) :
  0 <= k < Z.of_nat (length q) → digitOf (List.map f q) k = f (digitOf q k).
Proof.
  intros Hk. unfold digitOf.
  rewrite (nth_indep _ 0 (f 0)) by (rewrite length_map; lia).
  apply map_nth.
Qed.

Lemma relabelBy_inj (p1 : list Z) (x y : Z) :
  perm9 p1 → 1 <= x <= 9 → 1 <= y <= 9 →
  relabelBy p1 x = relabelBy p1 y → x = y.
Proof.
  intros Hp Hx Hy E. unfold relabelBy in E.
  apply (perm9_digitOf_inj p1) in E; [lia | exact Hp | lia | lia].
Qed.

Lemma cellAt_diagGrid (p0 p1 p2 : list Z) (row col : Z) :
  length p0 = 9%nat → length p1 = 9%nat → length p2 = 9%nat →
  inRange row → inRange col →
  cellAt (diagGrid p0 p1 p2) row col =
  if row / 3 =? col / 3
  then JNum (digitOf (sel3 p0 p1 p2 (row / 3)) (3 * (row mod 3) + col mod 3))
  else JNull.
Proof.
  intros H0 H1 H2 Hr Hc.
  do 10 (destruct p0 as [|? p0]; try discriminate).
  do 10 (destruct p1 as [|? p1]; try discriminate).
  do 10 (destruct p2 as [|? p2]; try discriminate).
  unfold inRange in *.
  assert (Er : row = 0 ∨ row = 1 ∨ row = 2 ∨ row = 3 ∨ row = 4 ∨ row = 5 ∨
               row = 6 ∨ row = 7 ∨ row = 8) by lia.
  assert (Ec : col = 0 ∨ col = 1 ∨ col = 2 ∨ col = 3 ∨ col = 4 ∨ col = 5 ∨
               col = 6 ∨ col = 7 ∨ col = 8) by lia.
  destruct Er as [-> | [-> | [-> | [-> | [-> | [-> | [-> | [-> | ->]]]]]]]];
  destruct Ec as [-> | [-> | [-> | [-> | [-> | [-> | [-> | [-> | ->]]]]]]]];
  reflexivity.
Qed.

Lemma digitOf_digits (k : Z) : 0 <= k < 9 → digitOf digits k = k + 1.
Proof.
  intros Hk.
  assert (E : k = 0 ∨ k = 1 ∨ k = 2 ∨ k = 3 ∨ k = 4 ∨ k = 5 ∨
              k = 6 ∨ k = 7 ∨ k = 8) by lia.
  destruct E as [-> | [-> | [-> | [-> | [-> | [-> | [-> | [-> | ->]]]]]]]];
    reflexivity.
Qed.

Lemma sel3_cases {A : Type} (P : Z → Prop) (i : Z) :
  0 <= i < 3 → P 0 → P 1 → P 2 → P i.
Proof.
  intros Hi P0 P1 P2. assert (E : i = 0 ∨ i = 1 ∨ i = 2) by lia.
  destruct E as [-> | [-> | ->]]; assumption.
Qed.

Lemma linkGrid_completes (p1 p2 p3 : list Z) (a b c d e f : list Strand) :
  perm9 p1 → perm9 p2 → perm9 p3 →
  let q2 := List.map (positionIn p1) p2 in
  let q3 := List.map (positionIn p1) p3 in
  fits a (rowMask digits) → fits c (rowMask q2) → fits e (rowMask q3) →
  fits d (colMask digits) → fits f (colMask q2) → fits b (colMask q3) →
  meetsAll (comp2 a) (comp1 b) = true →
  meetsAll (comp2 b) (comp1 c) = true →
  meetsAll (comp2 c) (comp1 d) = true →
  meetsAll (comp2 d) (comp1 e) = true →
  meetsAll (comp2 e) (comp1 f) = true →
  meetsAll (comp2 f) (comp1 a) = true →
  completes (diagGrid p1 p2 p3) (linkGrid p1 p2 p3 a b c d e f).
Proof.
  intros Hp1 Hp2 Hp3 q2 q3 Fa Fc Fe Fd Ff Fb Mab Mbc Mcd Mde Mef Mfa.
  pose proof (perm9_position p1 p2 Hp1 Hp2) as Hq2. fold q2 in Hq2.
  pose proof (perm9_position p1 p3 Hp1 Hp3) as Hq3. fold q3 in Hq3.
  unfold linkGrid. fold q2 q3. cbv zeta.
  set (p := sel3 digits q2 q3).
  set (bs := λ i r, lookupKey (sel3 a c e i) (rowMask (p i) r)).
  set (ss := λ j c', lookupKey (sel3 d f b j) (colMask (p j) c')).
  assert (Hp : ∀ i, 0 <= i < 3 → perm9 (p i)).
  { intros i Hi. pattern i. apply (sel3_cases (A := Z)); try assumption.
    apply perm9_digits. }
  assert (Hb : ∀ i, 0 <= i < 3 → fits (sel3 a c e i) (rowMask (p i))).
  { intros i Hi. pattern i. apply (sel3_cases (A := Z)); assumption. }
  assert (Hs : ∀ j, 0 <= j < 3 → fits (sel3 d f b j) (colMask (p j))).
  { intros j Hj. pattern j. apply (sel3_cases (A := Z)); assumption. }
  assert (Hmeet : ∀ i j r c',
            0 <= i < 3 → 0 <= j < 3 → 0 <= r < 3 → 0 <= c' < 3 → i ≠ j →
            meets (rowSet bs i j r) (colSet ss i j c') = true).
  { intros i j r c' Hi Hj Hr Hc Hij. unfold rowSet, colSet, bs, ss.
    destruct (proj1 (Hb i Hi) r Hr) as (Hbin & _).
    destruct (proj1 (Hs j Hj) c' Hc) as (Hsin & _).
    assert (Ei : i = 0 ∨ i = 1 ∨ i = 2) by lia.
    assert (Ej : j = 0 ∨ j = 1 ∨ j = 2) by lia.
    destruct Ei as [-> | [-> | ->]], Ej as [-> | [-> | ->]];
      try contradiction;
      change (sel3 a c e 0) with a in *; change (sel3 a c e 1) with c in *;
      change (sel3 a c e 2) with e in *; change (sel3 d f b 0) with d in *;
      change (sel3 d f b 1) with f in *; change (sel3 d f b 2) with b in *.
    - change ((1 - 0) mod 3) with 1. change ((0 - 1) mod 3) with 2.
      rewrite meets_sym.
      exact (meetsAll_In _ _ _ _ Mfa (comp2_In _ _ Hsin) (comp1_In _ _ Hbin)).
    - change ((2 - 0) mod 3) with 2. change ((0 - 2) mod 3) with 1.
      exact (meetsAll_In _ _ _ _ Mab (comp2_In _ _ Hbin) (comp1_In _ _ Hsin)).
    - change ((0 - 1) mod 3) with 2. change ((1 - 0) mod 3) with 1.
      exact (meetsAll_In _ _ _ _ Mcd (comp2_In _ _ Hbin) (comp1_In _ _ Hsin)).
    - change ((2 - 1) mod 3) with 1. change ((1 - 2) mod 3) with 2.
      rewrite meets_sym.
      exact (meetsAll_In _ _ _ _ Mbc (comp2_In _ _ Hsin) (comp1_In _ _ Hbin)).
    - change ((0 - 2) mod 3) with 1. change ((2 - 0) mod 3) with 2.
      rewrite meets_sym.
      exact (meetsAll_In _ _ _ _ Mde (comp2_In _ _ Hsin) (comp1_In _ _ Hbin)).
    - change ((1 - 2) mod 3) with 2. change ((2 - 1) mod 3) with 1.
      exact (meetsAll_In _ _ _ _ Mef (comp2_In _ _ Hbin) (comp1_In _ _ Hsin)). }
  assert (Hbkey : ∀ i r, 0 <= i < 3 → 0 <= r < 3 → key (bs i r) = rowMask (p i) r)
    by (intros i r Hi Hr; apply (proj1 (Hb i Hi) r Hr)).
  assert (Hskey : ∀ j c', 0 <= j < 3 → 0 <= c' < 3 → key (ss j c') = colMask (p j) c')
    by (intros j c' Hj Hc; apply (proj1 (Hs j Hj) c' Hc)).
  assert (Hbok : ∀ i r, 0 <= i < 3 → 0 <= r < 3 → strandOk (bs i r) = true)
    by (intros i r Hi Hr; apply (proj1 (Hb i Hi) r Hr)).
  assert (Hsok : ∀ j c', 0 <= j < 3 → 0 <= c' < 3 → strandOk (ss j c') = true)
    by (intros j c' Hj Hc; apply (proj1 (Hs j Hj) c' Hc)).
  assert (Hbcross : ∀ i r r', 0 <= i < 3 → 0 <= r < 3 → 0 <= r' < 3 → r ≠ r' →
            crossOk (bs i r) (bs i r') = true)
    by (intros i r r' Hi; apply (proj2 (Hb i Hi))).
  assert (Hscross : ∀ j c1 c2, 0 <= j < 3 → 0 <= c1 < 3 → 0 <= c2 < 3 → c1 ≠ c2 →
            crossOk (ss j c1) (ss j c2) = true)
    by (intros j c1 c2 Hj; apply (proj2 (Hs j Hj))).
  assert (Hinj : ∀ x y, 1 <= x <= 9 → 1 <= y <= 9 →
            relabelBy p1 x = relabelBy p1 y → x = y)
    by (intros x y; apply relabelBy_inj, Hp1).
  destruct (layoutGrid_solved p bs ss (relabelBy p1)
              Hp Hbkey Hskey Hbok Hsok Hbcross Hscross Hmeet Hinj) as [Hg9 Hsolved].
  split; [exact Hg9|]. split; [exact Hsolved|].
  intros row col Hr Hc. unfold layoutGrid. rewrite cellAt_gridOf by assumption.
  destruct (digitAt_in_sets p bs ss Hp Hbkey Hskey Hbok Hmeet row col Hr Hc)
    as (Hrange & _ & _).
  rewrite cellAt_diagGrid; try assumption; try apply Hp1; try apply Hp2; try apply Hp3.
  destruct (Z.eqb_spec (row / 3) (col / 3)) as [E|E].
  - f_equal. unfold digitAt. cbv zeta. rewrite (proj2 (Z.eqb_eq _ _) E).
    unfold inRange in *.
    assert (Hk : 0 <= 3 * (row mod 3) + col mod 3 < 9)
      by (Z.div_mod_to_equations; lia).
    assert (Hi : 0 <= row / 3 < 3) by (Z.div_mod_to_equations; lia).
    set (k := 3 * (row mod 3) + col mod 3) in *.
    assert (Ei : row / 3 = 0 ∨ row / 3 = 1 ∨ row / 3 = 2) by lia.
    unfold p. destruct Ei as [-> | [-> | ->]];
      [change (sel3 digits q2 q3 0) with digits; change (sel3 p1 p2 p3 0) with p1
      |change (sel3 digits q2 q3 1) with q2; change (sel3 p1 p2 p3 1) with p2
      |change (sel3 digits q2 q3 2) with q3; change (sel3 p1 p2 p3 2) with p3].
    + rewrite digitOf_digits by exact Hk. unfold relabelBy. f_equal. lia.
    + unfold q2. rewrite digitOf_map by (rewrite (proj1 Hp2); lia).
      apply relabel_position; [exact Hp1 | apply perm9_digitOf; assumption].
    + unfold q3. rewrite digitOf_map by (rewrite (proj1 Hp3); lia).
      apply relabel_position; [exact Hp1 | apply perm9_digitOf; assumption].
  - exists (relabelBy p1 (digitAt p bs ss row col)). split; [|reflexivity].
    unfold relabelBy. apply perm9_digitOf; [exact Hp1 | lia].
Qed.

(** Three diagonal boxes, each filled with nine different digits, always
    have a solution. *)
Theorem diag_completable (p1 p2 p3 : list Z) :
  perm9 p1 → perm9 p2 → perm9 p3 → ∃ s, completes (diagGrid p1 p2 p3) s.
Proof.
  intros Hp1 Hp2 Hp3.
  destruct (links_exist (List.map (positionIn p1) p2) (List.map (positionIn p1) p3))
    as (a & b & c & d & e & f & Fa & Fc & Fe & Fd & Ff & Fb &
        Mab & Mbc & Mcd & Mde & Mef & Mfa);
    [apply perm9_position; assumption | apply perm9_position; assumption |].
  exists (linkGrid p1 p2 p3 a b c d e f).
  apply linkGrid_completes; assumption.
Qed.


(** ** The generator *)

Lemma swap_length {A : Type} (l : list A) (i j : nat) :
  length (swap l i j) = length l.
Proof.
  unfold swap. destruct (l !! i), (l !! j); try reflexivity.
  rewrite !length_insert. reflexivity.
Qed.

Lemma swap_lookup {A : Type} (l : list A) (i j k : nat) :
  (i < length l)%nat → (j < length l)%nat →
  swap l i j !! k =
  l !! (if decide (k = j) then i else if decide (k = i) then j else k).
Proof.
  intros Hi Hj. unfold swap.
  destruct (lookup_lt_is_Some_2 l i Hi) as [x Ex].
  destruct (lookup_lt_is_Some_2 l j Hj) as [y Ey].
  rewrite Ex, Ey. destruct (decide (k = j)) as [->|Hkj].
  - rewrite list_lookup_insert_eq by (rewrite length_insert; exact Hj).
    symmetry. exact Ex.
  - rewrite list_lookup_insert_ne by congruence.
    destruct (decide (k = i)) as [->|Hki].
    + rewrite list_lookup_insert_eq by exact Hi. symmetry. exact Ey.
    + rewrite list_lookup_insert_ne by congruence. reflexivity.
Qed.

Lemma swap_elem_of {A : Type} (l : list A) (i j : nat) (x : A) :
  x ∈ swap l i j → x ∈ l.
Proof.
  destruct (decide (i < length l ∧ j < length l)%nat) as [[Hi Hj]|Hout].
  - intros H. apply list_elem_of_lookup in H as [k Hk].
    rewrite swap_lookup in Hk by assumption.
    eapply list_elem_of_lookup_2, Hk.
  - unfold swap. destruct (l !! i) eqn:Ei; [|tauto].
    destruct (l !! j) eqn:Ej; [|tauto].
    apply lookup_lt_Some in Ei. apply lookup_lt_Some in Ej. lia.
Qed.

Lemma swap_NoDup {A : Type} (l : list A) (i j : nat) :
  NoDup l → NoDup (swap l i j).
Proof.
  intros Hnd.
  destruct (decide (i < length l ∧ j < length l)%nat) as [[Hi Hj]|Hout].
  - apply NoDup_alt. intros k1 k2 x H1 H2.
    rewrite swap_lookup in H1, H2 by assumption.
    pose proof (proj1 (NoDup_alt l) Hnd _ _ _ H1 H2) as E.
    repeat case_decide; subst; congruence.
  - unfold swap. destruct (l !! i) eqn:Ei; [|exact Hnd].
    destruct (l !! j) eqn:Ej; [|exact Hnd].
    apply lookup_lt_Some in Ei. apply lookup_lt_Some in Ej. lia.
Qed.

(** A shuffle rearranges: the same length, no element twice, nothing new. *)
Lemma shuffleFrom_spec {A : Type} (rnd : Random) (i n : nat) (l : list A) :
  NoDup l →
  length (shuffleFrom rnd i n l).1 = length l ∧
  NoDup (shuffleFrom rnd i n l).1 ∧
  ∀ x, x ∈ (shuffleFrom rnd i n l).1 → x ∈ l.
Proof.
  revert n l. induction i as [|i IH]; intros n l Hnd; [cbn; auto|].
  cbn [shuffleFrom]. cbv zeta.
  destruct (IH (S n) (swap l (S i) (rnd n mod (S i + 1))%nat)) as (H1 & H2 & H3);
    [apply swap_NoDup, Hnd|].
  split; [rewrite H1; apply swap_length|]. split; [exact H2|].
  intros x Hx. eapply swap_elem_of, H3, Hx.
Qed.

Lemma shuffle_digits (rnd : Random) (n : nat) :
  perm9 (shuffle rnd n digits).1.
Proof.
  destruct (shuffleFrom_spec rnd (length digits - 1) n digits) as (H1 & H2 & H3).
  { apply NoDup_ListNoDup. repeat constructor; simpl; lia. }
  split; [exact H1|]. split; [apply NoDup_ListNoDup, H2|].
  intros x Hx. apply digits_spec, list_elem_of_In, H3, list_elem_of_In, Hx.
Qed.

Lemma shuffle_cells (rnd : Random) (n : nat) :
  List.NoDup (shuffle rnd n cells).1 ∧
  ∀ row col, In (row, col) (shuffle rnd n cells).1 → inRange row ∧ inRange col.
Proof.
  destruct (shuffleFrom_spec rnd (length cells - 1) n cells) as (H1 & H2 & H3).
  { apply NoDup_ListNoDup, NoDup_cells. }
  split; [apply NoDup_ListNoDup, H2|].
  intros row col Hx. apply cells_spec, list_elem_of_In, H3, list_elem_of_In, Hx.
Qed.

Lemma fillDiagonal_spec (rnd : Random) (n : nat) :
  ∃ p1 p2 p3 n', perm9 p1 ∧ perm9 p2 ∧ perm9 p3 ∧
    fillDiagonal rnd n = (diagGrid p1 p2 p3, n').
Proof.
  unfold fillDiagonal, idx3. cbn [fold_left].
  pose proof (shuffle_digits rnd n) as H1.
  destruct (shuffle rnd n digits) as [p1 n1]. cbn [fst] in H1.
  pose proof (shuffle_digits rnd n1) as H2.
  destruct (shuffle rnd n1 digits) as [p2 n2]. cbn [fst] in H2.
  pose proof (shuffle_digits rnd n2) as H3.
  destruct (shuffle rnd n2 digits) as [p3 n3]. cbn [fst] in H3.
  exists p1, p2, p3, n3.
  split; [exact H1|]. split; [exact H2|]. split; [exact H3|]. reflexivity.
Qed.

Lemma grid9_diagGrid (p1 p2 p3 : list Z) : grid9 (diagGrid p1 p2 p3).
Proof.
  unfold diagGrid, fillBox. cbn [fold_left mbind list_bind idx3 app mret list_ret].
  repeat apply grid9_setCell. apply grid9_createEmptyGrid.
Qed.

(** A grid that has a solution has no violations. *)
Lemma completes_consistent (g s : Grid) :
  grid9 g → completes g s → consistent g.
Proof.
  intros Hg (Hs & Hsolved & Hext) r c n Hr Hc Hcell.
  apply isValidPlacement_peers; [exact Hg|]. intros r' c' Hp Hcell'.
  destruct (decide (inRange r' ∧ inRange c')) as [[Hr' Hc']|Hout].
  - pose proof (Hext r c Hr Hc) as E. rewrite Hcell in E.
    pose proof (Hext r' c' Hr' Hc') as E'. rewrite Hcell' in E'.
    rewrite isSolved_spec in Hsolved.
    destruct (Hsolved r c Hr Hc) as (m & Hm & Hv).
    rewrite E in Hm. injection Hm as <-.
    rewrite isValidPlacement_peers in Hv by exact Hs.
    exact (Hv r' c' Hp E').
  - rewrite cellAt_out_of_range in Hcell'; [discriminate | exact Hg |].
    unfold inRange in *. lia.
Qed.

(** On a grid that has a solution the search succeeds and leaves one. *)
Lemma solveInPlace_completes (g s0 : Grid) :
  grid9 g → completes g s0 →
  ∃ s, solveInPlace (S (countEmpty g)) g = Some (true, s) ∧ completes g s.
Proof.
  intros Hg Hs0. pose proof (completes_consistent g s0 Hg Hs0) as Hcons.
  rewrite solveInPlace_spec by (auto; lia).
  pose proof (proj2 (solutions_sound_complete (S (countEmpty g)) g s0 Hg Hcons
                       (Nat.lt_succ_diag_r _)) Hs0) as Hin.
  destruct (solutions (S (countEmpty g)) g) as [|s sols] eqn:E.
  - apply elem_of_nil in Hin. destruct Hin.
  - exists s. split; [reflexivity|].
    apply (solutions_sound_complete (S (countEmpty g)) g s Hg Hcons
             (Nat.lt_succ_diag_r _)).
    rewrite E. left.
Qed.

Lemma generateSolvedGrid_spec (rnd : Random) (n : nat) :
  ∃ p1 p2 p3 s n',
    perm9 p1 ∧ perm9 p2 ∧ perm9 p3 ∧
    fillDiagonal rnd n = (diagGrid p1 p2 p3, n') ∧
    solveInPlace (S (countEmpty (diagGrid p1 p2 p3))) (diagGrid p1 p2 p3)
      = Some (true, s) ∧
    generateSolvedGrid rnd n = Some (s, n') ∧
    completes (diagGrid p1 p2 p3) s.
Proof.
  destruct (fillDiagonal_spec rnd n) as (p1 & p2 & p3 & n' & H1 & H2 & H3 & E).
  destruct (diag_completable p1 p2 p3 H1 H2 H3) as [s0 Hs0].
  destruct (solveInPlace_completes _ s0 (grid9_diagGrid p1 p2 p3) Hs0) as (s & Es & Hs).
  exists p1, p2, p3, s, n'. repeat (split; [assumption|]).
  split; [|exact Hs]. unfold generateSolvedGrid. rewrite E, Es. reflexivity.
Qed.


(** ** The puzzle builder *)

Lemma fold_left_fixed {A B : Type} (f : A → B → A) (l : list B) (a : A) :
  (∀ b, In b l → f a b = a) → fold_left f l a = a.
Proof.
  induction l as [|b l IH]; intros H; [reflexivity|]. cbn [fold_left].
  rewrite (H b) by (left; reflexivity). apply IH. intros b' Hb'. apply H. right. exact Hb'.
Qed.

Lemma filter_none {A : Type} (f : A → bool) (l : list A) :
  (∀ x, In x l → f x = false) → List.filter f l = [].
Proof.
  induction l as [|x l IH]; intros H; [reflexivity|]. cbn.
  rewrite (H x) by (left; reflexivity). apply IH. intros y Hy. apply H. right. exact Hy.
Qed.

Lemma filter_all {A : Type} (f : A → bool) (l : list A) :
  (∀ x, In x l → f x = true) → List.filter f l = l.
Proof.
  induction l as [|x l IH]; intros H; [reflexivity|]. cbn.
  rewrite (H x) by (left; reflexivity). f_equal. apply IH. intros y Hy. apply H. right. exact Hy.
Qed.

Lemma digitGrid_not_null (s : Grid) (r c : Z) :
  digitGrid s → inRange r → inRange c → isNull (cellAt s r c) = false.
Proof.
  intros [_ H] Hr Hc. destruct (H r c Hr Hc) as (d & _ & ->). reflexivity.
Qed.

Lemma firstEmpty_digitGrid (s : Grid) : digitGrid s → firstEmpty s = None.
Proof.
  intros Hs. unfold firstEmpty.
  destruct (List.find _ cells) as [[r c]|] eqn:E; [|reflexivity].
  apply find_some in E as [Hin Hnull]. apply cells_spec in Hin as [Hr Hc].
  cbv beta iota in Hnull. rewrite digitGrid_not_null in Hnull by assumption.
  discriminate.
Qed.

Lemma countEmpty_digitGrid (s : Grid) : digitGrid s → countEmpty s = 0%nat.
Proof.
  intros Hs. unfold countEmpty. rewrite filter_none; [reflexivity|].
  intros [r c] Hin. apply cells_spec in Hin as [Hr Hc].
  apply digitGrid_not_null; assumption.
Qed.

Lemma applyNakedSingles_digitGrid (s : Grid) :
  digitGrid s → applyNakedSingles s = (false, s).
Proof.
  intros Hs. unfold applyNakedSingles. apply fold_left_fixed.
  intros [r c] Hin. apply cells_spec in Hin as [Hr Hc]. unfold nakedSingle.
  rewrite digitGrid_not_null by assumption. reflexivity.
Qed.

Lemma applyHiddenSingles_digitGrid (s : Grid) :
  digitGrid s → applyHiddenSingles s = (false, s).
Proof.
  intros Hs. unfold applyHiddenSingles. apply fold_left_fixed.
  intros unit Hu. apply fold_left_fixed. intros num _. unfold hiddenSingle.
  rewrite filter_none; [reflexivity|]. intros [r c] Hin. cbn [snd].
  destruct (units_in_range unit r c Hu Hin) as [Hr Hc].
  rewrite digitGrid_not_null by assumption. reflexivity.
Qed.

Lemma canSolveWithBasicDeduction_solved (s : Grid) :
  digitGrid s → isSolved s = true → canSolveWithBasicDeduction s = Some true.
Proof.
  intros Hs Hsolved. unfold canSolveWithBasicDeduction. rewrite cloneGrid_id.
  cbn [deduce]. rewrite applyNakedSingles_digitGrid, applyHiddenSingles_digitGrid
    by exact Hs.
  cbn [orb mbind option_bind]. rewrite Hsolved. reflexivity.
Qed.

Lemma isSolved_consistent (s : Grid) : isSolved s = true → consistent s.
Proof.
  intros H r c n Hr Hc Hcell. rewrite isSolved_spec in H.
  destruct (H r c Hr Hc) as (m & Hm & Hv). congruence.
Qed.

Lemma countSolutions_solved (s : Grid) :
  digitGrid s → isSolved s = true → countSolutions s 2 = Some 1.
Proof.
  intros Hs Hsolved. rewrite countSolutions_spec by apply Hs.
  cbn [solutions]. rewrite firstEmpty_digitGrid by exact Hs. reflexivity.
Qed.

Lemma carvedFrom_completes (solution puzzle : Grid) :
  digitGrid solution → isSolved solution = true →
  carvedFrom solution puzzle → completes puzzle solution.
Proof.
  intros [Hg Hd] Hsolved [Hp Hsub]. split; [exact Hg|]. split; [exact Hsolved|].
  intros r c Hr Hc. destruct (Hsub r c Hr Hc) as [E|E]; rewrite E.
  - destruct (Hd r c Hr Hc) as (d & Hd1 & Hd2). eauto.
  - destruct (Hd r c Hr Hc) as (d & Hd1 & Hd2). rewrite Hd2. reflexivity.
Qed.

Lemma clueCount_digitGrid (s : Grid) : digitGrid s → clueCount s = 81.
Proof.
  intros [_ Hd]. unfold clueCount. rewrite filter_all; [reflexivity|].
  intros [r c] Hin. apply cells_spec in Hin as [Hr Hc].
  destruct (Hd r c Hr Hc) as (d & _ & ->). reflexivity.
Qed.

Lemma clueCount_clear (g : Grid) (row col n : Z) :
  inRange row → inRange col → cellAt g row col = JNum n →
  clueCount (setCell g row col None) = clueCount g - 1.
Proof.
  intros Hr Hc Hcell. unfold clueCount.
  rewrite (filter_length_flip
             (λ '(r, c), match cellAt g r c with JNum _ => true | _ => false end)
             (λ '(r, c), match cellAt (setCell g row col None) r c with
                         | JNum _ => true | _ => false end)
             cells (row, col)); [lia | exact NoDup_cells | | | |].
  - apply cells_spec. tauto.
  - cbv beta iota. rewrite Hcell. reflexivity.
  - cbv beta iota. rewrite cellAt_setCell_eq by congruence. reflexivity.
  - intros [r c] Hne. cbv beta iota. rewrite cellAt_setCell_ne by exact Hne.
    reflexivity.
Qed.

Lemma countSolutions_total (g : Grid) :
  grid9 g → ∃ n, countSolutions g 2 = Some n.
Proof. intros Hg. rewrite countSolutions_spec by exact Hg. eauto. Qed.

Section RemoveClues.
Variable difficulty : Difficulty.
Variable solution : Grid.
Hypothesis Hsol : digitGrid solution.

Lemma removeClues_spec (positions : list (Z * Z)) (clues : Z) (puzzle : Grid) :
  List.NoDup positions →
  (∀ row col, In (row, col) positions →
     inRange row ∧ inRange col ∧ cellAt puzzle row col = cellAt solution row col) →
  carved difficulty solution puzzle → clueCount puzzle = clues →
  ∃ puzzle', removeClues difficulty positions clues puzzle = Some puzzle' ∧
             carved difficulty solution puzzle'.
Proof.
  revert clues puzzle.
  induction positions as [|[row col] positions IH];
    intros clues puzzle Hnd Hpos Hinv Hclues; [cbn; eauto|].
  subst clues. cbn [removeClues].
  destruct (Z.leb_spec (clueCount puzzle) (targetClues difficulty)) as [Hle|Hgt];
    [eauto|].
  inversion Hnd as [|? ? Hnotin Hnd']; subst.
  destruct (Hpos row col (or_introl eq_refl)) as (Hr & Hc & Hcell).
  destruct (proj2 Hsol row col Hr Hc) as (n & Hn & Hsolcell).
  rewrite Hsolcell in Hcell. rewrite Hcell. cbv zeta. cbn [orNull].
  destruct Hinv as ((Hg & Hsub) & Hcount & Hbasic & Htarget).
  rewrite (setCell_restore puzzle row col None (Some n)) by assumption.
  set (cleared := setCell puzzle row col None).
  assert (Hgc : grid9 cleared) by (apply grid9_setCell, Hg).
  assert (Hrest : ∀ r c, In (r, c) positions →
            inRange r ∧ inRange c ∧ cellAt puzzle r c = cellAt solution r c)
    by (intros r c Hin; apply Hpos; right; exact Hin).
  assert (Hkeep : ∃ puzzle', removeClues difficulty positions (clueCount puzzle) puzzle
                             = Some puzzle' ∧ carved difficulty solution puzzle').
  { apply IH; try assumption; [|reflexivity].
    exact (conj (conj Hg Hsub) (conj Hcount (conj Hbasic Htarget))). }
  assert (Htake : countSolutions cleared 2 = Some 1 →
            (difficulty ≠ hard → canSolveWithBasicDeduction cleared = Some true) →
            ∃ puzzle', removeClues difficulty positions (clueCount puzzle - 1) cleared
                       = Some puzzle' ∧ carved difficulty solution puzzle').
  { intros Hc1 Hb1. apply IH; try assumption.
    - intros r c Hin. destruct (Hrest r c Hin) as (Hr' & Hc' & E).
      split; [exact Hr'|]. split; [exact Hc'|].
      unfold cleared. rewrite cellAt_setCell_ne; [exact E|].
      intros [= -> ->]. contradiction.
    - split; [|split; [exact Hc1 | split; [exact Hb1|]]].
      + split; [exact Hgc|]. intros r c Hr' Hc'. unfold cleared.
        destruct (decide ((r, c) = (row, col))) as [[= -> ->]|Hne].
        * left. rewrite cellAt_setCell_eq by congruence. reflexivity.
        * rewrite cellAt_setCell_ne by exact Hne. apply Hsub; assumption.
      + unfold cleared. rewrite (clueCount_clear puzzle row col n) by assumption. lia.
    - unfold cleared. apply (clueCount_clear puzzle row col n); assumption. }
  destruct (countSolutions_total cleared Hgc) as [count Ecount].
  rewrite Ecount. cbn [mbind option_bind].
  destruct (Z.eqb_spec count 1) as [->|Hne1]; cbn [negb]; [|exact Hkeep].
  destruct (canSolveWithBasicDeduction_total cleared) as [basic Ebasic].
  destruct difficulty eqn:Ed.
  - rewrite Ebasic. cbn [mbind option_bind].
    destruct basic; cbn [negb]; [|exact Hkeep].
    apply Htake; [exact Ecount | intros _; exact Ebasic].
  - rewrite Ebasic. cbn [mbind option_bind].
    destruct basic; cbn [negb]; [|exact Hkeep].
    apply Htake; [exact Ecount | intros _; exact Ebasic].
  - apply Htake; [exact Ecount | intros H; contradiction].
Qed.
End RemoveClues.

Lemma completes_diagGrid_digitGrid (p1 p2 p3 : list Z) (s : Grid) :
  completes (diagGrid p1 p2 p3) s → perm9 p1 → perm9 p2 → perm9 p3 →
  digitGrid s.
Proof.
  intros (Hs & _ & Hext) H1 H2 H3. split; [exact Hs|]. intros r c Hr Hc.
  specialize (Hext r c Hr Hc).
  rewrite cellAt_diagGrid in Hext;
    try assumption; try apply H1; try apply H2; try apply H3.
  destruct (r / 3 =? c / 3); [|exact Hext].
  eexists. split; [|exact Hext].
  unfold inRange in *.
  assert (Hi : 0 <= r / 3 < 3) by (Z.div_mod_to_equations; lia).
  apply perm9_digitOf; [|Z.div_mod_to_equations; lia].
  pattern (r / 3). apply (sel3_cases (A := Z)); assumption.
Qed.

Lemma generatePuzzle_spec (difficulty : Difficulty) (rnd : Random) :
  ∃ puzzle solution,
    generatePuzzle difficulty rnd = Some (puzzle, solution) ∧
    digitGrid solution ∧ isSolved solution = true ∧
    carved difficulty solution puzzle.
Proof.
  destruct (generateSolvedGrid_spec rnd 0)
    as (p1 & p2 & p3 & s & n & H1 & H2 & H3 & _ & _ & Egen & Hs).
  pose proof (completes_diagGrid_digitGrid p1 p2 p3 s Hs H1 H2 H3) as Hd.
  assert (Hsolved : isSolved s = true) by apply Hs.
  unfold generatePuzzle. rewrite Egen. cbn [mbind option_bind]. rewrite cloneGrid_id.
  destruct (shuffle_cells rnd n) as [Hnd Hrange].
  destruct (shuffle rnd n cells) as [positions n']. cbn [fst] in Hnd, Hrange.
  destruct (removeClues_spec difficulty s Hd positions 81 s) as (puzzle & E & Hinv).
  - exact Hnd.
  - intros row col Hin. destruct (Hrange row col Hin). auto.
  - split; [|split; [|split]].
    + split; [apply Hd|]. intros; right; reflexivity.
    + apply countSolutions_solved; assumption.
    + intros _. apply canSolveWithBasicDeduction_solved; assumption.
    + rewrite clueCount_digitGrid by exact Hd. destruct difficulty; cbn; lia.
  - apply clueCount_digitGrid, Hd.
  - exists puzzle, s. rewrite E. cbn [mbind option_bind]. auto.
Qed.

(** * Further properties of the validator *)

Lemma peerb_spec (row col r c : Z) : peerb row col r c = true ↔ peer row col r c.
Proof.
  unfold peerb, peer.
  rewrite andb_true_iff, negb_true_iff, andb_false_iff, !orb_true_iff,
    andb_true_iff, !Z.eqb_eq, !Z.eqb_neq.
  split.
  - intros [Hne Hp]. split; [intros [= -> ->]; tauto | tauto].
  - intros [Hne Hp]. split; [|tauto].
    destruct (decide (r = row)) as [->|]; [right; congruence | left; assumption].
Qed.

Lemma isValidPlacement_false_peer (g : Grid) (row col num : Z) :
  isValidPlacement g row col num = false →
  ∃ r c, peer row col r c ∧ cellAt g r c = JNum num.
Proof.
  unfold isValidPlacement. intros H.
  destruct (existsb (λ c, negb (c =? col) && _) idx9) eqn:E1.
  { apply existsb_exists in E1 as (c & _ & Hh).
    apply andb_true_iff in Hh as [Hne Hh]. apply holds_true in Hh.
    apply negb_true_iff, Z.eqb_neq in Hne.
    exists row, c. split; [|exact Hh]. split; [congruence | left; reflexivity]. }
  destruct (existsb (λ r, negb (r =? row) && _) idx9) eqn:E2.
  { apply existsb_exists in E2 as (r & _ & Hh).
    apply andb_true_iff in Hh as [Hne Hh]. apply holds_true in Hh.
    apply negb_true_iff, Z.eqb_neq in Hne.
    exists r, col. split; [|exact Hh]. split; [congruence | right; left; reflexivity]. }
  cbv zeta in H.
  destruct (existsb _ [row / 3 * 3; _; _]) eqn:E3; [|discriminate].
  apply existsb_exists in E3 as (r & Hr & Hh).
  apply existsb_exists in Hh as (c & Hc & Hh).
  apply andb_true_iff in Hh as [Hne Hh]. apply holds_true in Hh.
  apply box_spec in Hr. apply box_spec in Hc.
  exists r, c. split; [|exact Hh]. split; [|right; right; split; assumption].
  apply orb_true_iff in Hne as [Hne|Hne];
    apply negb_true_iff, Z.eqb_neq in Hne; congruence.
Qed.

Lemma cellAt_num_in_range (g : Grid) (r c n : Z) :
  grid9 g → cellAt g r c = JNum n → inRange r ∧ inRange c.
Proof.
  intros Hg Hcell.
  destruct (decide (inRange r)) as [Hr|Hr]; [destruct (decide (inRange c)) as [Hc|Hc]|].
  - split; assumption.
  - rewrite (cellAt_out_of_range g r c Hg) in Hcell by (right; exact Hc). discriminate.
  - rewrite (cellAt_out_of_range g r c Hg) in Hcell by (left; exact Hr). discriminate.
Qed.

Lemma getViolations_In (g : Grid) (row col : Z) :
  grid9 g →
  (In (row, col) (getViolations g) ↔
   ∃ num r c, cellAt g row col = JNum num ∧ peer row col r c ∧
              cellAt g r c = JNum num).
Proof.
  intros Hg. unfold getViolations. rewrite filter_In, cells_spec. split.
  - intros [_ Hp]. cbv beta iota in Hp.
    destruct (cellAt g row col) as [| |num] eqn:Hcell; try discriminate.
    apply negb_true_iff, isValidPlacement_false_peer in Hp as (r & c & Hpeer & Hh).
    exists num, r, c. auto.
  - intros (num & r & c & Hcell & Hpeer & Hh). split.
    + exact (cellAt_num_in_range g row col num Hg Hcell).
    + cbv beta iota. rewrite Hcell. apply negb_true_iff.
      destruct (isValidPlacement g row col num) eqn:Hv; [|reflexivity].
      rewrite isValidPlacement_peers in Hv by exact Hg.
      exfalso. exact (Hv r c Hpeer Hh).
Qed.

Lemma filter_length_zero {A : Type} (f : A → bool) (l : list A) (x : A) :
  length (List.filter f l) = 0%nat → In x l → f x = false.
Proof.
  intros Hlen Hin. destruct (f x) eqn:Hfx; [|reflexivity].
  assert (Hx : In x (List.filter f l)) by (apply filter_In; auto).
  destruct (List.filter f l); [destruct Hx | discriminate].
Qed.

Lemma isSolved_no_null_no_violation (g : Grid) :
  grid9 g →
  (isSolved g = true ↔
   (∀ r c, inRange r → inRange c → cellAt g r c ≠ JNull) ∧ getViolations g = []).
Proof.
  intros Hg. rewrite getViolations_nil. split.
  - intros Hs. split; [|exact (isSolved_consistent g Hs)].
    intros r c Hr Hc. rewrite isSolved_spec in Hs.
    destruct (Hs r c Hr Hc) as (n & -> & _). discriminate.
  - intros [Hfull Hcons]. apply isSolved_spec. intros r c Hr Hc.
    destruct (cellAt_cases g r c Hg Hr Hc) as [Hn|[n Hn]].
    + exfalso. exact (Hfull r c Hr Hc Hn).
    + exists n. split; [exact Hn | exact (Hcons r c n Hr Hc Hn)].
Qed.

(** ** Renaming the numbers of a grid *)

Lemma jsIndex_map {A B : Type} (f : A → B) (l : list A) (i : Z) :
  jsIndex (List.map f l) i = option_map f (jsIndex l i).
Proof.
  unfold jsIndex. destruct (i <? 0); [reflexivity|].
  change (List.map f l) with (f <$> l). rewrite list_lookup_fmap.
  destruct (l !! Z.to_nat i); reflexivity.
Qed.

Lemma cellAt_mapCells (f : Z → Z) (g : Grid) (r c : Z) :
  cellAt (mapCells f g) r c =
  match cellAt g r c with JNum n => JNum (f n) | v => v end.
Proof.
  unfold cellAt, mapCells. rewrite jsIndex_map.
  destruct (jsIndex g r) as [rowArr|]; [|reflexivity]. cbn [option_map].
  rewrite jsIndex_map. destruct (jsIndex rowArr c) as [[n|]|]; reflexivity.
Qed.

Lemma holds_mapCells (f : Z → Z) (g : Grid) (r c n : Z) :
  (∀ x y, f x = f y → x = y) →
  holds (mapCells f g) r c (f n) = holds g r c n.
Proof.
  intros Hinj. unfold holds. rewrite cellAt_mapCells.
  destruct (cellAt g r c) as [| |m]; try reflexivity. cbn.
  destruct (Z.eqb_spec m n) as [->|Hne]; [apply Z.eqb_refl|].
  apply Z.eqb_neq. intros Heq. apply Hne, Hinj, Heq.
Qed.

Lemma existsb_ext_all {A : Type} (f g : A → bool) (l : list A) :
  (∀ x, f x = g x) → existsb f l = existsb g l.
Proof. intros H. induction l as [|x l IH]; [reflexivity|]. cbn. rewrite H, IH. reflexivity. Qed.

Lemma isValidPlacement_mapCells (f : Z → Z) (g : Grid) (row col n : Z) :
  (∀ x y, f x = f y → x = y) →
  isValidPlacement (mapCells f g) row col (f n) = isValidPlacement g row col n.
Proof.
  intros Hinj. unfold isValidPlacement. cbv zeta.
  rewrite (existsb_ext_all
    (λ c, negb (c =? col) && holds (mapCells f g) row c (f n))
    (λ c, negb (c =? col) && holds g row c n))
    by (intros c; rewrite holds_mapCells by exact Hinj; reflexivity).
  rewrite (existsb_ext_all
    (λ r, negb (r =? row) && holds (mapCells f g) r col (f n))
    (λ r, negb (r =? row) && holds g r col n))
    by (intros r; rewrite holds_mapCells by exact Hinj; reflexivity).
  rewrite (existsb_ext_all
    (λ r, existsb (λ c, (negb (r =? row) || negb (c =? col)) &&
                        holds (mapCells f g) r c (f n))
                  [col / 3 * 3; col / 3 * 3 + 1; col / 3 * 3 + 2])
    (λ r, existsb (λ c, (negb (r =? row) || negb (c =? col)) && holds g r c n)
                  [col / 3 * 3; col / 3 * 3 + 1; col / 3 * 3 + 2]))
    by (intros r; apply existsb_ext_all; intros c;
        rewrite holds_mapCells by exact Hinj; reflexivity).
  reflexivity.
Qed.

Lemma forallb_ext_all {A : Type} (f g : A → bool) (l : list A) :
  (∀ x, f x = g x) → forallb f l = forallb g l.
Proof. intros H. induction l as [|x l IH]; [reflexivity|]. cbn. rewrite H, IH. reflexivity. Qed.

Lemma filter_ext_all {A : Type} (f g : A → bool) (l : list A) :
  (∀ x, In x l → f x = g x) → List.filter f l = List.filter g l.
Proof.
  intros H. induction l as [|x l IH]; [reflexivity|]. cbn.
  rewrite (H x) by (left; reflexivity). rewrite IH by (intros y Hy; apply H; right; exact Hy).
  reflexivity.
Qed.

Lemma isSolved_mapCells (f : Z → Z) (g : Grid) :
  (∀ x y, f x = f y → x = y) → isSolved (mapCells f g) = isSolved g.
Proof.
  intros Hinj. unfold isSolved.
  apply forallb_ext_all. intros row. apply forallb_ext_all. intros col.
  rewrite cellAt_mapCells. destruct (cellAt g row col) as [| |n]; try reflexivity.
  apply isValidPlacement_mapCells, Hinj.
Qed.

Lemma getViolations_mapCells (f : Z → Z) (g : Grid) :
  (∀ x y, f x = f y → x = y) → getViolations (mapCells f g) = getViolations g.
Proof.
  intros Hinj. unfold getViolations. apply filter_ext_all. intros [row col] _.
  rewrite cellAt_mapCells. destruct (cellAt g row col) as [| |n]; try reflexivity.
  rewrite isValidPlacement_mapCells by exact Hinj. reflexivity.
Qed.

(** ** Units of a solved grid *)

Lemma units_length (unit : list (Z * Z)) : In unit units → length unit = 9%nat.
Proof.
  assert (H : forallb (λ u : list (Z * Z), (length u =? 9)%nat) units = true)
    by (vm_compute; reflexivity).
  rewrite forallb_forall in H. intros Hin. apply Nat.eqb_eq, H, Hin.
Qed.

Lemma units_peers (unit : list (Z * Z)) (row col r c : Z) :
  In unit units → In (row, col) unit → In (r, c) unit →
  (r, c) ≠ (row, col) → peer row col r c.
Proof.
  assert (H : forallb (λ u : list (Z * Z),
            forallb (λ '(row, col),
              forallb (λ '(r, c),
                ((r =? row) && (c =? col)) || peerb row col r c) u) u) units = true)
    by (vm_compute; reflexivity).
  rewrite forallb_forall in H. intros Hu Hin1 Hin2 Hne.
  specialize (H unit Hu). rewrite forallb_forall in H.
  specialize (H (row, col) Hin1). cbv beta iota in H. rewrite forallb_forall in H.
  specialize (H (r, c) Hin2). cbv beta iota in H.
  apply orb_true_iff in H as [H|H]; [|apply peerb_spec, H].
  apply andb_true_iff in H as [H1 H2]. apply Z.eqb_eq in H1, H2. congruence.
Qed.

Lemma units_NoDup (unit : list (Z * Z)) : In unit units → List.NoDup unit.
Proof.
  assert (H : Forall (λ u : list (Z * Z), NoDup u) units)
    by (refine (bool_decide_unpack _ _); vm_compute; exact I).
  rewrite Forall_forall in H. intros Hin. apply NoDup_ListNoDup, H, Hin.
Qed.

Lemma unit_has_digit (s : Grid) (unit : list (Z * Z)) (d : Z) :
  digitGrid s → isSolved s = true → In unit units → 1 <= d <= 9 →
  ∃ r c, In (r, c) unit ∧ cellAt s r c = JNum d.
Proof.
  intros [Hg Hdig] Hs Hu Hd.
  assert (Hp : perm9 (List.map (numberAt s) unit)).
  { split; [rewrite length_map; apply units_length, Hu|]. split.
    - apply NoDup_map_on; [apply units_NoDup, Hu|].
      intros [r c] [r' c'] Hin Hin' Heq.
      destruct (decide ((r', c') = (r, c))) as [->|Hne]; [reflexivity|]. exfalso.
      pose proof (units_peers unit r c r' c' Hu Hin Hin' Hne) as Hpeer.
      destruct (units_in_range unit r c Hu Hin) as [Hr Hc].
      destruct (units_in_range unit r' c' Hu Hin') as [Hr' Hc'].
      rewrite isSolved_spec in Hs.
      destruct (Hs r c Hr Hc) as (n & Hn & Hv).
      destruct (Hs r' c' Hr' Hc') as (n' & Hn' & _).
      unfold numberAt in Heq. cbn [fst snd] in Heq. rewrite Hn, Hn' in Heq. subst n'.
      rewrite isValidPlacement_peers in Hv by exact Hg.
      exact (Hv r' c' Hpeer Hn').
    - intros x Hx. apply in_map_iff in Hx as ([r c] & <- & Hin).
      destruct (units_in_range unit r c Hu Hin) as [Hr Hc].
      destruct (Hdig r c Hr Hc) as (e & He & Hcell).
      unfold numberAt. cbn [fst snd]. rewrite Hcell. exact He. }
  pose proof (perm9_all _ d Hp Hd) as Hin.
  apply in_map_iff in Hin as ([r c] & Heq & Hin). exists r, c. split; [exact Hin|].
  destruct (units_in_range unit r c Hu Hin) as [Hr Hc].
  destruct (Hdig r c Hr Hc) as (e & He & Hcell).
  unfold numberAt in Heq. cbn [fst snd] in Heq. rewrite Hcell in Heq. subst e. exact Hcell.
Qed.

Lemma rowUnit_In (row : Z) :
  inRange row → In (List.map (λ col, (row, col)) idx9) units.
Proof.
  intros Hr. unfold units. apply in_or_app. left. unfold rowUnits.
  apply in_map_iff. exists row. split; [reflexivity | apply idx9_spec, Hr].
Qed.

(** ** Candidates *)

Lemma isValidPlacement_setCell_self (g : Grid) (r c n : Z) (v : Cell) :
  grid9 g → isValidPlacement (setCell g r c v) r c n = isValidPlacement g r c n.
Proof.
  intros Hg. apply eq_true_iff_eq.
  rewrite !isValidPlacement_peers by (try apply grid9_setCell; exact Hg).
  split; intros H r' c' Hp; specialize (H r' c' Hp);
    [rewrite cellAt_setCell_ne in H by apply Hp | rewrite cellAt_setCell_ne by apply Hp];
    exact H.
Qed.

Lemma filter_single {A : Type} (f : A → bool) (l : list A) (d : A) :
  List.NoDup l → In d l → f d = true →
  (∀ e, In e l → e ≠ d → f e = false) → List.filter f l = [d].
Proof.
  induction l as [|x l IH]; [intros _ []|].
  intros Hnd Hin Hd Hothers. inversion Hnd as [|? ? Hnx Hnd']; subst. cbn.
  destruct Hin as [->|Hin].
  - rewrite Hd. f_equal. apply filter_none. intros e He.
    apply Hothers; [right; exact He | intros ->; contradiction].
  - rewrite (Hothers x (or_introl eq_refl)) by (intros ->; contradiction).
    apply IH; [exact Hnd' | exact Hin | exact Hd |].
    intros e He. apply Hothers. right. exact He.
Qed.

Lemma NoDup_digits : List.NoDup digits.
Proof. repeat constructor; simpl; lia. Qed.

Lemma completes_candidate (g s : Grid) (r c : Z) :
  grid9 g → completes g s → inRange r → inRange c → cellAt g r c = JNull →
  ∃ d, cellAt s r c = JNum d ∧ In d (getCandidates g r c).
Proof.
  intros Hg (Hgs & Hsolved & Hext) Hr Hc Hnull.
  pose proof (Hext r c Hr Hc) as Hcell. rewrite Hnull in Hcell.
  destruct Hcell as (d & Hd & Hcell). exists d. split; [exact Hcell|].
  unfold getCandidates. rewrite Hnull. apply filter_In. split; [apply digits_spec, Hd|].
  apply isValidPlacement_peers; [exact Hg|]. intros r' c' Hp Hh.
  destruct (cellAt_num_in_range g r' c' d Hg Hh) as [Hr' Hc'].
  specialize (Hext r' c' Hr' Hc'). rewrite Hh in Hext.
  rewrite isSolved_spec in Hsolved.
  destruct (Hsolved r c Hr Hc) as (n & Hn & Hv). rewrite Hcell in Hn. injection Hn as <-.
  rewrite isValidPlacement_peers in Hv by exact Hgs. exact (Hv r' c' Hp Hext).
Qed.

Lemma getCandidates_cleared (s : Grid) (r c d : Z) :
  digitGrid s → isSolved s = true → inRange r → inRange c →
  cellAt s r c = JNum d → getCandidates (setCell s r c None) r c = [d].
Proof.
  intros Hs Hsolved Hr Hc Hcell. pose proof Hs as [Hg Hdig].
  unfold getCandidates.
  rewrite cellAt_setCell_eq by (rewrite Hcell; discriminate). cbn [cellOf].
  rewrite (filter_ext_all _ (λ num, isValidPlacement s r c num))
    by (intros num _; apply isValidPlacement_setCell_self, Hg).
  assert (Hd : 1 <= d <= 9).
  { destruct (Hdig r c Hr Hc) as (e & He & Hcell'). congruence. }
  apply filter_single.
  - exact NoDup_digits.
  - apply digits_spec, Hd.
  - pose proof (proj1 (isSolved_spec s) Hsolved r c Hr Hc) as (n & Hn & Hv). congruence.
  - intros e He Hne. apply digits_spec in He.
    destruct (unit_has_digit s _ e Hs Hsolved (rowUnit_In r Hr) He) as (r' & c' & Hin & He').
    apply in_map_iff in Hin as (col & [= <- <-] & Hcol).
    destruct (isValidPlacement s r c e) eqn:Hv; [|reflexivity]. exfalso.
    rewrite isValidPlacement_peers in Hv by exact Hg.
    apply (Hv r col); [|exact He'].
    split; [|left; reflexivity]. intros [= ->]. congruence.
Qed.

(** * Further properties of the shuffle and the search *)

Lemma swap_Permutation {A : Type} (l : list A) (i j : nat) : swap l i j ≡ₚ l.
Proof.
  destruct (decide (i < length l ∧ j < length l)%nat) as [[Hi Hj]|Hout].
  - apply Permutation_inj. split; [apply swap_length|].
    exists (λ k, if decide (k = j) then i else if decide (k = i) then j else k).
    split; [|intros k; apply swap_lookup; assumption].
    intros k1 k2 E. repeat case_decide; subst; congruence.
  - unfold swap. destruct (l !! i) eqn:Ei; [|reflexivity].
    destruct (l !! j) eqn:Ej; [|reflexivity].
    apply lookup_lt_Some in Ei. apply lookup_lt_Some in Ej. lia.
Qed.

Lemma shuffleFrom_Permutation {A : Type} (rnd : Random) (i n : nat) (l : list A) :
  (shuffleFrom rnd i n l).1 ≡ₚ l ∧ (shuffleFrom rnd i n l).2 = (n + i)%nat.
Proof.
  revert n l. induction i as [|i IH]; intros n l; [cbn; split; [reflexivity | lia]|].
  cbn [shuffleFrom]. cbv zeta.
  destruct (IH (S n) (swap l (S i) (rnd n mod (S i + 1))%nat)) as [H1 H2].
  split; [rewrite H1; apply swap_Permutation | rewrite H2; lia].
Qed.

Lemma find_None_iff {A : Type} (f : A → bool) (l : list A) :
  (∀ x, In x l → f x = false) → List.find f l = None.
Proof.
  intros H. destruct (List.find f l) as [x|] eqn:E; [|reflexivity].
  apply find_some in E as [Hin Hfx]. rewrite (H x Hin) in Hfx. discriminate.
Qed.

Lemma firstEmpty_full (g : Grid) :
  (∀ r c, inRange r → inRange c → cellAt g r c ≠ JNull) → firstEmpty g = None.
Proof.
  intros H. apply find_None_iff. intros [r c] Hin. apply cells_spec in Hin as [Hr Hc].
  specialize (H r c Hr Hc). destruct (cellAt g r c); try reflexivity. contradiction.
Qed.

Lemma isValidPlacement_fill_other (g : Grid) (row col num r c n : Z) :
  grid9 g → cellAt g row col = JNull → isValidPlacement g row col num = true →
  cellAt g r c = JNum n →
  isValidPlacement (setCell g row col (Some num)) r c n = isValidPlacement g r c n.
Proof.
  intros Hg Hnull Hv Hcell. apply eq_true_iff_eq.
  rewrite !isValidPlacement_peers by (try apply grid9_setCell; exact Hg).
  rewrite isValidPlacement_peers in Hv by exact Hg.
  split; intros H r' c' Hp.
  - destruct (decide ((r', c') = (row, col))) as [[= -> ->]|Hne]; [congruence|].
    specialize (H r' c' Hp). rewrite cellAt_setCell_ne in H by exact Hne. exact H.
  - destruct (decide ((r', c') = (row, col))) as [[= -> ->]|Hne].
    + rewrite cellAt_setCell_eq by (rewrite Hnull; discriminate). cbn [cellOf].
      intros [= ->]. exact (Hv r c (peer_sym _ _ _ _ Hp) Hcell).
    + rewrite cellAt_setCell_ne by exact Hne. exact (H r' c' Hp).
Qed.

Lemma searched_refl (g : Grid) :
  grid9 g → (∀ r c, inRange r → inRange c → cellAt g r c ≠ JNull) → searched g g.
Proof.
  intros Hg Hfull. split; [exact Hg|]. intros r c Hr Hc.
  destruct (cellAt_cases g r c Hg Hr Hc) as [Hn|[n Hn]].
  - exfalso. exact (Hfull r c Hr Hc Hn).
  - rewrite Hn. split; reflexivity.
Qed.

Lemma solutions_searched (depth : nat) (g s : Grid) :
  grid9 g → s ∈ solutions depth g → searched g s.
Proof.
  revert g. induction depth as [|depth IH]; intros g Hg Hin; [inversion Hin|].
  cbn [solutions] in Hin. destruct (firstEmpty g) as [[row col]|] eqn:Hfirst.
  - apply firstEmpty_Some in Hfirst as (Hrow & Hcol & Hnull).
    apply list_elem_of_bind in Hin as (num & Hin & Hnum).
    destruct (isValidPlacement g row col num) eqn:Hv; [|inversion Hin].
    apply list_elem_of_In, digits_spec in Hnum.
    pose proof (grid9_setCell g row col (Some num) Hg) as Hg'.
    destruct (IH _ Hg' Hin) as [Hgs Hcells]. split; [exact Hgs|].
    intros r c Hr Hc. specialize (Hcells r c Hr Hc).
    destruct (decide ((r, c) = (row, col))) as [[= -> ->]|Hne].
    + rewrite cellAt_setCell_eq in Hcells by (rewrite Hnull; discriminate).
      cbn [cellOf] in Hcells. destruct Hcells as [Hcell Hvs]. rewrite Hnull.
      exists num. split; [exact Hnum|]. split; [exact Hcell|].
      rewrite Hvs, isValidPlacement_setCell_self by exact Hg. exact Hv.
    + rewrite cellAt_setCell_ne in Hcells by exact Hne.
      destruct (cellAt g r c) as [| |n] eqn:Hcell; try exact Hcells.
      destruct Hcells as [Hcs Hvs]. split; [exact Hcs|].
      rewrite Hvs. apply isValidPlacement_fill_other; assumption.
  - apply list_elem_of_singleton in Hin as ->.
    apply searched_refl; [exact Hg | exact (firstEmpty_None g Hfirst)].
Qed.

Lemma searched_violations (g s : Grid) :
  grid9 g → searched g s → getViolations s = getViolations g.
Proof.
  intros Hg [Hgs Hcells]. unfold getViolations. apply filter_ext_all.
  intros [r c] Hin. apply cells_spec in Hin as [Hr Hc].
  specialize (Hcells r c Hr Hc). pose proof (cellAt_in_range g r c Hg Hr Hc) as Hdef.
  destruct (cellAt g r c) as [| |n]; [contradiction | |].
  - destruct Hcells as (d & _ & -> & ->). reflexivity.
  - destruct Hcells as [-> ->]. reflexivity.
Qed.

Lemma tally_count {A : Type} (maxCount : Z) (sols : list A) (count : Z) :
  (tally maxCount sols count).2 =
  count + Z.min (Z.of_nat (length sols)) (Z.max 1 (maxCount - count)).
Proof.
  revert count. induction sols as [|s sols IH]; intros count; [cbn; lia|].
  cbn [tally]. cbv zeta. destruct (Z.geb_spec (count + 1) maxCount) as [Hge|Hlt].
  - cbn [snd length]. lia.
  - rewrite IH. cbn [length]. lia.
Qed.

Lemma countSolutions_cap (g : Grid) (maxCount : Z) :
  grid9 g →
  countSolutions g maxCount =
  Some (Z.min (Z.of_nat (length (solutions (S (countEmpty g)) g))) (Z.max 1 maxCount)).
Proof.
  intros Hg. unfold countSolutions. rewrite cloneGrid_id.
  rewrite backtrack_spec by (exact Hg || lia).
  unfold mbind, option_bind; cbv beta iota; cbn [fst snd].
  rewrite tally_count. f_equal. lia.
Qed.

(** * Soundness of the deduction steps *)

Lemma digitGridb_spec (s : Grid) : digitGridb s = true → digitGrid s.
Proof.
  unfold digitGridb. rewrite andb_true_iff, forallb_forall. intros [Hg H].
  split; [apply grid9b_spec, Hg|]. intros r c Hr Hc.
  specialize (H (r, c) (proj2 (cells_spec r c) (conj Hr Hc))). cbv beta iota in H.
  destruct (cellAt s r c) as [| |d]; try discriminate.
  exists d. split; [lia | reflexivity].
Qed.

Lemma digitCluesb_spec (g : Grid) : grid9 g → digitCluesb g = true → digitClues g.
Proof.
  unfold digitCluesb. rewrite forallb_forall. intros Hg H r c n Hcell.
  destruct (cellAt_num_in_range g r c n Hg Hcell) as [Hr Hc].
  specialize (H (r, c) (proj2 (cells_spec r c) (conj Hr Hc))). cbv beta iota in H.
  rewrite Hcell in H. lia.
Qed.

Lemma completes_digitGrid (g s : Grid) :
  grid9 g → digitClues g → completes g s → digitGrid s.
Proof.
  intros Hg Hclues (Hgs & _ & Hext). split; [exact Hgs|].
  intros r c Hr Hc. specialize (Hext r c Hr Hc).
  destruct (cellAt g r c) as [| |n] eqn:Hcell; try exact Hext.
  exists n. split; [exact (Hclues r c n Hcell) | exact Hext].
Qed.

Lemma filledFrom_refl (g : Grid) : filledFrom g g.
Proof. intros r c _ _. destruct (cellAt g r c); auto. Qed.

Lemma filledFrom_trans (a b c : Grid) :
  filledFrom a b → filledFrom b c → filledFrom a c.
Proof.
  intros H1 H2 r col Hr Hc. specialize (H1 r col Hr Hc). specialize (H2 r col Hr Hc).
  destruct (cellAt a r col) as [| |n].
  - rewrite H1 in H2. exact H2.
  - destruct H1 as [H1|(d & Hd & H1)]; rewrite H1 in H2; [exact H2 | right; eauto].
  - rewrite H1 in H2. exact H2.
Qed.

Lemma filledFrom_store (g : Grid) (row col d : Z) :
  cellAt g row col = JNull → 1 <= d <= 9 →
  filledFrom g (setCell g row col (Some d)).
Proof.
  intros Hnull Hd r c _ _.
  destruct (decide ((r, c) = (row, col))) as [[= -> ->]|Hne].
  - rewrite Hnull. right. exists d. split; [exact Hd|].
    rewrite cellAt_setCell_eq by (rewrite Hnull; discriminate). reflexivity.
  - rewrite cellAt_setCell_ne by exact Hne. destruct (cellAt g r c); auto.
Qed.

Lemma completes_store (g s : Grid) (row col d : Z) :
  cellAt g row col = JNull → completes g s → cellAt s row col = JNum d →
  completes (setCell g row col (Some d)) s.
Proof.
  intros Hnull (Hgs & Hsolved & Hext) Hcell. split; [exact Hgs|]. split; [exact Hsolved|].
  intros r c Hr Hc. destruct (decide ((r, c) = (row, col))) as [[= -> ->]|Hne].
  - rewrite cellAt_setCell_eq by (rewrite Hnull; discriminate). exact Hcell.
  - rewrite cellAt_setCell_ne by exact Hne. exact (Hext r c Hr Hc).
Qed.

Lemma filledFrom_completes (g w : Grid) :
  grid9 g → grid9 w → filledFrom g w → isSolved w = true → completes g w.
Proof.
  intros Hg Hw Hfill Hsolved. split; [exact Hw|]. split; [exact Hsolved|].
  intros r c Hr Hc. specialize (Hfill r c Hr Hc).
  pose proof (proj1 (isSolved_spec w) Hsolved r c Hr Hc) as (n & Hn & _).
  pose proof (cellAt_in_range g r c Hg Hr Hc) as Hdef.
  destruct (cellAt g r c) as [| |m]; [contradiction | | exact Hfill].
  destruct Hfill as [Hnull|(d & Hd & Hcell)]; [congruence | eauto].
Qed.

Lemma deduces_refl (ok : Grid → Prop) (st : bool * Grid) : deduces ok st st.
Proof. split; [apply filledFrom_refl|]. auto. Qed.

Lemma deduces_trans (ok : Grid → Prop) (a b c : bool * Grid) :
  deduces ok a b → deduces ok b c → deduces ok a c.
Proof.
  intros (F1 & E1 & G1 & S1) (F2 & E2 & G2 & S2). split; [|split; [|split]].
  - exact (filledFrom_trans _ _ _ F1 F2).
  - intros Hc. pose proof (E2 Hc) as ->. exact (E1 Hc).
  - auto.
  - intros s Hs Hg Hcomp. apply S2; auto.
Qed.

Lemma deduces_weaken (ok ok' : Grid → Prop) (st st' : bool * Grid) :
  (∀ s, ok' s → ok s) → deduces ok st st' → deduces ok' st st'.
Proof. intros Hok (F & E & G & S). split; [exact F|]. split; [exact E|]. split; auto. Qed.

Lemma deduces_store (ok : Grid → Prop) (changed : bool) (g : Grid) (row col d : Z) :
  cellAt g row col = JNull → 1 <= d <= 9 →
  (∀ s, ok s → grid9 g → completes g s → cellAt s row col = JNum d) →
  deduces ok (changed, g) (true, setCell g row col (Some d)).
Proof.
  intros Hnull Hd Hsound. split; [|split; [|split]]; cbn [fst snd].
  - apply filledFrom_store; assumption.
  - discriminate.
  - apply grid9_setCell.
  - intros s Hs Hg Hcomp. apply completes_store; auto.
Qed.

Lemma nakedSingle_deduces (st : bool * Grid) (cell : Z * Z) :
  In cell cells → deduces (λ _, True) st (nakedSingle st cell).
Proof.
  destruct st as [changed g], cell as [row col]. intros Hin.
  apply cells_spec in Hin as [Hr Hc]. unfold nakedSingle.
  destruct (cellAt g row col) as [| |n] eqn:Hcell; cbn [isNull]; try apply deduces_refl.
  destruct (getCandidates g row col) as [|cand [|? ?]] eqn:Hcand; try apply deduces_refl.
  assert (Hd : 1 <= cand <= 9).
  { assert (Hin : In cand (getCandidates g row col)) by (rewrite Hcand; left; reflexivity).
    unfold getCandidates in Hin. rewrite Hcell in Hin.
    apply filter_In in Hin as [Hin _]. apply digits_spec, Hin. }
  apply deduces_store; [exact Hcell | exact Hd |].
  intros s _ Hg Hcomp.
  destruct (completes_candidate g s row col Hg Hcomp Hr Hc Hcell) as (d & Hs & Hin).
  rewrite Hcand in Hin. destruct Hin as [->|[]]. exact Hs.
Qed.

Lemma applyNakedSingles_deduces (g : Grid) :
  deduces (λ _, True) (false, g) (applyNakedSingles g).
Proof.
  unfold applyNakedSingles. apply fold_left_invariant.
  - apply deduces_refl.
  - apply deduces_trans.
  - intros st cell Hin. apply nakedSingle_deduces, Hin.
Qed.

Lemma hiddenSingle_deduces (unit : list (Z * Z)) (st : bool * Grid) (num : Z) :
  In unit units → In num digits → deduces digitGrid st (hiddenSingle unit st num).
Proof.
  destruct st as [changed g]. intros Hu Hnum. unfold hiddenSingle. cbn [snd].
  destruct (List.filter _ unit) as [|[row col] [|? ?]] eqn:Hpos; try apply deduces_refl.
  assert (Hin : In (row, col) (List.filter (λ '(row, col),
            isNull (cellAt g row col) && isValidPlacement g row col num) unit))
    by (rewrite Hpos; left; reflexivity).
  apply filter_In in Hin as [Hin Hp]. cbv beta iota in Hp.
  apply andb_true_iff in Hp as [Hnull Hv].
  destruct (cellAt g row col) as [| |n] eqn:Hcell; try discriminate. clear Hnull.
  apply digits_spec in Hnum.
  apply deduces_store; [exact Hcell | exact Hnum |].
  intros s Hs Hg Hcomp.
  destruct (unit_has_digit s unit num Hs (proj1 (proj2 Hcomp)) Hu Hnum)
    as (r & c & Hrc & Hsrc).
  destruct (units_in_range unit r c Hu Hrc) as [Hr Hc].
  assert (Hkeep : ∀ r' c' n, cellAt g r' c' = JNum n → cellAt s r' c' = JNum n).
  { intros r' c' n Hn. destruct (cellAt_num_in_range g r' c' n Hg Hn) as [Hr' Hc'].
    pose proof (proj2 (proj2 Hcomp) r' c' Hr' Hc') as Hext. rewrite Hn in Hext. exact Hext. }
  assert (Hmem : In (r, c) (List.filter (λ '(row, col),
            isNull (cellAt g row col) && isValidPlacement g row col num) unit)).
  { apply filter_In. split; [exact Hrc|]. cbv beta iota.
    destruct (cellAt_cases g r c Hg Hr Hc) as [Hn|[n Hn]].
    - rewrite Hn. cbn [isNull andb].
      apply isValidPlacement_peers; [exact Hg|]. intros r' c' Hp Hh.
      pose proof (proj1 (isSolved_spec s) (proj1 (proj2 Hcomp)) r c Hr Hc)
        as (m & Hm & Hvs).
      rewrite Hsrc in Hm. injection Hm as <-.
      rewrite isValidPlacement_peers in Hvs by apply Hcomp.
      exact (Hvs r' c' Hp (Hkeep r' c' num Hh)).
    - exfalso. pose proof (Hkeep r c n Hn) as Hs'. rewrite Hsrc in Hs'.
      injection Hs' as <-.
      rewrite isValidPlacement_peers in Hv by exact Hg.
      apply (Hv r c); [|exact Hn].
      apply (units_peers unit row col r c Hu Hin Hrc). intros [= -> ->]. congruence. }
  rewrite Hpos in Hmem. destruct Hmem as [[= <- <-]|[]]. exact Hsrc.
Qed.

Lemma applyHiddenSingles_deduces (g : Grid) :
  deduces digitGrid (false, g) (applyHiddenSingles g).
Proof.
  unfold applyHiddenSingles.
  apply (fold_left_invariant (deduces digitGrid)
           (λ st unit, fold_left (hiddenSingle unit) digits st)).
  - apply deduces_refl.
  - apply deduces_trans.
  - intros st unit Hu. apply (fold_left_invariant (deduces digitGrid) (hiddenSingle unit)).
    + apply deduces_refl.
    + apply deduces_trans.
    + intros st' num Hnum. apply hiddenSingle_deduces; assumption.
Qed.

(** * Soundness of the classifier loops *)

Lemma refines_refl (g : Grid) : refines g g.
Proof. split; [apply filledFrom_refl|]. auto. Qed.

Lemma refines_trans (a b c : Grid) : refines a b → refines b c → refines a c.
Proof.
  intros (F1 & G1 & S1) (F2 & G2 & S2). split; [|split].
  - exact (filledFrom_trans _ _ _ F1 F2).
  - auto.
  - intros s Hs Hg Hcomp. apply S2; auto.
Qed.

Lemma deduces_refines (ok : Grid → Prop) (st st' : bool * Grid) :
  (∀ s, digitGrid s → ok s) → deduces ok st st' → refines st.2 st'.2.
Proof. intros Hok (F & _ & G & S). split; [exact F|]. split; auto. Qed.

Lemma applyNakedSingles_refines (g g1 : Grid) (p1 : bool) :
  applyNakedSingles g = (p1, g1) → refines g g1 ∧ (p1 = false → g1 = g).
Proof.
  intros E. pose proof (applyNakedSingles_deduces g) as H. rewrite E in H. split.
  - exact (deduces_refines _ _ _ (λ _ _, I) H).
  - intros ->. destruct H as (_ & Heq & _). specialize (Heq eq_refl). congruence.
Qed.

Lemma applyHiddenSingles_refines (g g2 : Grid) (p2 : bool) :
  applyHiddenSingles g = (p2, g2) → refines g g2 ∧ (p2 = false → g2 = g).
Proof.
  intros E. pose proof (applyHiddenSingles_deduces g) as H. rewrite E in H. split.
  - exact (deduces_refines _ _ _ (λ _ Hs, Hs) H).
  - intros ->. destruct H as (_ & Heq & _). specialize (Heq eq_refl). congruence.
Qed.

Lemma deduce_refines (rounds : nat) (g w : Grid) :
  deduce rounds g = Some w → refines g w.
Proof.
  revert g. induction rounds as [|rounds IH]; intros g; [discriminate|].
  cbn [deduce]. destruct (applyNakedSingles g) as [p1 g1] eqn:E1.
  destruct (applyHiddenSingles g1) as [p2 g2] eqn:E2.
  apply applyNakedSingles_refines in E1 as [R1 _].
  apply applyHiddenSingles_refines in E2 as [R2 _].
  pose proof (refines_trans _ _ _ R1 R2) as R.
  destruct (p1 || p2).
  - intros Hd. exact (refines_trans _ _ _ R (IH _ Hd)).
  - intros [= <-]. exact R.
Qed.

Lemma refines_solved_unique (g w : Grid) :
  grid9 g → digitClues g → refines g w → isSolved w = true →
  completes g w ∧ ∀ s, completes g s → s = w.
Proof.
  intros Hg Hclues (Hfill & Hgw & Hsound) Hsolved. specialize (Hgw Hg).
  split; [apply filledFrom_completes; assumption|].
  intros s Hs. pose proof (completes_digitGrid g s Hg Hclues Hs) as Hds.
  apply (completes_full w s Hgw (isSolved_consistent w Hsolved)).
  - intros r c Hr Hc.
    pose proof (proj1 (isSolved_spec w) Hsolved r c Hr Hc) as (n & -> & _). discriminate.
  - apply Hsound; assumption.
Qed.

Lemma unique_solution_counted (g w : Grid) :
  grid9 g → completes g w → (∀ s, completes g s → s = w) →
  countSolutions g 2 = Some 1 ∧ solve g = Some (Some w).
Proof.
  intros Hg Hw Huniq. pose proof (completes_consistent g w Hg Hw) as Hcons.
  rewrite countSolutions_spec, solve_spec by exact Hg.
  set (sols := solutions (S (countEmpty g)) g).
  assert (Hin : ∀ s, s ∈ sols ↔ completes g s)
    by (intros s; apply solutions_sound_complete; [assumption | assumption | lia]).
  assert (Hnd : NoDup sols)
    by (apply solutions_NoDup; [assumption | assumption | lia]).
  clearbody sols. destruct sols as [|s1 [|s2 sols]].
  - apply Hin in Hw. inversion Hw.
  - assert (s1 = w) as -> by (apply Huniq, Hin; left). split; reflexivity.
  - exfalso. inversion Hnd as [|? ? Hn _]; subst. apply Hn.
    rewrite (Huniq s1), <- (Huniq s2); [left | |]; apply Hin; [right; left | left].
Qed.

Lemma hasContradiction_sound (g s : Grid) :
  grid9 g → hasContradiction g = true → ¬ completes g s.
Proof.
  intros Hg Hc Hcomp. unfold hasContradiction in Hc.
  apply existsb_exists in Hc as ([r c] & Hin & Hc). apply cells_spec in Hin as [Hr Hcol].
  apply andb_true_iff in Hc as [Hnull Hlen].
  destruct (cellAt g r c) as [| |n] eqn:Hcell; try discriminate.
  destruct (completes_candidate g s r c Hg Hcomp Hr Hcol Hcell) as (d & _ & Hd).
  destruct (getCandidates g r c); [destruct Hd | discriminate].
Qed.

Lemma leadsToContradiction_sound (rounds : nat) (g s : Grid) :
  grid9 g → leadsToContradiction rounds g = Some true → digitGrid s →
  ¬ completes g s.
Proof.
  revert g. induction rounds as [|rounds IH]; intros g Hg; [discriminate|].
  cbn [leadsToContradiction]. destruct (applyNakedSingles g) as [p1 g1] eqn:E1.
  apply applyNakedSingles_refines in E1 as [R1 _].
  assert (Hstep : ∀ (progress : bool) (g2 : Grid), refines g g2 →
            (if hasContradiction g2 then Some true
             else if progress then leadsToContradiction rounds g2 else Some false)
            = Some true → digitGrid s → ¬ completes g s).
  { intros progress g2 (_ & Hg2 & Hsound) Hres Hs Hcomp.
    specialize (Hg2 Hg). specialize (Hsound s Hs Hg Hcomp).
    destruct (hasContradiction g2) eqn:Hc.
    - exact (hasContradiction_sound g2 s Hg2 Hc Hsound).
    - destruct progress; [|discriminate]. exact (IH g2 Hg2 Hres Hs Hsound). }
  destruct p1.
  - exact (Hstep true g1 R1).
  - destruct (applyHiddenSingles g1) as [p2 g2] eqn:E2.
    apply applyHiddenSingles_refines in E2 as [R2 _].
    exact (Hstep p2 g2 (refines_trans _ _ _ R1 R2)).
Qed.

Lemma contradicts_sound (g s : Grid) (row col candidate : Z) :
  grid9 g → contradicts g row col candidate = Some true → digitGrid s →
  ¬ completes (setCell g row col (Some candidate)) s.
Proof.
  intros Hg. unfold contradicts. rewrite cloneGrid_id.
  apply leadsToContradiction_sound, grid9_setCell, Hg.
Qed.

Lemma refines_force (g : Grid) (row col a b : Z) :
  inRange row → inRange col → getCandidates g row col = [a; b] ∨
                               getCandidates g row col = [b; a] →
  (grid9 g → ∀ s, digitGrid s → ¬ completes (setCell g row col (Some a)) s) →
  refines g (setCell g row col (Some b)).
Proof.
  intros Hr Hc Hcand Hno.
  assert (Hnull : cellAt g row col = JNull).
  { destruct Hcand as [H|H]; exact (proj1 (getCandidates_two _ _ _ _ _ H)). }
  assert (Hb : In b (getCandidates g row col))
    by (destruct Hcand as [-> | ->]; cbn; auto).
  split; [|split].
  - apply filledFrom_store; [exact Hnull|].
    unfold getCandidates in Hb. rewrite Hnull in Hb.
    apply filter_In in Hb as [Hb _]. apply digits_spec, Hb.
  - apply grid9_setCell.
  - intros s Hs Hg Hcomp. apply completes_store; [exact Hnull | exact Hcomp |].
    destruct (completes_candidate g s row col Hg Hcomp Hr Hc Hnull) as (d & Hd & Hin).
    assert (d = a ∨ d = b) as [->| ->].
    { destruct Hcand as [E|E]; rewrite E in Hin;
        destruct Hin as [<-|[<-|[]]]; auto. }
    + exfalso. apply (Hno Hg s Hs). apply completes_store; assumption.
    + exact Hd.
Qed.

Lemma lookaheadCell_refines (g g' : Grid) (row col : Z) (progress : bool) :
  inRange row → inRange col →
  lookaheadCell g row col = Some (progress, g') →
  refines g g' ∧ (progress = false → g' = g) ∧
  (progress = true → (countEmpty g' < countEmpty g)%nat).
Proof.
  intros Hr Hc. unfold lookaheadCell.
  assert (Hsame : Some (false, g) = Some (progress, g') →
            refines g g' ∧ (progress = false → g' = g) ∧
            (progress = true → (countEmpty g' < countEmpty g)%nat)).
  { intros [= <- <-]. split; [apply refines_refl|]. split; [reflexivity | discriminate]. }
  destruct (isNull (cellAt g row col)) eqn:Hnull; [|exact Hsame].
  destruct (getCandidates g row col) as [|a [|b [|? ?]]] eqn:Hcand;
    cbn [length Nat.eqb]; try exact Hsame.
  destruct (getCandidates_two _ _ _ _ _ Hcand) as [Hcell Hab].
  assert (Hforced : ∀ x y, x ≠ y →
            (getCandidates g row col = [x; y] ∨ getCandidates g row col = [y; x]) →
            contradicts g row col x = Some true →
            Some (true, setCell g row col (Some y)) = Some (progress, g') →
            refines g g' ∧ (progress = false → g' = g) ∧
            (progress = true → (countEmpty g' < countEmpty g)%nat)).
  { intros x y Hxy Hc' Hx [= <- <-]. split; [|split; [discriminate|]].
    - apply (refines_force g row col x y Hr Hc Hc').
      intros Hg s Hs. exact (contradicts_sound g s row col x Hg Hx Hs).
    - intros _. rewrite (countEmpty_fill g row col y Hr Hc Hcell). lia. }
  cbn [tryCandidates].
  destruct (contradicts g row col a) as [[|]|] eqn:Ha; cbn [mbind option_bind];
    [| |discriminate].
  - cbn [List.find]. rewrite Z.eqb_refl. cbn [negb].
    destruct (Z.eqb_spec b a) as [->|_]; [contradiction|]. cbn [negb].
    apply (Hforced a b Hab); [left; exact Hcand | exact Ha].
  - destruct (contradicts g row col b) as [[|]|] eqn:Hb; cbn [mbind option_bind];
      [| exact Hsame | discriminate].
    cbn [List.find]. destruct (Z.eqb_spec a b) as [->|_]; [contradiction|]. cbn [negb].
    apply (Hforced b a); [congruence | right; rewrite <- Hcand; reflexivity | exact Hb].
Qed.

Lemma lookaheadCell_total (g : Grid) (row col : Z) :
  ∃ r, lookaheadCell g row col = Some r.
Proof.
  unfold lookaheadCell. destruct (isNull (cellAt g row col)); [|eauto].
  destruct (length (getCandidates g row col) =? 2)%nat; [|eauto].
  generalize (getCandidates g row col) at 2. intros remaining.
  induction remaining as [|candidate remaining IH]; [cbn; eauto|].
  cbn [tryCandidates].
  destruct (contradicts_total g row col candidate) as [b ->]. cbn [mbind option_bind].
  destruct b; [eauto | exact IH].
Qed.

Lemma lookaheadScan_refines (todo : list (Z * Z)) (g g' : Grid) (progress : bool) :
  (∀ row col, In (row, col) todo → inRange row ∧ inRange col) →
  lookaheadScan g todo = Some (progress, g') →
  refines g g' ∧ (progress = false → g' = g) ∧
  (progress = true → (countEmpty g' < countEmpty g)%nat).
Proof.
  revert g. induction todo as [|[row col] todo IH]; intros g Hrange.
  - intros [= <- <-]. split; [apply refines_refl|]. split; [reflexivity | discriminate].
  - cbn [lookaheadScan].
    destruct (lookaheadCell g row col) as [[p g1]|] eqn:Hcell; [|discriminate].
    cbn [mbind option_bind].
    destruct (Hrange row col (or_introl eq_refl)) as [Hr Hc].
    destruct (lookaheadCell_refines g g1 row col p Hr Hc Hcell) as (R & Hsame & Hless).
    destruct p.
    + intros [= <- <-]. split; [exact R|]. split; [discriminate | exact Hless].
    + rewrite (Hsame eq_refl). apply IH. intros r c Hin. apply Hrange. right. exact Hin.
Qed.

Lemma lookaheadScan_total (todo : list (Z * Z)) (g : Grid) :
  ∃ r, lookaheadScan g todo = Some r.
Proof.
  revert g. induction todo as [|[row col] todo IH]; intros g; [cbn; eauto|].
  cbn [lookaheadScan]. destruct (lookaheadCell_total g row col) as [[p g1] ->].
  cbn [mbind option_bind]. destruct p; [eauto | apply IH].
Qed.

Lemma lookaheadLoop_refines (rounds : nat) (g w : Grid) :
  lookaheadLoop rounds g = Some w → refines g w.
Proof.
  revert g. induction rounds as [|rounds IH]; intros g; [discriminate|].
  cbn [lookaheadLoop]. destruct (applyNakedSingles g) as [p1 g1] eqn:E1.
  destruct (applyHiddenSingles g1) as [p2 g2] eqn:E2.
  apply applyNakedSingles_refines in E1 as [R1 _].
  apply applyHiddenSingles_refines in E2 as [R2 _].
  pose proof (refines_trans _ _ _ R1 R2) as R.
  destruct (p1 || p2).
  - intros Hl. exact (refines_trans _ _ _ R (IH _ Hl)).
  - destruct (lookaheadScan g2 cells) as [[p g3]|] eqn:Hscan; [|discriminate].
    cbn [mbind option_bind].
    destruct (lookaheadScan_refines cells g2 g3 p (λ r c, proj1 (cells_spec r c)) Hscan)
      as (R3 & _ & _).
    pose proof (refines_trans _ _ _ R R3) as R'.
    destruct p.
    + intros Hl. exact (refines_trans _ _ _ R' (IH _ Hl)).
    + intros [= <-]. exact R'.
Qed.

Lemma lookaheadLoop_total (rounds : nat) (g : Grid) :
  (countEmpty g < rounds)%nat → ∃ w, lookaheadLoop rounds g = Some w.
Proof.
  revert g. induction rounds as [|rounds IH]; intros g Hlt; [lia|].
  cbn [lookaheadLoop]. destruct (applyNakedSingles g) as [p1 g1] eqn:E1.
  destruct (applyHiddenSingles g1) as [p2 g2] eqn:E2.
  destruct (round_fills g g1 g2 p1 p2 E1 E2) as [Hle Hless].
  destruct (p1 || p2) eqn:Hp.
  - apply IH. specialize (Hless eq_refl). lia.
  - destruct (lookaheadScan_total cells g2) as [[p g3] Hscan]. rewrite Hscan.
    cbn [mbind option_bind].
    destruct (lookaheadScan_refines cells g2 g3 p (λ r c, proj1 (cells_spec r c)) Hscan)
      as (_ & _ & Hless3).
    destruct p; [|eauto]. apply IH. specialize (Hless3 eq_refl). lia.
Qed.

(** * The game keeps its clues *)

Lemma counted_one_unique (g s s' : Grid) :
  grid9 g → countSolutions g 2 = Some 1 →
  completes g s → completes g s' → s = s'.
Proof.
  intros Hg Hcount Hs Hs'. pose proof (completes_consistent g s Hg Hs) as Hcons.
  rewrite countSolutions_spec in Hcount by exact Hg.
  set (sols := solutions (S (countEmpty g)) g) in Hcount.
  assert (Hin : ∀ x, x ∈ sols ↔ completes g x)
    by (intros x; apply solutions_sound_complete; [assumption | assumption | lia]).
  apply Hin in Hs. apply Hin in Hs'. clearbody sols.
  destruct sols as [|s1 [|s2 sols]].
  - inversion Hs.
  - apply list_elem_of_singleton in Hs. apply list_elem_of_singleton in Hs'. congruence.
  - cbn [length] in Hcount. injection Hcount as Hcount. lia.
Qed.

Lemma isFixed_markFixed (g : Grid) (r c : Z) :
  App.isFixed (App.markFixed g) r c =
  match cellAt g r c with JNum _ => true | _ => false end.
Proof.
  unfold App.isFixed, App.markFixed, cellAt. rewrite jsIndex_map.
  destruct (jsIndex g r) as [rowArr|]; [|reflexivity]. cbn [option_map].
  rewrite jsIndex_map. destruct (jsIndex rowArr c) as [[n|]|]; reflexivity.
Qed.

Lemma started_checkCompletion (st : App.State) :
  App.started st → App.started (App.checkCompletion st).
Proof.
  unfold App.checkCompletion. intros H.
  destruct ((0 <? length (App.current st))%nat && isSolved (App.current st));
    exact H.
Qed.

Lemma startNewGame_started (rnd : Random) (diff : Difficulty) (st : App.State) :
  ∃ st', App.startNewGame rnd diff st = Some st' ∧ App.started st' ∧
         App.current st' = App.puzzle st' ∧ App.selectedCell st' = None ∧
         App.showCongrats st' = false ∧ App.difficulty st' = diff.
Proof.
  destruct (generatePuzzle_spec diff rnd)
    as (puzzle & solution & Hgen & Hsol & Hsolved & Hcarved & Hcount & _).
  unfold App.startNewGame. rewrite Hgen. cbn [mbind option_bind].
  eexists. split; [reflexivity|]. rewrite cloneGrid_id.
  split; [|cbn [App.puzzle App.solution App.current App.fixedCells App.selectedCell
         App.showSettings App.showCongrats App.difficulty]; auto].
  unfold App.started. cbn [App.puzzle App.solution App.current App.fixedCells App.selectedCell
         App.showSettings App.showCongrats App.difficulty].
  split; [exact Hsol|]. split; [exact Hsolved|]. split; [exact Hcarved|].
  split; [exact Hcount|]. split; [reflexivity|]. split; [apply Hcarved|].
  split; [auto | discriminate].
Qed.

Lemma step_started (st st' : App.State) :
  App.started st → App.step st st' → App.started st'.
Proof.
  intros Hst Hstep.
  pose proof Hst as (Hsol & Hsolved & Hcarved & Hcount & Hfixed & Hg & Hclues & Hsel).
  destruct Hstep as [st row col Hshown | st num | st st' confirmed rnd diff Hnew
                    | st st' rnd diff Hnew | st confirmed].
  - unfold App.handleCellClick.
    destruct (App.isFixed (App.fixedCells st) row col) eqn:Hfix; [exact Hst|].
    cbn [negb]. unfold App.started. cbn [App.puzzle App.solution App.current App.fixedCells App.selectedCell
         App.showSettings App.showCongrats App.difficulty].
    repeat (split; [assumption|]). intros ? ? [= <- <-]. auto.
  - apply started_checkCompletion. unfold App.handleNumberInput.
    destruct (App.selectedCell st) as [[row col]|] eqn:Hs; [|exact Hst].
    destruct (Hsel row col eq_refl) as [Hshown Hfix]. rewrite Hfix. cbn [negb].
    cbv zeta. rewrite cloneGrid_id. unfold App.started. cbn [App.puzzle App.solution App.current App.fixedCells App.selectedCell
         App.showSettings App.showCongrats App.difficulty].
    repeat (split; [assumption|]). split; [apply grid9_setCell, Hg|]. split.
    + intros r c n Hn. rewrite cellAt_setCell_ne; [exact (Hclues r c n Hn)|].
      intros [= -> ->]. rewrite Hfixed, isFixed_markFixed, Hn in Hfix. discriminate.
    + intros ? ? [= <- <-].
      split; [|exact Hfix]. rewrite cellAt_setCell_eq by exact Hshown.
      destruct num; discriminate.
  - apply started_checkCompletion. unfold App.handleNewGame in Hnew.
    destruct (startNewGame_started rnd diff st) as (st1 & Hstart & Hst1 & _).
    rewrite Hstart in Hnew.
    destruct (App.hasUserEntries st); [destruct confirmed|];
      injection Hnew as <-; assumption.
  - apply started_checkCompletion.
    destruct (startNewGame_started rnd diff st) as (st1 & Hstart & Hst1 & _).
    rewrite Hstart in Hnew. injection Hnew as <-. exact Hst1.
  - apply started_checkCompletion. unfold App.handleReset.
    destruct confirmed; [|exact Hst].
    unfold App.started, App.resetGame. cbn [App.puzzle App.solution App.current App.fixedCells App.selectedCell
         App.showSettings App.showCongrats App.difficulty].
    rewrite cloneGrid_id.
    repeat (split; [assumption|]). split; [apply Hcarved|].
    split; [auto | discriminate].
Qed.

Lemma steps_started (st st' : App.State) :
  App.started st → App.steps st st' → App.started st'.
Proof.
  intros Hst Hsteps. induction Hsteps as [|st st' st'' _ IH Hstep]; [exact Hst|].
  exact (step_started st' st'' (IH Hst) Hstep).
Qed.

Lemma started_solved (st : App.State) :
  App.started st → digitGrid (App.current st) → isSolved (App.current st) = true →
  App.current st = App.solution st.
Proof.
  intros (Hsol & Hsolved & Hcarved & Hcount & _ & Hg & Hclues & _) Hdigits Hcur.
  apply (counted_one_unique (App.puzzle st)); [apply Hcarved | exact Hcount | |].
  - split; [exact Hg|]. split; [exact Hcur|]. intros r c Hr Hc.
    destruct (cellAt (App.puzzle st) r c) as [| |n] eqn:Hcell;
      [apply Hdigits; assumption | apply Hdigits; assumption | exact (Hclues r c n Hcell)].
  - apply carvedFrom_completes; assumption.
Qed.

Lemma started_hasUserEntries (st : App.State) :
  App.started st →
  (App.hasUserEntries st = false ↔ App.current st = App.puzzle st).
Proof.
  intros (_ & _ & Hcarved & _ & Hfixed & Hg & Hclues & _).
  destruct Hcarved as [Hgp _]. unfold App.hasUserEntries. rewrite existsb_false. split.
  - intros H. apply grid_ext; [exact Hg | exact Hgp|]. intros r c Hr Hc.
    specialize (H (r, c) (proj2 (cells_spec r c) (conj Hr Hc))). cbv beta iota in H.
    rewrite Hfixed, isFixed_markFixed in H.
    destruct (cellAt_cases (App.puzzle st) r c Hgp Hr Hc) as [Hn|[n Hn]].
    + rewrite Hn in H |- *. cbn [negb andb] in H.
      destruct (cellAt (App.current st) r c); try discriminate. reflexivity.
    + rewrite Hn. exact (Hclues r c n Hn).
  - intros Heq [r c] Hin. apply cells_spec in Hin as [Hr Hc].
    rewrite Hfixed, isFixed_markFixed, Heq.
    destruct (cellAt_cases (App.puzzle st) r c Hgp Hr Hc) as [Hn|[n Hn]];
      rewrite Hn; reflexivity.
Qed.

(** * Clues that cannot be removed *)

Lemma carvedFrom_trans (a b c : Grid) :
  carvedFrom a b → carvedFrom b c → carvedFrom a c.
Proof.
  intros [_ H1] [Hc H2]. split; [exact Hc|]. intros r col Hr Hcol.
  destruct (H2 r col Hr Hcol) as [E|E]; [left; exact E|].
  destruct (H1 r col Hr Hcol) as [E'|E']; [left | right]; congruence.
Qed.

Lemma carvedFrom_clear (g g' : Grid) (row col : Z) :
  grid9 g → inRange row → inRange col →
  carvedFrom g g' → carvedFrom (setCell g row col None) (setCell g' row col None).
Proof.
  intros Hg Hr Hc [Hg' Hsub]. split; [apply grid9_setCell, Hg'|].
  intros r c Hr' Hc'. destruct (decide ((r, c) = (row, col))) as [[= -> ->]|Hne].
  - left. rewrite cellAt_setCell_eq by (apply cellAt_in_range; assumption). reflexivity.
  - rewrite !cellAt_setCell_ne by exact Hne. apply Hsub; assumption.
Qed.

Lemma carvedFrom_keeps_solution (g g' s : Grid) :
  carvedFrom g g' → digitGrid s → completes g s → completes g' s.
Proof.
  intros [_ Hsub] [_ Hd] (Hgs & Hsolved & Hext).
  split; [exact Hgs|]. split; [exact Hsolved|]. intros r c Hr Hc.
  destruct (Hsub r c Hr Hc) as [E|E]; rewrite E; [apply Hd; assumption|].
  exact (Hext r c Hr Hc).
Qed.

Lemma carvedFrom_digitClues (solution puzzle : Grid) :
  digitGrid solution → carvedFrom solution puzzle → digitClues puzzle.
Proof.
  intros [_ Hd] [Hg Hsub] r c n Hcell.
  destruct (cellAt_num_in_range puzzle r c n Hg Hcell) as [Hr Hc].
  destruct (Hsub r c Hr Hc) as [E|E]; [congruence|].
  destruct (Hd r c Hr Hc) as (d & Hd1 & Hd2). congruence.
Qed.

Lemma not_one_ambiguous (g s : Grid) (count : Z) :
  grid9 g → completes g s → countSolutions g 2 = Some count → count ≠ 1 →
  ambiguous g.
Proof.
  intros Hg Hs Hcount Hne. pose proof (completes_consistent g s Hg Hs) as Hcons.
  rewrite countSolutions_spec in Hcount by exact Hg.
  set (sols := solutions (S (countEmpty g)) g) in Hcount.
  assert (Hin : ∀ x, x ∈ sols ↔ completes g x)
    by (intros x; apply solutions_sound_complete; [assumption | assumption | lia]).
  assert (Hnd : NoDup sols)
    by (apply solutions_NoDup; [assumption | assumption | lia]).
  apply Hin in Hs. clearbody sols. destruct sols as [|s1 [|s2 sols]].
  - inversion Hs.
  - cbn [length] in Hcount. injection Hcount as <-. contradiction Hne. reflexivity.
  - exists s1, s2. split; [|split; apply Hin; [left | right; left]].
    inversion Hnd as [|? ? Hn _]; subst. intros ->. apply Hn. left.
Qed.

Lemma ambiguous_counted (g : Grid) :
  grid9 g → ambiguous g → countSolutions g 2 = Some 2.
Proof.
  intros Hg (s1 & s2 & Hne & H1 & H2).
  pose proof (completes_consistent g s1 Hg H1) as Hcons.
  rewrite countSolutions_spec by exact Hg.
  set (sols := solutions (S (countEmpty g)) g).
  assert (Hin : ∀ x, x ∈ sols ↔ completes g x)
    by (intros x; apply solutions_sound_complete; [assumption | assumption | lia]).
  apply Hin in H1. apply Hin in H2. clearbody sols.
  destruct sols as [|a [|b sols]].
  - inversion H1.
  - apply list_elem_of_singleton in H1. apply list_elem_of_singleton in H2. congruence.
  - cbn [length]. f_equal. lia.
Qed.

Section HardClues.
Variable solution : Grid.
Hypothesis Hsol : digitGrid solution.
Hypothesis Hsolved : isSolved solution = true.

Lemma removeClues_hard_minimal (positions : list (Z * Z)) (clues : Z)
    (puzzle puzzle' : Grid) :
  List.NoDup positions →
  (∀ row col, In (row, col) positions →
     inRange row ∧ inRange col ∧ cellAt puzzle row col = cellAt solution row col) →
  carvedFrom solution puzzle → clueCount puzzle = clues →
  removeClues hard positions clues puzzle = Some puzzle' →
  carvedFrom puzzle puzzle' ∧
  (targetClues hard < clueCount puzzle' →
   ∀ row col n, In (row, col) positions → cellAt puzzle' row col = JNum n →
     ambiguous (setCell puzzle' row col None)).
Proof.
  revert clues puzzle.
  induction positions as [|[row col] positions IH];
    intros clues puzzle Hnd Hpos Hcarved Hclues.
  { intros [= <-]. split; [|intros _ ? ? ? []].
    split; [apply Hcarved | intros; right; reflexivity]. }
  subst clues. cbn [removeClues].
  destruct (Z.leb_spec (clueCount puzzle) (targetClues hard)) as [Hle|Hgt].
  { intros [= <-]. split; [|intros Hlt; lia].
    split; [apply Hcarved | intros; right; reflexivity]. }
  inversion Hnd as [|? ? Hnotin Hnd']; subst.
  destruct (Hpos row col (or_introl eq_refl)) as (Hr & Hc & Hcell).
  destruct (proj2 Hsol row col Hr Hc) as (n & Hn & Hsolcell).
  rewrite Hsolcell in Hcell. rewrite Hcell. cbv zeta. cbn [orNull].
  pose proof Hcarved as [Hg Hsub].
  rewrite (setCell_restore puzzle row col None (Some n)) by assumption.
  set (cleared := setCell puzzle row col None).
  assert (Hgc : grid9 cleared) by (apply grid9_setCell, Hg).
  assert (Hcc : carvedFrom puzzle cleared).
  { split; [exact Hgc|]. intros r c Hr' Hc'. unfold cleared.
    destruct (decide ((r, c) = (row, col))) as [[= -> ->]|Hne].
    - left. rewrite cellAt_setCell_eq by congruence. reflexivity.
    - right. apply cellAt_setCell_ne, Hne. }
  assert (Hrest : ∀ r c, In (r, c) positions →
            inRange r ∧ inRange c ∧ cellAt puzzle r c = cellAt solution r c)
    by (intros r c Hin; apply Hpos; right; exact Hin).
  destruct (countSolutions_total cleared Hgc) as [count Ecount].
  rewrite Ecount. cbn [mbind option_bind].
  destruct (Z.eqb_spec count 1) as [->|Hne1]; cbn [negb].
  - intros Hrem.
    destruct (IH (clueCount puzzle - 1) cleared Hnd') as [Hc' Hmin]; try assumption.
    + intros r c Hin. destruct (Hrest r c Hin) as (Hr' & Hc' & E).
      split; [exact Hr'|]. split; [exact Hc'|].
      unfold cleared. rewrite cellAt_setCell_ne; [exact E|].
      intros [= -> ->]. contradiction.
    + exact (carvedFrom_trans _ _ _ Hcarved Hcc).
    + unfold cleared. apply (clueCount_clear puzzle row col n); assumption.
    + split; [exact (carvedFrom_trans _ _ _ Hcc Hc')|].
      intros Hlt r c m [[= <- <-]|Hin] Hm; [|exact (Hmin Hlt r c m Hin Hm)].
      exfalso. destruct Hc' as [_ Hsub']. destruct (Hsub' row col Hr Hc) as [E|E].
      * congruence.
      * unfold cleared in E. rewrite cellAt_setCell_eq in E by congruence.
        cbn [cellOf] in E. congruence.
  - intros Hrem.
    destruct (IH (clueCount puzzle) puzzle Hnd' Hrest Hcarved eq_refl Hrem)
      as [Hc' Hmin].
    split; [exact Hc'|].
    intros Hlt r c m [[= <- <-]|Hin] Hm; [|exact (Hmin Hlt r c m Hin Hm)].
    assert (Hamb : ambiguous cleared).
    { apply (not_one_ambiguous cleared solution count Hgc); [|exact Ecount | exact Hne1].
      apply carvedFrom_completes; [exact Hsol | exact Hsolved |].
      exact (carvedFrom_trans _ _ _ Hcarved Hcc). }
    destruct Hamb as (s1 & s2 & Hne & H1 & H2).
    assert (Hclues : digitClues cleared).
    { apply (carvedFrom_digitClues solution); [exact Hsol|].
      exact (carvedFrom_trans _ _ _ Hcarved Hcc). }
    pose proof (carvedFrom_clear puzzle puzzle' row col Hg Hr Hc Hc') as Hcl.
    fold cleared in Hcl.
    exists s1, s2. split; [exact Hne|].
    split; apply (carvedFrom_keeps_solution cleared); try assumption;
      apply (completes_digitGrid cleared); assumption.
Qed.
End HardClues.

(** * Facts about the concrete grids *)

Lemma carvedFrom_cleared (g : Grid) (row col : Z) :
  grid9 g → inRange row → inRange col → carvedFrom g (setCell g row col None).
Proof.
  intros Hg Hr Hc. split; [apply grid9_setCell, Hg|]. intros r c Hr' Hc'.
  destruct (decide ((r, c) = (row, col))) as [[= -> ->]|Hne].
  - left. rewrite cellAt_setCell_eq by (apply cellAt_in_range; assumption). reflexivity.
  - right. apply cellAt_setCell_ne, Hne.
Qed.

Lemma grid9_patternGrid : grid9 patternGrid.
Proof. apply grid9b_spec. reflexivity. Qed.

Lemma digitGrid_patternGrid : digitGrid patternGrid.
Proof. apply digitGridb_spec. vm_compute. reflexivity. Qed.

Lemma isSolved_patternGrid : isSolved patternGrid = true.
Proof. vm_compute. reflexivity. Qed.

Lemma grid9_patternPuzzle : grid9 patternPuzzle.
Proof. apply grid9b_spec. reflexivity. Qed.

Lemma completes_patternPuzzle : completes patternPuzzle patternGrid.
Proof.
  apply carvedFrom_completes;
    [exact digitGrid_patternGrid | exact isSolved_patternGrid |].
  apply carvedFrom_cleared; [exact grid9_patternGrid | |]; unfold inRange; lia.
Qed.

Lemma full_repeatedDigitGrid (r c : Z) :
  inRange r → inRange c → cellAt repeatedDigitGrid r c ≠ JNull.
Proof. apply firstEmpty_None. vm_compute. reflexivity. Qed.

(** * Every arrangement can come out of the shuffle *)

Lemma swap_take {A : Type} (l : list A) (i j n : nat) :
  (i < n)%nat → (j < n)%nat → take n (swap l i j) = swap (take n l) i j.
Proof.
  intros Hi Hj. unfold swap. rewrite !lookup_take_lt by assumption.
  destruct (l !! i) as [x|]; [|reflexivity]. destruct (l !! j) as [y|]; [|reflexivity].
  rewrite !take_insert_lt by assumption. reflexivity.
Qed.

Lemma swap_drop {A : Type} (l : list A) (i j n : nat) :
  (i < n)%nat → (j < n)%nat → drop n (swap l i j) = drop n l.
Proof.
  intros Hi Hj. unfold swap.
  destruct (l !! i) as [x|]; [|reflexivity]. destruct (l !! j) as [y|]; [|reflexivity].
  rewrite !drop_insert_lt by assumption. reflexivity.
Qed.

Lemma shuffleFrom_reaches {A : Type} (i : nat) (l target : list A) :
  (i < length l)%nat →
  take (S i) target ≡ₚ take (S i) l → drop (S i) target = drop (S i) l →
  ∃ choices : list nat,
    ∀ (rnd : Random) (n : nat),
      (∀ k, (k < i)%nat → rnd (n + k)%nat = nth k choices 0%nat) →
      (shuffleFrom rnd i n l).1 = target.
Proof.
  revert l. induction i as [|i IH]; intros l Hlen Hperm Hdrop.
  - exists []. intros rnd n _. cbn [shuffleFrom fst].
    rewrite <- (take_drop 1 l), <- (take_drop 1 target), Hdrop. f_equal.
    destruct l as [|x l]; [cbn in Hlen; lia|]. cbn [take] in Hperm |- *.
    destruct target as [|y target]; cbn [take] in Hperm |- *.
    + apply Permutation_nil_cons in Hperm. destruct Hperm.
    + apply Permutation_singleton_l in Hperm. symmetry. exact Hperm.
  - assert (Hlent : length target = length l).
    { rewrite <- (take_drop (S (S i)) target), <- (take_drop (S (S i)) l), Hdrop.
      rewrite !length_app. f_equal. apply Permutation_length, Hperm. }
    destruct (lookup_lt_is_Some_2 target (S i)) as [t Ht]; [lia|].
    assert (Hin : t ∈ take (S (S i)) l).
    { rewrite <- Hperm. apply list_elem_of_lookup. exists (S i).
      rewrite lookup_take_lt by lia. exact Ht. }
    apply list_elem_of_lookup in Hin as [j Hj].
    assert (Hjlt : (j < S (S i))%nat).
    { apply lookup_lt_Some in Hj. rewrite length_take in Hj. lia. }
    rewrite lookup_take_lt in Hj by exact Hjlt.
    destruct (lookup_lt_is_Some_2 l (S i)) as [y Hy]; [lia|].
    set (l' := swap l (S i) j).
    assert (Hl'i : l' !! S i = Some t).
    { unfold l'. rewrite swap_lookup by lia.
      destruct (decide (S i = j)) as [<-|Hne]; [exact Hj|].
      rewrite decide_True by reflexivity. exact Hj. }
    destruct (IH l') as [choices Hchoices].
    + unfold l'. rewrite swap_length. lia.
    + assert (H2 : take (S (S i)) l' ≡ₚ take (S (S i)) target).
      { unfold l'. rewrite swap_take by lia. rewrite swap_Permutation. symmetry.
        exact Hperm. }
      rewrite (take_S_r l' (S i) t Hl'i), (take_S_r target (S i) t Ht) in H2.
      apply (inj (λ k, k ++ [t])) in H2. symmetry. exact H2.
    + rewrite (drop_S target t (S i) Ht), (drop_S l' t (S i) Hl'i). f_equal.
      rewrite Hdrop. unfold l'. symmetry. apply swap_drop; lia.
    + exists (j :: choices). intros rnd n Hrnd. cbn [shuffleFrom]. cbv zeta.
      assert (Hj' : (rnd n mod (S i + 1))%nat = j).
      { specialize (Hrnd 0%nat ltac:(lia)). rewrite Nat.add_0_r in Hrnd.
        rewrite Hrnd. cbn [nth]. apply Nat.mod_small. lia. }
      rewrite Hj'. fold l'. apply Hchoices. intros k Hk.
      specialize (Hrnd (S k) ltac:(lia)). cbn [nth] in Hrnd.
      rewrite <- Hrnd. f_equal. lia.
Qed.


(** * The properties of the specification *)

(** C9.  For every 9x9 grid, row, column and digit, [isValidPlacement]
    returns true if and only if no cell other than (row, col) in the same
    row, the same column or the same 3x3 box holds the digit, whatever
    (row, col) itself holds.  On the otherwise empty grid with 5 at (0,0),
    the query of (0,0) with 5 returns true and the query of (0,1) with 5
    returns false. *)
Theorem isValidPlacement_iff_no_other_cell_holds :
  (∀ (grid : Grid) (row col digit : Z),
     grid9 grid →
     (isValidPlacement grid row col digit = true ↔
      ∀ r c, (r, c) ≠ (row, col) →
             r = row ∨ c = col ∨ (r / 3 = row / 3 ∧ c / 3 = col / 3) →
             cellAt grid r c ≠ JNum digit)) ∧
  isValidPlacement fiveAtOrigin 0 0 5 = true ∧
  isValidPlacement fiveAtOrigin 0 1 5 = false.
Proof.
  split; [|split; reflexivity].
  intros grid row col digit Hg.
  rewrite (isValidPlacement_peers grid row col digit Hg). unfold peer.
  split; intros H r c; [intros Hne Hp; apply H; tauto | intros [Hne Hp]; apply H; assumption].
Qed.

Lemma isValidPlacement_iff_no_other_cell_holds_witness :
  grid9 fiveAtOrigin ∧
  (isValidPlacement fiveAtOrigin 0 0 5 = true ↔
   ∀ r c, (r, c) ≠ (0, 0) →
          r = 0 ∨ c = 0 ∨ (r / 3 = 0 / 3 ∧ c / 3 = 0 / 3) →
          cellAt fiveAtOrigin r c ≠ JNum 5).
Proof.
  assert (Hg : grid9 fiveAtOrigin) by (apply grid9b_spec; reflexivity).
  split; [exact Hg|].
  exact (proj1 isValidPlacement_iff_no_other_cell_holds fiveAtOrigin 0 0 5 Hg).
Defined.

(** C10.  For every 9x9 grid and every row or column outside 0..8,
    [getCandidates] returns the empty list: the access yields [undefined],
    which is not [null], and no access of the function can fail. *)
Theorem getCandidates_out_of_range (grid : Grid) (row col : Z) :
  grid9 grid → ¬ (0 <= row <= 8) ∨ ¬ (0 <= col <= 8) →
  getCandidates grid row col = [].
Proof.
  intros Hg Hout. apply getCandidates_not_null.
  rewrite cellAt_out_of_range; [discriminate | exact Hg |].
  unfold inRange. lia.
Qed.

Lemma getCandidates_out_of_range_witness :
  getCandidates createEmptyGrid 9 0 = [] ∧ getCandidates createEmptyGrid 0 (-1) = [].
Proof.
  split.
  - apply (getCandidates_out_of_range createEmptyGrid 9 0);
      [apply grid9b_spec; reflexivity | left; lia].
  - apply (getCandidates_out_of_range createEmptyGrid 0 (-1));
      [apply grid9b_spec; reflexivity | right; lia].
Defined.

(** C8, at a grid with two equal digits in a row.  The puzzle holds 1 at
    (0,0) and at (0,1) and has one empty cell; [solve] fills that cell and
    returns the filled grid, which is not solved, instead of [null]. *)
Theorem solve_returns_grid_with_repeated_digit :
  cellAt repeatedDigitPuzzle 0 0 = JNum 1 ∧
  cellAt repeatedDigitPuzzle 0 1 = JNum 1 ∧
  solve repeatedDigitPuzzle = Some (Some repeatedDigitGrid) ∧
  isSolved repeatedDigitGrid = false.
Proof. repeat split; vm_compute; reflexivity. Qed.

(** C4, as stated, fails at a filled grid with two equal digits in a row:
    the count is 1 and the grid has no solution. *)
Lemma countSolutions_one_without_solution :
  countSolutions repeatedDigitGrid 2 = Some 1 ∧
  ¬ ∃ s, completes repeatedDigitGrid s.
Proof.
  split; [vm_compute; reflexivity|].
  intros (s & Hs & Hsolved & Hext).
  assert (H0 : inRange 0) by (unfold inRange; lia).
  assert (H1 : inRange 1) by (unfold inRange; lia).
  pose proof (Hext 0 0 H0 H0) as E00. pose proof (Hext 0 1 H0 H1) as E01.
  change (cellAt repeatedDigitGrid 0 0) with (JNum 1) in E00.
  change (cellAt repeatedDigitGrid 0 1) with (JNum 1) in E01.
  cbv iota in E00, E01.
  rewrite isSolved_spec in Hsolved.
  destruct (Hsolved 0 0 H0 H0) as (n & Hn & Hv).
  rewrite E00 in Hn. injection Hn as <-.
  rewrite isValidPlacement_peers in Hv by exact Hs.
  apply (Hv 0 1); [|exact E01]. split; [discriminate | tauto].
Qed.

(** C4, amended.  For every 9x9 grid, [countSolutions(grid, 2)] returns an
    integer of [0, 2]; when the grid has no violations the value is 0
    exactly when the grid has no solution, 1 exactly when it has one solution
    and no other, and 2 exactly when it has two different solutions. *)
Theorem countSolutions_classifies (grid : Grid) :
  grid9 grid →
  ∃ n, countSolutions grid 2 = Some n ∧ 0 <= n <= 2 ∧
       (getViolations grid = [] →
        (n = 0 ↔ ¬ ∃ s, completes grid s) ∧
        (n = 1 ↔ ∃ s, completes grid s ∧ ∀ s', completes grid s' → s' = s) ∧
        (n = 2 ↔ ∃ s1 s2, s1 ≠ s2 ∧ completes grid s1 ∧ completes grid s2)).
Proof.
  intros Hg. rewrite countSolutions_spec by exact Hg.
  eexists. split; [reflexivity|]. split; [lia|].
  intros Hv. apply getViolations_nil in Hv.
  set (sols := solutions (S (countEmpty grid)) grid).
  assert (Hin : ∀ s, s ∈ sols ↔ completes grid s)
    by (intros s; apply solutions_sound_complete; [assumption | assumption | lia]).
  assert (Hnd : NoDup sols)
    by (apply solutions_NoDup; [assumption | assumption | lia]).
  clearbody sols. destruct sols as [|s1 [|s2 sols]]; cbn [length].
  - change (Z.min 2 (Z.of_nat 0)) with 0. split; [|split].
    + split; [|reflexivity]. intros _ [s Hs]. apply Hin in Hs.
      apply elem_of_nil in Hs. exact Hs.
    + split; [discriminate|]. intros (s & Hs & _). apply Hin in Hs.
      apply elem_of_nil in Hs. destruct Hs.
    + split; [discriminate|]. intros (s & _ & _ & Hs & _). apply Hin in Hs.
      apply elem_of_nil in Hs. destruct Hs.
  - change (Z.min 2 (Z.of_nat 1)) with 1. split; [|split].
    + split; [discriminate|]. intros H. exfalso. apply H. exists s1.
      apply Hin. left.
    + split; [|reflexivity]. intros _. exists s1. split; [apply Hin; left|].
      intros s' Hs'. apply Hin in Hs'. apply list_elem_of_singleton in Hs'. exact Hs'.
    + split; [discriminate|]. intros (a & b & Hne & Ha & Hb).
      apply Hin, list_elem_of_singleton in Ha. apply Hin, list_elem_of_singleton in Hb.
      congruence.
  - replace (Z.min 2 (Z.of_nat (S (S (length sols))))) with 2 by lia.
    assert (Hne : s1 ≠ s2).
    { inversion Hnd as [|? ? Hn _]; subst. intros ->. apply Hn. left. }
    split; [|split].
    + split; [discriminate|]. intros H. exfalso. apply H. exists s1.
      apply Hin. left.
    + split; [discriminate|]. intros (s & _ & Huniq).
      exfalso. apply Hne. rewrite (Huniq s1), (Huniq s2); [reflexivity | |];
        apply Hin; [right; left | left].
    + split; [|reflexivity]. intros _. exists s1, s2.
      split; [exact Hne|]. split; apply Hin; [left | right; left].
Qed.

Lemma countSolutions_classifies_witness :
  grid9 patternGrid ∧ getViolations patternGrid = [] ∧
  ∃ n, countSolutions patternGrid 2 = Some n ∧ 0 <= n <= 2 ∧
       (getViolations patternGrid = [] →
        (n = 0 ↔ ¬ ∃ s, completes patternGrid s) ∧
        (n = 1 ↔ ∃ s, completes patternGrid s ∧
                      ∀ s', completes patternGrid s' → s' = s) ∧
        (n = 2 ↔ ∃ s1 s2, s1 ≠ s2 ∧ completes patternGrid s1 ∧
                          completes patternGrid s2)).
Proof.
  split; [apply grid9b_spec; reflexivity|]. split; [vm_compute; reflexivity|].
  apply (countSolutions_classifies patternGrid). apply grid9b_spec. reflexivity.
Defined.

(** C3, as stated, fails when both candidates lead to a contradiction: at
    cell (0,0) of a grid on which naked and hidden singles make no progress,
    the candidates are 1 and 2, each of them leads to a contradiction, and
    the step still forces 2 into the working grid. *)
Lemma lookahead_forces_when_both_contradict :
  applyNakedSingles deadEndGrid = (false, deadEndGrid) ∧
  applyHiddenSingles deadEndGrid = (false, deadEndGrid) ∧
  getCandidates deadEndGrid 0 0 = [1; 2] ∧
  contradicts deadEndGrid 0 0 1 = Some true ∧
  contradicts deadEndGrid 0 0 2 = Some true ∧
  lookaheadCell deadEndGrid 0 0 = Some (true, setCell deadEndGrid 0 0 (Some 2)).
Proof. repeat split; vm_compute; reflexivity. Qed.

(** C3, amended.  At an empty cell with exactly two candidates the lookahead
    step tests the candidates in ascending order and stops at the first one
    that leads to a contradiction, forcing the other one into the working
    grid without testing it: the larger candidate is forced when the smaller
    one leads to a contradiction, the smaller one when only the larger one
    does, and the working grid is left as it is when neither does. *)
Theorem lookaheadCell_forces_on_first_contradiction
    (workGrid : Grid) (row col a b : Z) :
  getCandidates workGrid row col = [a; b] →
  ∃ ca cb,
    contradicts workGrid row col a = Some ca ∧
    contradicts workGrid row col b = Some cb ∧
    lookaheadCell workGrid row col =
      Some (if ca then (true, setCell workGrid row col (Some b))
            else if cb then (true, setCell workGrid row col (Some a))
            else (false, workGrid)).
Proof.
  intros Hcand. destruct (getCandidates_two _ _ _ _ _ Hcand) as [Hnull Hab].
  destruct (contradicts_total workGrid row col a) as [ca Ha].
  destruct (contradicts_total workGrid row col b) as [cb Hb].
  exists ca, cb. split; [exact Ha|]. split; [exact Hb|].
  unfold lookaheadCell. rewrite Hnull, Hcand. cbn [isNull length Nat.eqb].
  cbn [tryCandidates]. rewrite Ha. cbn [mbind option_bind].
  destruct ca.
  - cbn [List.find]. rewrite Z.eqb_refl. cbn [negb].
    destruct (Z.eqb_spec b a) as [->|_]; [contradiction|]. reflexivity.
  - rewrite Hb. cbn [mbind option_bind]. destruct cb; [|reflexivity].
    cbn [List.find]. destruct (Z.eqb_spec a b) as [->|_]; [contradiction|].
    reflexivity.
Qed.

Lemma lookaheadCell_forces_on_first_contradiction_witness :
  ∃ ca cb,
    contradicts deadEndGrid 0 0 1 = Some ca ∧
    contradicts deadEndGrid 0 0 2 = Some cb ∧
    lookaheadCell deadEndGrid 0 0 =
      Some (if ca then (true, setCell deadEndGrid 0 0 (Some 2))
            else if cb then (true, setCell deadEndGrid 0 0 (Some 1))
            else (false, deadEndGrid)).
Proof.
  apply (lookaheadCell_forces_on_first_contradiction deadEndGrid 0 0 1 2).
  vm_compute. reflexivity.
Defined.

(** C5.  Whatever the random draws, the three diagonal boxes are filled with
    nine different digits each, the backtracking completion of that grid
    succeeds, and the grid [generateSolvedGrid] returns is solved. *)
Theorem generateSolvedGrid_solved (rnd : Random) (n : nat) :
  ∃ p1 p2 p3 grid n',
    perm9 p1 ∧ perm9 p2 ∧ perm9 p3 ∧
    fillDiagonal rnd n = (diagGrid p1 p2 p3, n') ∧
    solveInPlace (S (countEmpty (diagGrid p1 p2 p3))) (diagGrid p1 p2 p3)
      = Some (true, grid) ∧
    generateSolvedGrid rnd n = Some (grid, n') ∧
    isSolved grid = true.
Proof.
  destruct (generateSolvedGrid_spec rnd n)
    as (p1 & p2 & p3 & s & n' & H1 & H2 & H3 & Efill & Esolve & Egen & Hs).
  exists p1, p2, p3, s, n'. repeat (split; [assumption|]). apply Hs.
Qed.

(** C1.  For every difficulty and all random draws, [generatePuzzle] returns
    a pair [(puzzle, solution)] and [countSolutions(puzzle, 2)] is 1. *)
Theorem generatePuzzle_unique_solution (difficulty : Difficulty) (rnd : Random) :
  ∃ puzzle solution,
    generatePuzzle difficulty rnd = Some (puzzle, solution) ∧
    countSolutions puzzle 2 = Some 1.
Proof.
  destruct (generatePuzzle_spec difficulty rnd)
    as (puzzle & solution & E & _ & _ & _ & Hcount & _).
  exists puzzle, solution. split; assumption.
Qed.

(** C2.  For every difficulty and all random draws, [solve] applied to the
    returned puzzle returns the returned solution. *)
Theorem generatePuzzle_round_trip (difficulty : Difficulty) (rnd : Random) :
  ∃ puzzle solution,
    generatePuzzle difficulty rnd = Some (puzzle, solution) ∧
    solve puzzle = Some (Some solution).
Proof.
  destruct (generatePuzzle_spec difficulty rnd)
    as (puzzle & solution & E & Hd & Hsolved & Hcarved & Hcount & _).
  exists puzzle, solution. split; [exact E|].
  pose proof (carvedFrom_completes solution puzzle Hd Hsolved Hcarved) as Hcomp.
  destruct Hcarved as [Hg _].
  pose proof (completes_consistent puzzle solution Hg Hcomp) as Hcons.
  rewrite solve_spec by exact Hg.
  rewrite countSolutions_spec in Hcount by exact Hg.
  pose proof (proj2 (solutions_sound_complete (S (countEmpty puzzle)) puzzle solution
                       Hg Hcons (Nat.lt_succ_diag_r _)) Hcomp) as Hin.
  destruct (solutions (S (countEmpty puzzle)) puzzle) as [|s [|s' sols]].
  - apply elem_of_nil in Hin. destruct Hin.
  - apply list_elem_of_singleton in Hin. subst. reflexivity.
  - exfalso. cbn [length] in Hcount. injection Hcount as Hcount. lia.
Qed.

(** C6.  For the difficulties easy and medium and all random draws,
    [canSolveWithBasicDeduction] returns true on the returned puzzle. *)
Theorem generatePuzzle_basic_deduction (difficulty : Difficulty) (rnd : Random) :
  difficulty = easy ∨ difficulty = medium →
  ∃ puzzle solution,
    generatePuzzle difficulty rnd = Some (puzzle, solution) ∧
    canSolveWithBasicDeduction puzzle = Some true.
Proof.
  intros Hd.
  destruct (generatePuzzle_spec difficulty rnd)
    as (puzzle & solution & E & _ & _ & _ & _ & Hbasic & _).
  exists puzzle, solution. split; [exact E|]. apply Hbasic.
  destruct Hd as [-> | ->]; discriminate.
Qed.

Lemma generatePuzzle_basic_deduction_witness :
  ∃ puzzle solution,
    generatePuzzle easy (λ n, n) = Some (puzzle, solution) ∧
    canSolveWithBasicDeduction puzzle = Some true.
Proof.
  apply (generatePuzzle_basic_deduction easy (λ n, n)). left. reflexivity.
Defined.

(** C7.  The target clue counts are 45, 35 and 28, and for every difficulty
    and all random draws the number of filled cells of the returned puzzle
    is at least the target of the difficulty. *)
Theorem generatePuzzle_clue_bound :
  targetClues easy = 45 ∧ targetClues medium = 35 ∧ targetClues hard = 28 ∧
  ∀ (difficulty : Difficulty) (rnd : Random),
    ∃ puzzle solution,
      generatePuzzle difficulty rnd = Some (puzzle, solution) ∧
      targetClues difficulty <= clueCount puzzle.
Proof.
  repeat (split; [reflexivity|]). intros difficulty rnd.
  destruct (generatePuzzle_spec difficulty rnd)
    as (puzzle & solution & E & _ & _ & _ & _ & _ & Htarget).
  exists puzzle, solution. split; assumption.
Qed.

(** * Further properties of the code *)

(** ** Validation *)

(** X1.  On a 9x9 grid, [getViolations] lists a cell exactly when the cell
    holds a number that another cell of its row, column or box holds too. *)
Theorem getViolations_lists_conflicting_cells (grid : Grid) (row col : Z) :
  grid9 grid →
  (In (row, col) (getViolations grid) ↔
   ∃ num r c, cellAt grid row col = JNum num ∧ peer row col r c ∧
              cellAt grid r c = JNum num).
Proof. exact (getViolations_In grid row col). Qed.

Lemma getViolations_lists_conflicting_cells_witness :
  grid9 repeatedDigitGrid ∧
  (In (0, 1) (getViolations repeatedDigitGrid) ↔
   ∃ num r c, cellAt repeatedDigitGrid 0 1 = JNum num ∧ peer 0 1 r c ∧
              cellAt repeatedDigitGrid r c = JNum num).
Proof.
  assert (Hg : grid9 repeatedDigitGrid) by (apply grid9b_spec; reflexivity).
  split; [exact Hg|].
  exact (getViolations_lists_conflicting_cells repeatedDigitGrid 0 1 Hg).
Defined.

(** X2.  Violations come in pairs: every cell that [getViolations] lists
    has a peer with the same number, and that peer is listed too. *)
Theorem getViolations_in_pairs (grid : Grid) (row col : Z) :
  grid9 grid → In (row, col) (getViolations grid) →
  ∃ r c, peer row col r c ∧ cellAt grid r c = cellAt grid row col ∧
         In (r, c) (getViolations grid).
Proof.
  intros Hg Hin.
  apply (getViolations_In grid row col Hg) in Hin
    as (num & r & c & Hcell & Hpeer & Hh).
  exists r, c. split; [exact Hpeer|]. split; [congruence|].
  apply (getViolations_In grid r c Hg). exists num, row, col.
  split; [exact Hh|]. split; [apply peer_sym, Hpeer | exact Hcell].
Qed.

Lemma getViolations_in_pairs_witness :
  ∃ r c, peer 0 1 r c ∧ cellAt repeatedDigitGrid r c = cellAt repeatedDigitGrid 0 1 ∧
         In (r, c) (getViolations repeatedDigitGrid).
Proof.
  apply (getViolations_in_pairs repeatedDigitGrid 0 1).
  - apply grid9b_spec. reflexivity.
  - apply filter_In. split; [apply cells_spec; unfold inRange; lia|].
    vm_compute. reflexivity.
Defined.

(** X3.  A 9x9 grid is solved exactly when it has no empty cell and
    [getViolations] reports nothing. *)
Theorem isSolved_iff_full_and_no_violation (grid : Grid) :
  grid9 grid →
  (isSolved grid = true ↔
   (∀ r c, inRange r → inRange c → cellAt grid r c ≠ JNull) ∧
   getViolations grid = []).
Proof. exact (isSolved_no_null_no_violation grid). Qed.

Lemma isSolved_iff_full_and_no_violation_witness :
  grid9 patternGrid ∧
  (isSolved patternGrid = true ↔
   (∀ r c, inRange r → inRange c → cellAt patternGrid r c ≠ JNull) ∧
   getViolations patternGrid = []).
Proof.
  split; [exact grid9_patternGrid|].
  exact (isSolved_iff_full_and_no_violation patternGrid grid9_patternGrid).
Defined.

(** X4.  [isSolved] and [getViolations] look only at which cells hold equal
    numbers, never at the numbers themselves: replacing every number by its
    image under a one-to-one renaming changes neither result, so a board
    filled with 0..8 or with 11..19 is as solved as one filled with 1..9. *)
Theorem renaming_keeps_isSolved_and_getViolations (f : Z → Z) (grid : Grid) :
  (∀ x y, f x = f y → x = y) →
  isSolved (mapCells f grid) = isSolved grid ∧
  getViolations (mapCells f grid) = getViolations grid.
Proof.
  intros Hinj. split; [apply isSolved_mapCells | apply getViolations_mapCells]; exact Hinj.
Qed.

Lemma renaming_keeps_isSolved_and_getViolations_witness :
  (∀ x y, Z.pred x = Z.pred y → x = y) ∧
  isSolved (mapCells Z.pred patternGrid) = isSolved patternGrid ∧
  getViolations (mapCells Z.pred patternGrid) = getViolations patternGrid.
Proof.
  assert (Hinj : ∀ x y, Z.pred x = Z.pred y → x = y) by (intros x y H; lia).
  split; [exact Hinj|].
  exact (renaming_keeps_isSolved_and_getViolations Z.pred patternGrid Hinj).
Defined.

(** ** Candidates *)

(** X5.  Clearing one cell of a solved grid of digits leaves that cell with
    exactly one candidate, the digit that was removed. *)
Theorem getCandidates_of_cleared_cell (grid : Grid) (row col digit : Z) :
  digitGrid grid → isSolved grid = true → inRange row → inRange col →
  cellAt grid row col = JNum digit →
  getCandidates (setCell grid row col None) row col = [digit].
Proof. exact (getCandidates_cleared grid row col digit). Qed.

Lemma getCandidates_of_cleared_cell_witness :
  cellAt patternGrid 4 4 = JNum 9 ∧ getCandidates patternPuzzle 4 4 = [9].
Proof.
  split; [reflexivity|].
  apply (getCandidates_of_cleared_cell patternGrid 4 4 9).
  - exact digitGrid_patternGrid.
  - vm_compute. reflexivity.
  - unfold inRange. lia.
  - unfold inRange. lia.
  - reflexivity.
Defined.

(** X6.  The candidates of an empty cell leave out no solution: the digit
    that a solution of the grid holds in the cell is among them. *)
Theorem getCandidates_hold_the_solution_digit (grid s : Grid) (row col : Z) :
  grid9 grid → completes grid s → inRange row → inRange col →
  cellAt grid row col = JNull →
  ∃ d, cellAt s row col = JNum d ∧ In d (getCandidates grid row col).
Proof. exact (completes_candidate grid s row col). Qed.

Lemma getCandidates_hold_the_solution_digit_witness :
  ∃ d, cellAt patternGrid 4 4 = JNum d ∧ In d (getCandidates patternPuzzle 4 4).
Proof.
  apply (getCandidates_hold_the_solution_digit patternPuzzle patternGrid 4 4).
  - exact grid9_patternPuzzle.
  - exact completes_patternPuzzle.
  - unfold inRange. lia.
  - unfold inRange. lia.
  - reflexivity.
Defined.

(** ** Shuffle *)

(** X7.  [shuffle] rearranges: whatever the random draws, the result is a
    permutation of the array it was given, duplicates included, and one
    draw is made for every index from the last one down to 1. *)
Theorem shuffle_permutes {A : Type} (rnd : Random) (n : nat) (array : list A) :
  (shuffle rnd n array).1 ≡ₚ array ∧
  (shuffle rnd n array).2 = (n + (length array - 1))%nat.
Proof. apply shuffleFrom_Permutation. Qed.

(** ** Search *)

(** X8.  On a 9x9 grid without violations [solve] returns, and its result
    is right: a grid it returns is a solution of the input, and it returns
    null only if the input has no solution. *)
Theorem solve_finds_a_solution_if_there_is_one (grid : Grid) :
  grid9 grid → getViolations grid = [] →
  ∃ result, solve grid = Some result ∧
    match result with
    | Some s => completes grid s
    | None => ¬ ∃ s, completes grid s
    end.
Proof.
  intros Hg Hv. apply getViolations_nil in Hv.
  rewrite solve_spec by exact Hg. eexists. split; [reflexivity|].
  set (sols := solutions (S (countEmpty grid)) grid).
  assert (Hin : ∀ s, s ∈ sols ↔ completes grid s)
    by (intros s; apply solutions_sound_complete; [assumption | assumption | lia]).
  clearbody sols. destruct sols as [|s sols]; cbn [head].
  - intros [s Hs]. apply Hin in Hs. inversion Hs.
  - apply Hin. left.
Qed.

Lemma solve_finds_a_solution_if_there_is_one_witness :
  ∃ result, solve patternPuzzle = Some result ∧
    match result with
    | Some s => completes patternPuzzle s
    | None => ¬ ∃ s, completes patternPuzzle s
    end.
Proof.
  apply (solve_finds_a_solution_if_there_is_one patternPuzzle).
  - exact grid9_patternPuzzle.
  - vm_compute. reflexivity.
Defined.

(** X9.  Whatever the 9x9 grid, a grid that [solve] returns has no empty
    cell, keeps every given, and has exactly the violations of the input:
    the search neither repairs a conflict among the givens nor adds one, so
    the result is solved exactly when the input had no violation. *)
Theorem solve_keeps_givens_and_violations (grid result : Grid) :
  grid9 grid → solve grid = Some (Some result) →
  (∀ r c n, cellAt grid r c = JNum n → cellAt result r c = JNum n) ∧
  (∀ r c, inRange r → inRange c → ∃ n, cellAt result r c = JNum n) ∧
  getViolations result = getViolations grid ∧
  (isSolved result = true ↔ getViolations grid = []).
Proof.
  intros Hg Hsolve. rewrite solve_spec in Hsolve by exact Hg.
  assert (Hin : result ∈ solutions (S (countEmpty grid)) grid).
  { remember (solutions (S (countEmpty grid)) grid) as sols eqn:Hsols. clear Hsols.
    destruct sols as [|s sols]; [discriminate|]. injection Hsolve as ->. left. }
  pose proof (solutions_searched _ grid result Hg Hin) as Hsearched.
  pose proof (searched_violations grid result Hg Hsearched) as Hviol.
  destruct Hsearched as [Hgr Hcells].
  assert (Hfull : ∀ r c, inRange r → inRange c → ∃ n, cellAt result r c = JNum n).
  { intros r c Hr Hc. specialize (Hcells r c Hr Hc).
    destruct (cellAt grid r c) as [| |n];
      [destruct Hcells as (d & _ & Hd & _); eauto
      |destruct Hcells as (d & _ & Hd & _); eauto
      |destruct Hcells as [Hd _]; eauto]. }
  split; [|split; [exact Hfull|split; [exact Hviol|]]].
  - intros r c n Hcell. destruct (cellAt_num_in_range grid r c n Hg Hcell) as [Hr Hc].
    specialize (Hcells r c Hr Hc). rewrite Hcell in Hcells. apply Hcells.
  - rewrite <- Hviol. rewrite (isSolved_no_null_no_violation result Hgr).
    split; [intros [_ H]; exact H | intros H; split; [|exact H]].
    intros r c Hr Hc. destruct (Hfull r c Hr Hc) as [n ->]. discriminate.
Qed.

Lemma solve_keeps_givens_and_violations_witness :
  solve repeatedDigitPuzzle = Some (Some repeatedDigitGrid) ∧
  getViolations repeatedDigitGrid = getViolations repeatedDigitPuzzle ∧
  (isSolved repeatedDigitGrid = true ↔ getViolations repeatedDigitPuzzle = []).
Proof.
  assert (Hg : grid9 repeatedDigitPuzzle) by (apply grid9b_spec; reflexivity).
  assert (Hs : solve repeatedDigitPuzzle = Some (Some repeatedDigitGrid))
    by (vm_compute; reflexivity).
  split; [exact Hs|].
  exact (proj2 (proj2 (solve_keeps_givens_and_violations
                         repeatedDigitPuzzle repeatedDigitGrid Hg Hs))).
Defined.

(** X10.  A grid without an empty cell is returned by [solve] as it is,
    whatever it holds: the givens are never checked against each other. *)
Theorem solve_returns_a_full_grid_unchanged (grid : Grid) :
  (∀ r c, inRange r → inRange c → cellAt grid r c ≠ JNull) →
  solve grid = Some (Some grid).
Proof.
  intros Hfull. unfold solve. rewrite cloneGrid_id. cbn [solveInPlace].
  rewrite (firstEmpty_full grid Hfull). reflexivity.
Qed.

Lemma solve_returns_a_full_grid_unchanged_witness :
  isSolved repeatedDigitGrid = false ∧
  solve repeatedDigitGrid = Some (Some repeatedDigitGrid).
Proof.
  split; [vm_compute; reflexivity|].
  exact (solve_returns_a_full_grid_unchanged repeatedDigitGrid full_repeatedDigitGrid).
Defined.

(** X11.  [solveInPlace] either fills the grid or leaves it as it was: on a
    9x9 grid, when it returns true the grid has no empty cell and keeps its
    givens, and when it returns false every store has been undone. *)
Theorem solveInPlace_fills_or_restores (depth : nat) (grid grid' : Grid) (found : bool) :
  grid9 grid → (countEmpty grid < depth)%nat →
  solveInPlace depth grid = Some (found, grid') →
  if found then
    (∀ r c n, cellAt grid r c = JNum n → cellAt grid' r c = JNum n) ∧
    (∀ r c, inRange r → inRange c → ∃ n, cellAt grid' r c = JNum n)
  else grid' = grid.
Proof.
  intros Hg Hdepth Hsolve. rewrite solveInPlace_spec in Hsolve by assumption.
  remember (solutions depth grid) as sols eqn:Hsols.
  destruct sols as [|s sols]; cbn [firstOf] in Hsolve.
  - injection Hsolve as <- <-. reflexivity.
  - injection Hsolve as <- <-.
    assert (Hin : s ∈ solutions depth grid) by (rewrite <- Hsols; left).
    destruct (solutions_searched depth grid s Hg Hin) as [_ Hcells]. split.
    + intros r c n Hcell. destruct (cellAt_num_in_range grid r c n Hg Hcell) as [Hr Hc].
      specialize (Hcells r c Hr Hc). rewrite Hcell in Hcells. apply Hcells.
    + intros r c Hr Hc. specialize (Hcells r c Hr Hc).
      destruct (cellAt grid r c) as [| |n];
        [destruct Hcells as (d & _ & Hd & _); eauto
        |destruct Hcells as (d & _ & Hd & _); eauto
        |destruct Hcells as [Hd _]; eauto].
Qed.

Lemma solveInPlace_fills_or_restores_witness :
  solveInPlace 2 patternPuzzle = Some (true, patternGrid) ∧
  (∀ r c n, cellAt patternPuzzle r c = JNum n → cellAt patternGrid r c = JNum n) ∧
  (∀ r c, inRange r → inRange c → ∃ n, cellAt patternGrid r c = JNum n).
Proof.
  assert (Hs : solveInPlace 2 patternPuzzle = Some (true, patternGrid))
    by (vm_compute; reflexivity).
  assert (Hd : (countEmpty patternPuzzle < 2)%nat) by (vm_compute; lia).
  split; [exact Hs|].
  exact (solveInPlace_fills_or_restores 2 patternPuzzle patternGrid true
           grid9_patternPuzzle Hd Hs).
Defined.

(** X12.  On a 9x9 grid without violations [countSolutions] returns the
    number of solutions of the grid, cut at the cap; a cap below 1 acts as
    the cap 1, because the count is compared with the cap only after it was
    incremented. *)
Theorem countSolutions_counts_up_to_the_cap (grid : Grid) (maxCount : Z) :
  grid9 grid → getViolations grid = [] →
  ∃ sols, NoDup sols ∧ (∀ s, s ∈ sols ↔ completes grid s) ∧
          countSolutions grid maxCount =
          Some (Z.min (Z.of_nat (length sols)) (Z.max 1 maxCount)).
Proof.
  intros Hg Hv. apply getViolations_nil in Hv.
  exists (solutions (S (countEmpty grid)) grid). split; [|split].
  - apply solutions_NoDup; [assumption | assumption | lia].
  - intros s. apply solutions_sound_complete; [assumption | assumption | lia].
  - apply countSolutions_cap, Hg.
Qed.

Lemma countSolutions_counts_up_to_the_cap_witness :
  ∃ sols, NoDup sols ∧ (∀ s, s ∈ sols ↔ completes patternPuzzle s) ∧
          countSolutions patternPuzzle 0 =
          Some (Z.min (Z.of_nat (length sols)) (Z.max 1 0)).
Proof.
  apply (countSolutions_counts_up_to_the_cap patternPuzzle 0).
  - exact grid9_patternPuzzle.
  - vm_compute. reflexivity.
Defined.

(** ** Basic deduction *)

(** X13.  [applyNakedSingles] stores digits of 1..9 in empty cells and
    changes nothing else, and its result tells whether it stored one: the
    grid is as it was when it returns false and has fewer empty cells when
    it returns true. *)
Theorem applyNakedSingles_fills_and_reports (grid : Grid) :
  filledFrom grid (applyNakedSingles grid).2 ∧
  ((applyNakedSingles grid).1 = false → (applyNakedSingles grid).2 = grid) ∧
  ((applyNakedSingles grid).1 = true →
   (countEmpty (applyNakedSingles grid).2 < countEmpty grid)%nat).
Proof.
  destruct (applyNakedSingles_deduces grid) as (Hfill & Hsame & _).
  destruct (applyNakedSingles_fills grid) as [_ Hless]. cbn [fst snd] in *.
  split; [exact Hfill|]. split.
  - intros Hflag. rewrite (Hsame Hflag). reflexivity.
  - intros Hflag. destruct (Hless Hflag) as [H|H]; [discriminate | exact H].
Qed.

(** X14.  [applyHiddenSingles] stores digits of 1..9 in empty cells and
    changes nothing else, and its result tells whether it stored one. *)
Theorem applyHiddenSingles_fills_and_reports (grid : Grid) :
  filledFrom grid (applyHiddenSingles grid).2 ∧
  ((applyHiddenSingles grid).1 = false → (applyHiddenSingles grid).2 = grid) ∧
  ((applyHiddenSingles grid).1 = true →
   (countEmpty (applyHiddenSingles grid).2 < countEmpty grid)%nat).
Proof.
  destruct (applyHiddenSingles_deduces grid) as (Hfill & Hsame & _).
  destruct (applyHiddenSingles_fills grid) as [_ Hless]. cbn [fst snd] in *.
  split; [exact Hfill|]. split.
  - intros Hflag. rewrite (Hsame Hflag). reflexivity.
  - intros Hflag. destruct (Hless Hflag) as [H|H]; [discriminate | exact H].
Qed.

(** X15.  Naked singles lose no solution: every solution of a 9x9 grid is
    a solution of the grid [applyNakedSingles] leaves. *)
Theorem applyNakedSingles_keeps_solutions (grid s : Grid) :
  grid9 grid → completes grid s → completes (applyNakedSingles grid).2 s.
Proof.
  intros Hg Hs. destruct (applyNakedSingles_deduces grid) as (_ & _ & _ & Hsound).
  exact (Hsound s I Hg Hs).
Qed.

Lemma applyNakedSingles_keeps_solutions_witness :
  applyNakedSingles patternPuzzle = (true, patternGrid) ∧
  completes (applyNakedSingles patternPuzzle).2 patternGrid.
Proof.
  split; [vm_compute; reflexivity|].
  exact (applyNakedSingles_keeps_solutions patternPuzzle patternGrid
           grid9_patternPuzzle completes_patternPuzzle).
Defined.

(** X16.  Hidden singles lose no solution that holds digits of 1..9 only:
    every such solution of a 9x9 grid is a solution of the grid
    [applyHiddenSingles] leaves. *)
Theorem applyHiddenSingles_keeps_solutions (grid s : Grid) :
  grid9 grid → digitGrid s → completes grid s →
  completes (applyHiddenSingles grid).2 s.
Proof.
  intros Hg Hd Hs. destruct (applyHiddenSingles_deduces grid) as (_ & _ & _ & Hsound).
  exact (Hsound s Hd Hg Hs).
Qed.

Lemma applyHiddenSingles_keeps_solutions_witness :
  applyHiddenSingles patternPuzzle = (true, patternGrid) ∧
  completes (applyHiddenSingles patternPuzzle).2 patternGrid.
Proof.
  split; [vm_compute; reflexivity|].
  exact (applyHiddenSingles_keeps_solutions patternPuzzle patternGrid
           grid9_patternPuzzle digitGrid_patternGrid completes_patternPuzzle).
Defined.

(** X17.  A 9x9 grid with clues of 1..9 that [canSolveWithBasicDeduction]
    accepts has exactly one solution: [countSolutions] counts 1 and [solve]
    returns that solution. *)
Theorem canSolveWithBasicDeduction_implies_unique (grid : Grid) :
  grid9 grid → digitClues grid → canSolveWithBasicDeduction grid = Some true →
  ∃ s, completes grid s ∧ (∀ s', completes grid s' → s' = s) ∧
       countSolutions grid 2 = Some 1 ∧ solve grid = Some (Some s).
Proof.
  intros Hg Hclues Hbasic. unfold canSolveWithBasicDeduction in Hbasic.
  rewrite cloneGrid_id in Hbasic.
  destruct (deduce (S (countEmpty grid)) grid) as [w|] eqn:Hdeduce; [|discriminate].
  cbn [mbind option_bind] in Hbasic. injection Hbasic as Hsolved.
  destruct (refines_solved_unique grid w Hg Hclues
              (deduce_refines _ grid w Hdeduce) Hsolved) as [Hw Huniq].
  exists w. split; [exact Hw|]. split; [exact Huniq|].
  exact (unique_solution_counted grid w Hg Hw Huniq).
Qed.

Lemma canSolveWithBasicDeduction_implies_unique_witness :
  canSolveWithBasicDeduction patternPuzzle = Some true ∧
  ∃ s, completes patternPuzzle s ∧ (∀ s', completes patternPuzzle s' → s' = s) ∧
       countSolutions patternPuzzle 2 = Some 1 ∧ solve patternPuzzle = Some (Some s).
Proof.
  assert (Hb : canSolveWithBasicDeduction patternPuzzle = Some true)
    by (vm_compute; reflexivity).
  split; [exact Hb|].
  apply (canSolveWithBasicDeduction_implies_unique patternPuzzle
           grid9_patternPuzzle); [|exact Hb].
  apply digitCluesb_spec; [exact grid9_patternPuzzle | vm_compute; reflexivity].
Defined.

(** ** Lookahead *)

(** X18.  The contradiction test of the lookahead step is sound: when
    placing a candidate leads to a contradiction, the grid with that
    candidate placed has no solution in digits of 1..9. *)
Theorem contradiction_excludes_the_candidate (workGrid : Grid) (row col candidate : Z) :
  grid9 workGrid → contradicts workGrid row col candidate = Some true →
  ¬ ∃ s, digitGrid s ∧ completes (setCell workGrid row col (Some candidate)) s.
Proof.
  intros Hg Hc (s & Hs & Hcomp).
  exact (contradicts_sound workGrid s row col candidate Hg Hc Hs Hcomp).
Qed.

Lemma contradiction_excludes_the_candidate_witness :
  contradicts deadEndGrid 0 0 1 = Some true ∧
  ¬ ∃ s, digitGrid s ∧ completes (setCell deadEndGrid 0 0 (Some 1)) s.
Proof.
  assert (Hc : contradicts deadEndGrid 0 0 1 = Some true) by (vm_compute; reflexivity).
  split; [exact Hc|].
  apply (contradiction_excludes_the_candidate deadEndGrid 0 0 1); [|exact Hc].
  apply grid9b_spec. reflexivity.
Defined.

(** X19.  [requiresLookahead] returns on every grid: each round of its loop
    that goes on has filled an empty cell, so the number of empty cells
    bounds the rounds; and it returns false on every grid that
    [canSolveWithBasicDeduction] accepts. *)
Theorem requiresLookahead_returns (grid : Grid) :
  ∃ result, requiresLookahead grid = Some result ∧
            (canSolveWithBasicDeduction grid = Some true → result = false).
Proof.
  unfold requiresLookahead.
  destruct (canSolveWithBasicDeduction_total grid) as [basic ->].
  cbn [mbind option_bind]. destruct basic; [eauto|].
  destruct (lookaheadLoop_total (S (countEmpty (cloneGrid grid))) (cloneGrid grid))
    as [w ->]; [lia|].
  cbn [mbind option_bind]. eexists. split; [reflexivity | discriminate].
Qed.

(** X20.  A 9x9 grid with clues of 1..9 for which [requiresLookahead]
    returns true is one that basic deduction does not solve and that has
    exactly one solution: forcing the other candidate after a contradiction
    loses no solution. *)
Theorem requiresLookahead_implies_unique (grid : Grid) :
  grid9 grid → digitClues grid → requiresLookahead grid = Some true →
  canSolveWithBasicDeduction grid = Some false ∧
  ∃ s, completes grid s ∧ (∀ s', completes grid s' → s' = s) ∧
       countSolutions grid 2 = Some 1.
Proof.
  intros Hg Hclues Hlook. unfold requiresLookahead in Hlook.
  destruct (canSolveWithBasicDeduction grid) as [[|]|]; try discriminate.
  cbn [mbind option_bind] in Hlook. rewrite cloneGrid_id in Hlook.
  destruct (lookaheadLoop (S (countEmpty grid)) grid) as [w|] eqn:Hloop; [|discriminate].
  cbn [mbind option_bind] in Hlook. injection Hlook as Hsolved.
  split; [reflexivity|].
  destruct (refines_solved_unique grid w Hg Hclues
              (lookaheadLoop_refines _ grid w Hloop) Hsolved) as [Hw Huniq].
  exists w. split; [exact Hw|]. split; [exact Huniq|].
  exact (proj1 (unique_solution_counted grid w Hg Hw Huniq)).
Qed.

Lemma requiresLookahead_implies_unique_witness :
  requiresLookahead lookaheadGrid = Some true ∧
  canSolveWithBasicDeduction lookaheadGrid = Some false ∧
  ∃ s, completes lookaheadGrid s ∧ (∀ s', completes lookaheadGrid s' → s' = s) ∧
       countSolutions lookaheadGrid 2 = Some 1.
Proof.
  assert (Hg : grid9 lookaheadGrid) by (apply grid9b_spec; reflexivity).
  assert (Hl : requiresLookahead lookaheadGrid = Some true) by (vm_compute; reflexivity).
  split; [exact Hl|].
  apply (requiresLookahead_implies_unique lookaheadGrid Hg); [|exact Hl].
  apply digitCluesb_spec; [exact Hg | vm_compute; reflexivity].
Defined.

(** ** Generated puzzles *)

(** X21.  Whatever the difficulty and the random draws, the puzzle that
    [generatePuzzle] returns is its solution with cells cleared: the
    solution holds a digit of 1..9 in every cell, every cell of the puzzle
    is empty or equal to the cell of the solution, and the puzzle has no
    violation. *)
Theorem generatePuzzle_clues_are_the_solution (difficulty : Difficulty) (rnd : Random) :
  ∃ puzzle solution,
    generatePuzzle difficulty rnd = Some (puzzle, solution) ∧
    digitGrid solution ∧
    (∀ r c, inRange r → inRange c →
       cellAt puzzle r c = JNull ∨ cellAt puzzle r c = cellAt solution r c) ∧
    getViolations puzzle = [].
Proof.
  destruct (generatePuzzle_spec difficulty rnd)
    as (puzzle & solution & Hgen & Hsol & Hsolved & Hcarved & _).
  exists puzzle, solution. split; [exact Hgen|]. split; [exact Hsol|].
  split; [apply Hcarved|]. apply getViolations_nil.
  apply (completes_consistent puzzle solution); [apply Hcarved|].
  apply carvedFrom_completes; assumption.
Qed.

(** X22.  A hard puzzle that is left with more than 28 clues is minimal:
    the loop has tried every cell, so clearing any one of its clues gives a
    grid with more than one solution. *)
Theorem generatePuzzle_hard_is_minimal_above_target (rnd : Random) :
  ∃ puzzle solution,
    generatePuzzle hard rnd = Some (puzzle, solution) ∧
    (28 < clueCount puzzle →
     ∀ row col n, cellAt puzzle row col = JNum n →
       countSolutions (setCell puzzle row col None) 2 = Some 2).
Proof.
  destruct (generateSolvedGrid_spec rnd 0)
    as (p1 & p2 & p3 & s & n & H1 & H2 & H3 & _ & _ & Egen & Hs).
  pose proof (completes_diagGrid_digitGrid p1 p2 p3 s Hs H1 H2 H3) as Hd.
  assert (Hsolved : isSolved s = true) by apply Hs.
  unfold generatePuzzle. rewrite Egen. cbn [mbind option_bind]. rewrite cloneGrid_id.
  destruct (shuffle_cells rnd n) as [Hnd Hrange].
  pose proof (proj1 (shuffleFrom_Permutation rnd (length cells - 1) n cells)) as Hperm.
  fold (shuffle rnd n cells) in Hperm.
  destruct (shuffle rnd n cells) as [positions n']. cbn [fst] in Hnd, Hrange, Hperm.
  assert (Hself : carvedFrom s s) by (split; [apply Hd | intros; right; reflexivity]).
  destruct (removeClues_spec hard s Hd positions 81 s) as (puzzle & E & Hinv).
  - exact Hnd.
  - intros row col Hin. destruct (Hrange row col Hin). auto.
  - split; [exact Hself|]. split; [apply countSolutions_solved; assumption|].
    split; [intros H; contradiction|].
    rewrite clueCount_digitGrid by exact Hd. cbn. lia.
  - apply clueCount_digitGrid, Hd.
  - exists puzzle, s. rewrite E. cbn [mbind option_bind]. split; [reflexivity|].
    destruct (removeClues_hard_minimal s Hd Hsolved positions 81 s puzzle)
      as [Hcarved Hmin]; try assumption.
    + intros row col Hin. destruct (Hrange row col Hin). auto.
    + apply clueCount_digitGrid, Hd.
    + intros Hlt row col m Hcell.
      destruct Hcarved as [Hgp _].
      apply ambiguous_counted; [apply grid9_setCell, Hgp|].
      apply (Hmin Hlt row col m); [|exact Hcell].
      apply list_elem_of_In. rewrite Hperm. apply list_elem_of_In, cells_spec.
      exact (cellAt_num_in_range puzzle row col m Hgp Hcell).
Qed.

(** ** The game *)

(** X23.  [startNewGame] always returns, and the state it sets shows the
    puzzle: the board is the puzzle, the fixed cells are exactly the cells
    the puzzle fills, no cell is selected, nothing counts as an entry of
    the player and the congratulation is off. *)
Theorem startNewGame_shows_the_puzzle (rnd : Random) (diff : Difficulty)
    (st : App.State) :
  ∃ st', App.startNewGame rnd diff st = Some st' ∧
    App.current st' = App.puzzle st' ∧
    (∀ r c, App.isFixed (App.fixedCells st') r c = true ↔
            ∃ n, cellAt (App.puzzle st') r c = JNum n) ∧
    App.selectedCell st' = None ∧
    App.hasUserEntries st' = false ∧
    App.showCongrats st' = false.
Proof.
  destruct (startNewGame_started rnd diff st)
    as (st' & Hstart & Hst & Hcur & Hsel & Hcongrats & _).
  exists st'. split; [exact Hstart|]. clear Hstart.
  split; [exact Hcur|]. split; [|split; [exact Hsel|split]].
  - intros r c. destruct Hst as (_ & _ & _ & _ & -> & _).
    rewrite isFixed_markFixed.
    destruct (cellAt (App.puzzle st') r c) as [| |n]; split;
      try (intros H; discriminate H); try (intros [m H]; discriminate H).
    + intros _. exists n. reflexivity.
    + reflexivity.
  - apply (started_hasUserEntries st' Hst), Hcur.
  - exact Hcongrats.
Qed.

(** X24.  The clues stay on the board: in every state that clicks, number
    pad input, resets and new games lead to after a game was started, each
    cell that the puzzle fills holds on the board the number of the puzzle,
    which is the number of the solution. *)
Theorem clues_stay_on_the_board (rnd : Random) (diff : Difficulty) (st0 : App.State) :
  ∃ st1, App.startNewGame rnd diff st0 = Some st1 ∧
    ∀ st, App.steps st1 st →
      ∀ r c n, cellAt (App.puzzle st) r c = JNum n →
        cellAt (App.current st) r c = JNum n ∧
        cellAt (App.solution st) r c = JNum n.
Proof.
  destruct (startNewGame_started rnd diff st0) as (st1 & Hstart & Hst1 & _).
  exists st1. split; [exact Hstart|]. clear Hstart. intros st Hsteps r c n Hcell.
  destruct (steps_started st1 st Hst1 Hsteps)
    as (_ & _ & [Hgp Hsub] & _ & _ & _ & Hclues & _).
  split; [exact (Hclues r c n Hcell)|].
  destruct (cellAt_num_in_range _ r c n Hgp Hcell) as [Hr Hc].
  destruct (Hsub r c Hr Hc) as [E|E]; congruence.
Qed.


(** X26.  A solved board is the solution: in every state of a started game,
    if the board holds digits of 1..9 only and [isSolved] accepts it, then
    the board is the solution that was generated with the puzzle. *)
Theorem solved_board_is_the_solution (rnd : Random) (diff : Difficulty) (st0 : App.State) :
  ∃ st1, App.startNewGame rnd diff st0 = Some st1 ∧
    ∀ st, App.steps st1 st →
      digitGrid (App.current st) → isSolved (App.current st) = true →
      App.current st = App.solution st.
Proof.
  destruct (startNewGame_started rnd diff st0) as (st1 & Hstart & Hst1 & _).
  exists st1. split; [exact Hstart|]. clear Hstart. intros st Hsteps.
  exact (started_solved st (steps_started st1 st Hst1 Hsteps)).
Qed.

(** X27.  [hasUserEntries] tells whether the board differs from the puzzle:
    in every state of a started game it returns false exactly when the
    board is the puzzle; in particular it returns false after a reset. *)
Theorem hasUserEntries_iff_board_differs (rnd : Random) (diff : Difficulty)
    (st0 : App.State) :
  ∃ st1, App.startNewGame rnd diff st0 = Some st1 ∧
    ∀ st, App.steps st1 st →
      (App.hasUserEntries st = false ↔ App.current st = App.puzzle st) ∧
      App.hasUserEntries (App.resetGame st) = false.
Proof.
  destruct (startNewGame_started rnd diff st0) as (st1 & Hstart & Hst1 & _).
  exists st1. split; [exact Hstart|]. clear Hstart. intros st Hsteps.
  pose proof (steps_started st1 st Hst1 Hsteps) as Hst.
  split; [exact (started_hasUserEntries st Hst)|].
  assert (Hreset : App.started (App.checkCompletion (App.handleReset true st)))
    by (apply (step_started st), App.step_reset; exact Hst).
  assert (Hst' : App.started (App.resetGame st)).
  { unfold App.started in *. unfold App.checkCompletion, App.handleReset in Hreset.
    destruct Hst as (Hsol & Hsolved & Hcarved & Hcount & Hfixed & Hg & Hclues & Hsel).
    unfold App.resetGame.
    cbn [App.puzzle App.solution App.current App.fixedCells App.selectedCell
         App.showSettings App.showCongrats App.difficulty].
    rewrite cloneGrid_id.
    repeat (split; [assumption|]). split; [apply Hcarved|].
    split; [auto | discriminate]. }
  apply (started_hasUserEntries _ Hst'). unfold App.resetGame.
  cbn [App.puzzle App.current]. apply cloneGrid_id.
Qed.

(** X28.  The congratulation needs a solved board: a step of the game turns
    [showCongrats] on only if [isSolved] accepts the board it leaves. *)
Theorem congratulation_needs_a_solved_board (st st' : App.State) :
  App.step st st' → App.showCongrats st' = true →
  App.showCongrats st = true ∨ isSolved (App.current st') = true.
Proof.
  assert (Hcheck : ∀ s, App.showCongrats (App.checkCompletion s) = true →
            App.showCongrats s = true ∨
            isSolved (App.current (App.checkCompletion s)) = true).
  { intros s. unfold App.checkCompletion.
    destruct ((0 <? length (App.current s))%nat) eqn:Hlen; cbn [andb]; [|auto].
    destruct (isSolved (App.current s)) eqn:Hsolved; [|auto].
    intros _. right. exact Hsolved. }
  assert (Hnew : ∀ rnd diff s s', App.startNewGame rnd diff s = Some s' →
            App.showCongrats s' = false).
  { intros rnd diff s s' Hs.
    destruct (startNewGame_started rnd diff s) as (s1 & Hs1 & _ & _ & _ & Hc & _).
    rewrite Hs1 in Hs. injection Hs as <-. exact Hc. }
  intros Hstep.
  destruct Hstep as [st row col Hshown | st num | st st' confirmed rnd diff Hgame
                    | st st' rnd diff Hgame | st confirmed]; intros Hc.
  - left. unfold App.handleCellClick in Hc.
    destruct (negb (App.isFixed (App.fixedCells st) row col)); exact Hc.
  - destruct (Hcheck _ Hc) as [H|H]; [left | right; exact H].
    unfold App.handleNumberInput in H.
    destruct (App.selectedCell st) as [[row col]|]; [|exact H].
    destruct (negb (App.isFixed (App.fixedCells st) row col)); exact H.
  - destruct (Hcheck _ Hc) as [H|H]; [left | right; exact H].
    unfold App.handleNewGame in Hgame.
    destruct (App.hasUserEntries st); [destruct confirmed|].
    + rewrite (Hnew _ _ _ _ Hgame) in H. discriminate H.
    + injection Hgame as <-. exact H.
    + rewrite (Hnew _ _ _ _ Hgame) in H. discriminate H.
  - destruct (Hcheck _ Hc) as [H|H]; [|right; exact H].
    rewrite (Hnew _ _ _ _ Hgame) in H. discriminate H.
  - destruct (Hcheck _ Hc) as [H|H]; [left | right; exact H].
    unfold App.handleReset in H. destruct confirmed; exact H.
Qed.

Lemma congratulation_needs_a_solved_board_witness :
  App.showCongrats (App.checkCompletion (App.handleNumberInput (Some 9) lastCellState))
    = true ∧
  (App.showCongrats lastCellState = true ∨
   isSolved (App.current
     (App.checkCompletion (App.handleNumberInput (Some 9) lastCellState))) = true).
Proof.
  assert (Hc : App.showCongrats
                 (App.checkCompletion (App.handleNumberInput (Some 9) lastCellState))
               = true) by (vm_compute; reflexivity).
  split; [exact Hc|].
  exact (congratulation_needs_a_solved_board lastCellState _
           (App.step_input lastCellState (Some 9)) Hc).
Defined.

(** X29.  Every arrangement can come out of [shuffle]: for every
    permutation of the array there are random draws with which [shuffle]
    returns it. *)
Theorem shuffle_reaches_every_permutation {A : Type} (array target : list A) :
  target ≡ₚ array → ∃ rnd : Random, (shuffle rnd 0 array).1 = target.
Proof.
  intros Hperm. unfold shuffle.
  destruct array as [|x array].
  - apply Permutation_nil_r in Hperm as ->. exists (λ _, 0%nat). reflexivity.
  - destruct (shuffleFrom_reaches (length (x :: array) - 1) (x :: array) target)
      as [choices Hchoices].
    + cbn [length]. lia.
    + rewrite !take_ge; [exact Hperm | cbn [length]; lia |].
      rewrite (Permutation_length Hperm). cbn [length]. lia.
    + rewrite !drop_ge; [reflexivity | cbn [length]; lia |].
      rewrite (Permutation_length Hperm). cbn [length]. lia.
    + exists (λ k, nth k choices 0%nat). apply Hchoices. intros k _. reflexivity.
Qed.

Lemma shuffle_reaches_every_permutation_witness :
  ∃ rnd : Random, (shuffle rnd 0 digits).1 = [9; 8; 7; 6; 5; 4; 3; 2; 1].
Proof.
  apply (shuffle_reaches_every_permutation digits [9; 8; 7; 6; 5; 4; 3; 2; 1]).
  exact (Permutation_rev [9; 8; 7; 6; 5; 4; 3; 2; 1]).
Defined.

(** X30.  [createEmptyGrid] returns nine rows of nine empty cells, and on
    it every cell has the nine digits as candidates. *)
Theorem createEmptyGrid_is_empty :
  grid9 createEmptyGrid ∧
  ∀ r c, inRange r → inRange c →
    cellAt createEmptyGrid r c = JNull ∧ getCandidates createEmptyGrid r c = digits.
Proof.
  split; [exact grid9_createEmptyGrid|]. intros r c Hr Hc.
  assert (H : forallb (λ '(r, c),
            isNull (cellAt createEmptyGrid r c) &&
            bool_decide (getCandidates createEmptyGrid r c = digits)) cells = true)
    by (vm_compute; reflexivity).
  rewrite forallb_forall in H.
  specialize (H (r, c) (proj2 (cells_spec r c) (conj Hr Hc))). cbv beta iota in H.
  apply andb_true_iff in H as [Hnull Hcand]. split.
  - destruct (cellAt createEmptyGrid r c); try discriminate. reflexivity.
  - apply bool_decide_eq_true in Hcand. exact Hcand.
Qed.
